(** * tgc: a tracing garbage collector for C++ (shallow embedding)

    The development follows the two source variants of the repository:

    - [Module Tgc] embeds the incremental collector of [src/tgc.cpp]
      (class [Collector], [ClassInfo::registerSubPtr]);
    - [Module GcPtr] embeds the handle class [gc_ptr] of [src/gcptr.h]
      together with the part of [src/gcptr.cpp] its write barrier reaches.

    Memory is explicit: every C++ object that is reached through a pointer
    lives in a finite map from addresses to records, and a read through a
    null, dangling or past-the-end pointer is a [Fault].  The embedding is
    sequential: the locks of [Collector] are not modelled, and [stepCnt] is
    an integer of [Z] (the [int] of the source never gets near its bounds
    for the budgets considered).

    The models and the vocabulary of the properties come first, the
    properties ([Module TgcTheory], [Module GcPtrTheory]) after them. *)

From Stdlib Require Import ZArith Lia List Sorted.
From stdpp Require Import base tactics option list gmap sorting.

#[local] Open Scope Z_scope.

(** ** Outcome of running a piece of C++ code *)

Inductive Run (A : Type) : Type :=
| Done (a : A)
| Fault
| OutOfFuel.
Arguments Done {A} a.
Arguments Fault {A}.
Arguments OutOfFuel {A}.

#[global] Instance Run_ret : MRet Run := fun A a => Done a.
#[global] Instance Run_bind : MBind Run := fun A B f m =>
  match m with
  | Done a => f a
  | Fault => Fault
  | OutOfFuel => OutOfFuel
  end.

(** Reading through a pointer. *)
Definition deref {A} (o : option A) : Run A :=
  match o with
  | Some a => Done a
  | None => Fault
  end.

Definition addr := Z.

Module Tgc.

(** ** Data model (namespace [tgc::details]) *)

Inductive MarkColor := Unmarked | Gray | Alive.
Inductive State := RootMarking | ChildMarking | Sweeping.
Inductive RegState := Unregistered | Registering | Registered.

#[global] Instance MarkColor_eq_dec : EqDecision MarkColor.
Proof. solve_decision. Defined.
#[global] Instance State_eq_dec : EqDecision State.
Proof. solve_decision. Defined.
#[global] Instance RegState_eq_dec : EqDecision RegState.
Proof. solve_decision. Defined.

(** Modelled from the spec: the class [ClassInfo] is declared in the header
    of [tgc.cpp], which is not part of the sources.  Its fields are those of
    the spec's data model: the payload size, the learned offsets of the
    pointer fields and the registration state.  [registerSubPtr] computes an
    offset of C++ type [short]; the offsets are kept as the value of that
    [short]. *)
Record ClassInfo := mkClassInfo {
  size : Z;
  subPtrOffsets : list Z;
  regState : RegState;
}.

(** Modelled from the spec: [ObjMeta] is declared in the missing header.
    [clsInfo] is the address of the class descriptor, [objPtr] the address of
    the payload. *)
Record ObjMeta := mkObjMeta {
  clsInfo : addr;
  objPtr : addr;
  arrayLength : Z;
  markState : MarkColor;
}.

(** Modelled from the spec: [PtrBase] is declared in the missing header;
    [tgc.cpp] uses the three fields [meta], [isRoot] and [index]. *)
Record PtrBase := mkPtrBase {
  meta : option addr;
  isRoot : Z;
  index : nat;
}.

(** What the destruction of an [ObjMeta] does to the outside world. *)
Inductive Event :=
| EvDctor (m : addr)
| EvFree (m : addr).

#[global] Instance Event_eq_dec : EqDecision Event.
Proof. solve_decision. Defined.

(** The collector (class [Collector]) and the memory it works on.

    - [pointers] is the [vector<PtrBase*>], first element at index 0;
    - [grayObjs] is the [vector<ObjMeta*>] used as a stack: the head of the
      list is [grayObjs.back()];
    - [metaSet] is the [set<ObjMeta*, ObjMeta::Less>] as the sequence of its
      elements in the order of the comparator;
    - [nextSweeping] is the iterator into [metaSet] as a position in that
      sequence; [length metaSet] is [metaSet.end()];
    - [handles], [metas] and [classes] are the live [PtrBase], [ObjMeta] and
      [ClassInfo] objects by address;
    - [isCreatingObj] is the static counter [ClassInfo::isCreatingObj];
    - [events] records destructor calls and deallocations in order. *)
Record World := mkWorld {
  pointers : list addr;
  grayObjs : list addr;
  metaSet : list addr;
  nextSweeping : nat;
  nextRootMarking : nat;
  state : State;
  handles : gmap Z PtrBase;
  metas : gmap Z ObjMeta;
  classes : gmap Z ClassInfo;
  isCreatingObj : Z;
  events : list Event;
}.

Definition set_pointers (v : list addr) (w : World) : World :=
  mkWorld v (grayObjs w) (metaSet w) (nextSweeping w) (nextRootMarking w)
    (state w) (handles w) (metas w) (classes w) (isCreatingObj w) (events w).
Definition set_grayObjs (v : list addr) (w : World) : World :=
  mkWorld (pointers w) v (metaSet w) (nextSweeping w) (nextRootMarking w)
    (state w) (handles w) (metas w) (classes w) (isCreatingObj w) (events w).
Definition set_metaSet (v : list addr) (w : World) : World :=
  mkWorld (pointers w) (grayObjs w) v (nextSweeping w) (nextRootMarking w)
    (state w) (handles w) (metas w) (classes w) (isCreatingObj w) (events w).
Definition set_nextSweeping (v : nat) (w : World) : World :=
  mkWorld (pointers w) (grayObjs w) (metaSet w) v (nextRootMarking w)
    (state w) (handles w) (metas w) (classes w) (isCreatingObj w) (events w).
Definition set_nextRootMarking (v : nat) (w : World) : World :=
  mkWorld (pointers w) (grayObjs w) (metaSet w) (nextSweeping w) v
    (state w) (handles w) (metas w) (classes w) (isCreatingObj w) (events w).
Definition set_state (v : State) (w : World) : World :=
  mkWorld (pointers w) (grayObjs w) (metaSet w) (nextSweeping w)
    (nextRootMarking w) v (handles w) (metas w) (classes w) (isCreatingObj w)
    (events w).
Definition set_handles (v : gmap Z PtrBase) (w : World) : World :=
  mkWorld (pointers w) (grayObjs w) (metaSet w) (nextSweeping w)
    (nextRootMarking w) (state w) v (metas w) (classes w) (isCreatingObj w)
    (events w).
Definition set_metas (v : gmap Z ObjMeta) (w : World) : World :=
  mkWorld (pointers w) (grayObjs w) (metaSet w) (nextSweeping w)
    (nextRootMarking w) (state w) (handles w) v (classes w) (isCreatingObj w)
    (events w).
Definition set_classes (v : gmap Z ClassInfo) (w : World) : World :=
  mkWorld (pointers w) (grayObjs w) (metaSet w) (nextSweeping w)
    (nextRootMarking w) (state w) (handles w) (metas w) v (isCreatingObj w)
    (events w).
Definition set_events (v : list Event) (w : World) : World :=
  mkWorld (pointers w) (grayObjs w) (metaSet w) (nextSweeping w)
    (nextRootMarking w) (state w) (handles w) (metas w) (classes w)
    (isCreatingObj w) v.

(** A freshly constructed collector: no handle, no allocation,
    [state = State::RootMarking], [nextRootMarking = 0]. *)
Definition initial : World :=
  mkWorld [] [] [] 0 0 RootMarking ∅ ∅ ∅ 0 [].

(** Field writes through a pointer. *)
Definition with_markState (c : MarkColor) (o : ObjMeta) : ObjMeta :=
  mkObjMeta (clsInfo o) (objPtr o) (arrayLength o) c.
Definition with_isRoot (r : Z) (h : PtrBase) : PtrBase :=
  mkPtrBase (meta h) r (index h).
Definition with_index (i : nat) (h : PtrBase) : PtrBase :=
  mkPtrBase (meta h) (isRoot h) i.
Definition with_meta (m : option addr) (h : PtrBase) : PtrBase :=
  mkPtrBase m (isRoot h) (index h).

Definition getHandle (p : addr) (w : World) : Run PtrBase :=
  deref (handles w !! p).
Definition getMeta (m : addr) (w : World) : Run ObjMeta :=
  deref (metas w !! m).
Definition getClass (k : addr) (w : World) : Run ClassInfo :=
  deref (classes w !! k).

Definition setMark (m : addr) (c : MarkColor) (w : World) : Run World :=
  o ← getMeta m w;
  mret (set_metas (<[m := with_markState c o]> (metas w)) w).

(** ** [ClassInfo::registerSubPtr] *)

(** Conversion to the 16-bit [short] of [(decltype(offset))(...)]. *)
Definition to_short (z : Z) : Z := (z + 32768) mod 65536 - 32768.

Definition with_subPtrOffsets (l : list Z) (ci : ClassInfo) : ClassInfo :=
  mkClassInfo (size ci) l (regState ci).

Definition registerSubPtr (ci : ClassInfo) (owner : ObjMeta) (p : addr)
  : ClassInfo :=
  if decide (regState ci = Registered) then ci
  else
    let offset := to_short (p - objPtr owner) in
    match last (subPtrOffsets ci) with
    | Some back => if offset <=? back then ci
                   else with_subPtrOffsets (subPtrOffsets ci ++ [offset]) ci
    | None => with_subPtrOffsets (subPtrOffsets ci ++ [offset]) ci
    end.

(** A series of calls on the same class descriptor. *)
Definition registerSubPtrs (ci : ClassInfo) (calls : list (ObjMeta * addr))
  : ClassInfo :=
  fold_left (fun c call => registerSubPtr c (fst call) (snd call)) calls ci.

Definition strictly_increasing (l : list Z) : Prop := StronglySorted Z.lt l.

(** ** The ordered set of metas and the owner lookup *)

(** Modelled from the spec: [ObjMeta::operator<] and [ObjMeta::containsPtr]
    are declared in the missing header.  The spec orders metas by payload
    range, [a < b] iff [a.payload + a.size <= b.payload], and a meta contains
    the addresses of its payload range; [ObjInfo::Less] and
    [ObjInfo::containsPointer] of [gcptr.cpp] are the same two tests. *)
Definition payloadEnd (w : World) (o : ObjMeta) : Run Z :=
  ci ← getClass (clsInfo o) w;
  mret (objPtr o + size ci).

Definition metaLess (w : World) (x y : ObjMeta) : Run bool :=
  e ← payloadEnd w x;
  mret (e <=? objPtr y).

Definition containsPtr (w : World) (o : ObjMeta) (p : addr) : Run bool :=
  e ← payloadEnd w o;
  mret ((objPtr o <=? p) && (p <? e)).

(** Modelled from the spec: the static [DummyMetaInfo] whose payload address
    is [dummyObjPtr]; it is only ever the right operand of the comparator. *)
Definition DummyMetaInfo (dummyObjPtr : addr) : ObjMeta :=
  mkObjMeta 0 dummyObjPtr 0 Unmarked.

(** [std::set::lower_bound]: the position of the first element that is not
    ordered before [key]; the length of the sequence is [end()]. *)
Fixpoint lower_bound (w : World) (l : list addr) (key : ObjMeta) : Run nat :=
  match l with
  | [] => mret 0%nat
  | m :: l' =>
      o ← getMeta m w;
      b ← metaLess w o key;
      if b : bool then i ← lower_bound w l' key; mret (S i)
      else mret 0%nat
  end.

Definition findOwnerMeta (obj : addr) (w : World) : Run (option addr) :=
  i ← lower_bound w (metaSet w) (DummyMetaInfo obj);
  match metaSet w !! i with
  | None => mret None
  | Some m =>
      o ← getMeta m w;
      c ← containsPtr w o obj;
      mret (if c : bool then Some m else None)
  end.

(** [Collector::addObj]: [metaSet.insert(meta)].  The element goes before the
    first element it is ordered before; when an equivalent element is present
    nothing is inserted.  An iterator stays on its element, so the position
    [nextSweeping] moves up when the new element lands at or before it. *)
Definition addObj (m : addr) (w : World) : Run World :=
  o ← getMeta m w;
  i ← lower_bound w (metaSet w) o;
  let inserted :=
    set_nextSweeping
      (if (i <=? nextSweeping w)%nat then S (nextSweeping w)
       else nextSweeping w)
      (set_metaSet (take i (metaSet w) ++ m :: drop i (metaSet w)) w) in
  match metaSet w !! i with
  | None => mret inserted
  | Some e =>
      eo ← getMeta e w;
      b ← metaLess w o eo;
      mret (if b : bool then inserted else w)
  end.

(** ** Marking of roots and the write barrier *)

Definition tryMarkRoot (p : addr) (w : World) : Run World :=
  h ← getHandle p w;
  if decide (isRoot h = 1) then
    m ← deref (meta h);
    o ← getMeta m w;
    if decide (markState o = Unmarked) then
      w1 ← setMark m Gray w;
      mret (set_grayObjs (m :: grayObjs w1) w1)
    else mret w
  else mret w.

Definition onPointeeChanged (p : addr) (w : World) : Run World :=
  h ← getHandle p w;
  match meta h with
  | None => mret w
  | Some m =>
      match state w with
      | RootMarking =>
          if (index h <? nextRootMarking w)%nat then tryMarkRoot p w
          else mret w
      | ChildMarking => tryMarkRoot p w
      | Sweeping =>
          o ← getMeta m w;
          if decide (markState o = Unmarked) then
            cur ← deref (metaSet w !! nextSweeping w);
            co ← getMeta cur w;
            b ← metaLess w o co;
            if b : bool then mret w
            else setMark m Alive w
          else mret w
      end
  end.

(** ** Registration of handles *)

Definition registerPtr (p : addr) (w : World) : Run World :=
  h ← getHandle p w;
  let w1 :=
    set_handles (<[p := with_index (length (pointers w)) h]> (handles w)) w in
  let w2 := set_pointers (pointers w1 ++ [p]) w1 in
  if 0 <? isCreatingObj w2 then
    r ← findOwnerMeta p w2;
    match r with
    | Some owner =>
        h2 ← getHandle p w2;
        let w3 := set_handles (<[p := with_isRoot 0 h2]> (handles w2)) w2 in
        o ← getMeta owner w3;
        ci ← getClass (clsInfo o) w3;
        mret (set_classes
                (<[clsInfo o := registerSubPtr ci o p]> (classes w3)) w3)
    | None => mret w2
    end
  else mret w2.

Definition pop_back {A} (l : list A) : list A := take (length l - 1) l.

Definition unregisterPtr (p : addr) (w : World) : Run World :=
  back ← deref (last (pointers w));
  if decide (p = back) then mret (set_pointers (pop_back (pointers w)) w)
  else
    h ← getHandle p w;
    slot ← deref (pointers w !! index h);
    let swapped :=
      <[(length (pointers w) - 1)%nat := slot]>
        (<[index h := back]> (pointers w)) in
    pointer ← deref (swapped !! index h);
    hp ← getHandle pointer w;
    let w1 :=
      set_pointers (pop_back swapped)
        (set_handles (<[pointer := with_index (index h) hp]> (handles w)) w) in
    match meta hp with
    | None => mret w1
    | Some _ =>
        if decide (state w1 = RootMarking) then
          if (index h <? nextRootMarking w1)%nat then tryMarkRoot pointer w1
          else mret w1
        else mret w1
    end.

(** Constructors and destructor of [PtrBase].  The member initialisers run
    before [registerPtr]; [index] has no initialiser and is written first
    thing by [registerPtr]. *)
Definition PtrBase_ctor (p : addr) (w : World) : Run World :=
  registerPtr p (set_handles (<[p := mkPtrBase None 1 0]> (handles w)) w).

Definition PtrBase_ctor_obj (p obj : addr) (w : World) : Run World :=
  w1 ← registerPtr p
         (set_handles (<[p := mkPtrBase None 1 0]> (handles w)) w);
  r ← findOwnerMeta obj w1;
  h ← getHandle p w1;
  mret (set_handles (<[p := with_meta r h]> (handles w1)) w1).

Definition PtrBase_dtor (p : addr) (w : World) : Run World :=
  w1 ← unregisterPtr p w;
  mret (set_handles (delete p (handles w1)) w1).

(** Modelled from the spec: the assignment operators of the handle class are
    in the missing header.  On a pointee update the handle sets
    [meta = new_meta] and then calls [onPointeeChanged] on itself
    ([PtrBase::onPtrChanged]). *)
Definition assign (p : addr) (new_meta : option addr) (w : World) : Run World :=
  h ← getHandle p w;
  onPointeeChanged p
    (set_handles (<[p := with_meta new_meta h]> (handles w)) w).

(** ** [Collector::collect] *)

(** Modelled from the spec: [ClassInfo::enumPtrs] is declared in the missing
    header.  It enumerates the sub-handles of an object: for each learned
    offset of the object's class, the handle at that offset inside the
    payload. *)
Definition enumPtrs (o : ObjMeta) (w : World) : Run (list addr) :=
  ci ← getClass (clsInfo o) w;
  mret (map (fun off => objPtr o + off) (subPtrOffsets ci)).

(** Modelled from the spec: [delete meta] runs [~ObjMeta] and the class's
    deallocation, both in the missing header: destruction invokes the
    destructor thunk on the payload, then frees the block.  The two steps
    are recorded in [events]; what the thunk of a user type does besides
    (such as destroying the handles embedded in the payload) is code of the
    application and has no counterpart here. *)
Definition deleteMeta (m : addr) (w : World) : World :=
  set_events (events w ++ [EvDctor m; EvFree m])
    (set_metas (delete m (metas w)) w).

(** [for (; it->hasNext();) it->getNext()->isRoot = 0;] *)
Fixpoint clearRoots (subs : list addr) (w : World) : Run World :=
  match subs with
  | [] => mret w
  | s :: subs' =>
      h ← getHandle s w;
      clearRoots subs'
        (set_handles (<[s := with_isRoot 0 h]> (handles w)) w)
  end.

(** Body of the root-marking loop, for the handle at [nextRootMarking]. *)
Definition rootMarkingBody (w : World) : Run World :=
  p ← deref (pointers w !! nextRootMarking w);
  h ← getHandle p w;
  match meta h with
  | None => mret w
  | Some m =>
      o ← getMeta m w;
      subs ← enumPtrs o w;
      w1 ← clearRoots subs w;
      tryMarkRoot p w1
  end.

(** [for (; nextRootMarking < pointers.size() && stepCnt-- > 0;
          nextRootMarking++)].  The result carries the value of [stepCnt]
    when the loop is left. *)
Fixpoint rootMarkingLoop (fuel : nat) (stepCnt : Z) (w : World)
  : Run (World * Z) :=
  if (nextRootMarking w <? length (pointers w))%nat then
    if 0 <? stepCnt then
      match fuel with
      | O => OutOfFuel
      | S fuel' =>
          w1 ← rootMarkingBody w;
          rootMarkingLoop fuel' (stepCnt - 1)
            (set_nextRootMarking (S (nextRootMarking w1)) w1)
      end
    else mret (w, stepCnt - 1)
  else mret (w, stepCnt).

(** [for (; it->hasNext(); stepCnt--)] over the sub-handles of the popped
    object. *)
Fixpoint pushChildren (subs : list addr) (stepCnt : Z) (w : World)
  : Run (World * Z) :=
  match subs with
  | [] => mret (w, stepCnt)
  | ptr :: subs' =>
      h ← getHandle ptr w;
      match meta h with
      | None => pushChildren subs' (stepCnt - 1) w
      | Some m =>
          o ← getMeta m w;
          if decide (markState o = Unmarked) then
            pushChildren subs' (stepCnt - 1)
              (set_grayObjs (m :: grayObjs w) w)
          else pushChildren subs' (stepCnt - 1) w
      end
  end.

(** Body of the child-marking loop: [o] is [grayObjs.back()] and [rest] the
    vector after [pop_back]. *)
Definition childMarkingBody (o : addr) (rest : list addr) (stepCnt : Z)
  (w : World) : Run (World * Z) :=
  w1 ← setMark o Alive (set_grayObjs rest w);
  om ← getMeta o w1;
  subs ← enumPtrs om w1;
  pushChildren subs stepCnt w1.

(** [while (grayObjs.size() && stepCnt-- > 0)] *)
Fixpoint childMarkingLoop (fuel : nat) (stepCnt : Z) (w : World)
  : Run (World * Z) :=
  match grayObjs w with
  | [] => mret (w, stepCnt)
  | o :: rest =>
      if 0 <? stepCnt then
        match fuel with
        | O => OutOfFuel
        | S fuel' =>
            '(w1, n1) ← childMarkingBody o rest (stepCnt - 1) w;
            childMarkingLoop fuel' n1 w1
        end
      else mret (w, stepCnt - 1)
  end.

(** Body of the sweeping loop, for the meta at [nextSweeping].  Erasing
    leaves the iterator on the successor, which takes the erased
    position. *)
Definition sweepingBody (w : World) : Run World :=
  m ← deref (metaSet w !! nextSweeping w);
  o ← getMeta m w;
  if decide (markState o = Unmarked) then
    mret (deleteMeta m
            (set_metaSet (delete (nextSweeping w) (metaSet w)) w))
  else
    w1 ← setMark m Unmarked w;
    mret (set_nextSweeping (S (nextSweeping w1)) w1).

(** [for (; nextSweeping != metaSet.end() && stepCnt-- > 0;)] *)
Fixpoint sweepingLoop (fuel : nat) (stepCnt : Z) (w : World)
  : Run (World * Z) :=
  if (nextSweeping w <? length (metaSet w))%nat then
    if 0 <? stepCnt then
      match fuel with
      | O => OutOfFuel
      | S fuel' =>
          w1 ← sweepingBody w;
          sweepingLoop fuel' (stepCnt - 1) w1
      end
    else mret (w, stepCnt - 1)
  else mret (w, stepCnt).

(** The three labels of the [switch].  Control falls from one label into the
    next through [goto]; [again] is the jump back to [_RootMarking].  Every
    loop iteration takes one unit of [stepCnt], so [Z.to_nat stepCnt] bounds
    the number of iterations of each loop. *)
Section Labels.
Variable again : Z -> World -> Run World.

Definition sweepingLabel (stepCnt : Z) (w : World) : Run World :=
  '(w1, n1) ← sweepingLoop (Z.to_nat stepCnt) stepCnt w;
  if (nextSweeping w1 <? length (metaSet w1))%nat then mret w1
  else
    let w2 := set_state RootMarking w1 in
    match metaSet w2 with
    | [] => mret w2
    | _ :: _ => again n1 w2
    end.

Definition childMarkingLabel (stepCnt : Z) (w : World) : Run World :=
  '(w1, n1) ← childMarkingLoop (Z.to_nat stepCnt) stepCnt w;
  match grayObjs w1 with
  | [] => sweepingLabel n1 (set_nextSweeping 0 (set_state Sweeping w1))
  | _ :: _ => mret w1
  end.

Definition rootMarkingLabel (stepCnt : Z) (w : World) : Run World :=
  '(w1, n1) ← rootMarkingLoop (Z.to_nat stepCnt) stepCnt w;
  if (nextRootMarking w1 <? length (pointers w1))%nat then mret w1
  else
    childMarkingLabel n1
      (set_nextRootMarking 0 (set_state ChildMarking w1)).

Definition dispatch (stepCnt : Z) (w : World) : Run World :=
  match state w with
  | RootMarking => rootMarkingLabel stepCnt w
  | ChildMarking => childMarkingLabel stepCnt w
  | Sweeping => sweepingLabel stepCnt w
  end.
End Labels.

(** [rounds] bounds the number of jumps back to [_RootMarking]. *)
Fixpoint collect_rounds (rounds : nat) (stepCnt : Z) (w : World) : Run World :=
  match rounds with
  | O => OutOfFuel
  | S rounds' => dispatch (collect_rounds rounds') stepCnt w
  end.

(** A round that starts at [_RootMarking] with a non-empty [metaSet] sweeps at
    least one meta or stops, so [stepCnt] bounds the number of such rounds;
    the first round may start in the middle of the [switch]. *)
Definition collect (stepCnt : Z) (w : World) : Run World :=
  collect_rounds (S (S (Z.to_nat stepCnt))) stepCnt w.

(** ** Vocabulary of the properties and example heaps *)

(** [rangeOf w m lo hi]: [m] is a live meta whose payload is [[lo, hi)]. *)
Definition rangeOf (w : World) (m : addr) (lo hi : Z) : Prop :=
  exists o ci, metas w !! m = Some o /\ classes w !! clsInfo o = Some ci /\
               lo = objPtr o /\ hi = objPtr o + size ci.

(** Every element of the set is a live meta of a live class. *)
Definition metaSet_valid (w : World) : Prop :=
  forall m, m ∈ metaSet w -> exists lo hi, rangeOf w m lo hi.

(** The comparator on two elements of the set. *)
Definition ordered_before (w : World) (x y : addr) : Prop :=
  exists lx hx ly hy, rangeOf w x lx hx /\ rangeOf w y ly hy /\ hx <= ly.

(** The set keeps its elements in the order of the comparator.  Elements
    that are ordered have disjoint payload ranges. *)
Definition metaSet_sorted (w : World) : Prop :=
  StronglySorted (ordered_before w) (metaSet w).

(** [m] owns the address [obj]. *)
Definition owns (w : World) (m : addr) (obj : addr) : Prop :=
  exists lo hi, rangeOf w m lo hi /\ lo <= obj < hi.

(** A heap with two allocations: [A] (meta at 1000, payload [[1016, 1032)])
    of a class with two pointer fields at offsets 0 and 8, and [B] (meta at
    2000, payload [[2016, 2024)]) of a class without pointer fields.  The
    handle at 50 is a root that points to [A]; the handle at 1016 is the
    first field of [A] and points to [B]; the handle at 1024 is the second
    field of [A] and is null. *)
Definition ex_classes : gmap Z ClassInfo :=
  <[100 := mkClassInfo 16 [0; 8] Registered]>
    (<[101 := mkClassInfo 8 [] Registered]> ∅).

Definition ex_metas : gmap Z ObjMeta :=
  <[1000 := mkObjMeta 100 1016 1 Unmarked]>
    (<[2000 := mkObjMeta 101 2016 1 Unmarked]> ∅).

Definition ex_handles : gmap Z PtrBase :=
  <[50 := mkPtrBase (Some 1000) 1 0]>
    (<[1016 := mkPtrBase (Some 2000) 1 1]>
       (<[1024 := mkPtrBase None 1 2]> ∅)).

Definition ex_chain : World :=
  mkWorld [50; 1016; 1024] [] [1000; 2000] 0 0 RootMarking
    ex_handles ex_metas ex_classes 0 [].

(** Payloads are not empty ([sizeof] is at least 1). *)
Definition nonempty_ranges (w : World) : Prop :=
  forall m lo hi, m ∈ metaSet w -> rangeOf w m lo hi -> lo < hi.

(** The chain heap in the middle of a sweep: [A] was visited and reset, the
    cursor is on [B], which no handle kept alive during marking. *)
Definition ex_midsweep : World :=
  mkWorld [50; 1016; 1024] [] [1000; 2000] 1 0 Sweeping
    ex_handles ex_metas ex_classes 0 [].

(** The meta a sub-handle makes the collector push: the handle's meta when
    it is not null and its mark is [Unmarked]. *)
Definition childToPush (w : World) (ptr : addr) : option addr :=
  match handles w !! ptr with
  | Some h =>
      match meta h with
      | Some m =>
          match metas w !! m with
          | Some o => if decide (markState o = Unmarked) then Some m else None
          | None => None
          end
      | None => None
      end
  | None => None
  end.

(** A sub-handle can be scanned: it is a live handle, and its meta is null
    or a live meta. *)
Definition scannable (w : World) (ptr : addr) : Prop :=
  exists h, handles w !! ptr = Some h /\
            forall m, meta h = Some m -> is_Some (metas w !! m).

(** The chain heap after root marking: [A] is gray and on the work list. *)
Definition ex_marking : World :=
  mkWorld [50; 1016; 1024] [1000] [1000; 2000] 0 0 ChildMarking
    (<[50 := mkPtrBase (Some 1000) 1 0]>
       (<[1016 := mkPtrBase (Some 2000) 0 1]>
          (<[1024 := mkPtrBase None 0 2]> ∅)))
    (<[1000 := mkObjMeta 100 1016 1 Gray]>
       (<[2000 := mkObjMeta 101 2016 1 Unmarked]> ∅))
    ex_classes 0 [].

(** [pointers[i]->index == i] for every valid index [i]. *)
Definition registry_inv (w : World) : Prop :=
  forall (i : nat) (p : addr), pointers w !! i = Some p ->
    exists h, handles w !! p = Some h /\ index h = i.

(** Construction and destruction of handles, as the application performs
    them. *)
Inductive HandleOp :=
| Construct (p : addr)
| ConstructFrom (p obj : addr)
| Destroy (p : addr).

Definition applyHandleOp (op : HandleOp) (w : World) : Run World :=
  match op with
  | Construct p => PtrBase_ctor p w
  | ConstructFrom p obj => PtrBase_ctor_obj p obj w
  | Destroy p => PtrBase_dtor p w
  end.

Fixpoint applyHandleOps (ops : list HandleOp) (w : World) : Run World :=
  match ops with
  | [] => mret w
  | op :: ops' => w1 ← applyHandleOp op w; applyHandleOps ops' w1
  end.

(** A handle is constructed at an address where no registered handle
    lives. *)
Fixpoint constructs_fresh (ops : list HandleOp) (w : World) : Prop :=
  match ops with
  | [] => True
  | op :: ops' =>
      match op with
      | Construct p | ConstructFrom p _ => p ∉ pointers w
      | Destroy _ => True
      end /\
      forall w1, applyHandleOp op w = Done w1 -> constructs_fresh ops' w1
  end.

(** [rank] counts the jumps that can be taken from a label before a loop
    body runs or the call returns. *)
Definition rank (w : World) : nat :=
  match state w with
  | RootMarking => 2
  | ChildMarking => 1
  | Sweeping =>
      if (nextSweeping w <? length (metaSet w))%nat then 0
      else match metaSet w with [] => 0 | _ :: _ => 3 end
  end.

(** What decreases from one step of [collect] to the next: the budget,
    then the rank of the label. *)
Definition measure (n : Z) (w : World) : nat :=
  (4 * Z.to_nat n + rank w)%nat.

(** Rounds that a call needs: one more when it starts at the end of a
    sweep. *)
Definition rounds_needed (n : Z) (w : World) : nat :=
  (S (Z.to_nat n) + (if decide (rank w = 3%nat) then 1 else 0))%nat.

(** [nextRootMarking++] after the body of the root-marking loop, and the
    assignments before [goto _ChildMarking] and [goto _Sweeping]. *)
Definition afterRootBody (w1 : World) : World :=
  set_nextRootMarking (S (nextRootMarking w1)) w1.

Definition toChildMarking (w : World) : World :=
  set_nextRootMarking 0 (set_state ChildMarking w).

Definition toSweeping (w : World) : World :=
  set_nextSweeping 0 (set_state Sweeping w).

(** Whenever the state is [Sweeping], [grayObjs] is empty. *)
Definition sweeping_gray_empty (w : World) : Prop :=
  state w = Sweeping -> grayObjs w = [].

(** The entry points of the collector. *)
Inductive CollectorOp :=
| OpCollect (stepCnt : Z)
| OpOnPointeeChanged (p : addr)
| OpRegisterPtr (p : addr)
| OpUnregisterPtr (p : addr)
| OpAddObj (m : addr).

Definition applyOp (op : CollectorOp) (w : World) : Run World :=
  match op with
  | OpCollect stepCnt => collect stepCnt w
  | OpOnPointeeChanged p => onPointeeChanged p w
  | OpRegisterPtr p => registerPtr p w
  | OpUnregisterPtr p => unregisterPtr p w
  | OpAddObj m => addObj m w
  end.

Fixpoint applyOps (ops : list CollectorOp) (w : World) : Run World :=
  match ops with
  | [] => mret w
  | op :: ops' => w1 ← applyOp op w; applyOps ops' w1
  end.

(** The chain heap after marking, during the sweep, with a write barrier
    on the field of [A] and the destruction of the root handle. *)
Definition ex_ops : list CollectorOp :=
  [OpCollect 3; OpCollect 1; OpCollect 1;
   OpOnPointeeChanged 1016; OpUnregisterPtr 50].

Definition ex_after_ops : World :=
  match applyOps ex_ops ex_chain with
  | Done w => w
  | _ => ex_chain
  end.

(** The mark of a live meta. *)
Definition markOf (w : World) (m : addr) : option MarkColor :=
  markState <$> metas w !! m.





(** A heap with two allocations of which [B] is garbage: the root handle at
    50 points to [A], both fields of [A] are null.  [ex_garbage_sweep] is
    the heap after marking, when the sweep starts. *)
Definition ex_garbage_handles (isRootOfFields : Z) : gmap Z PtrBase :=
  <[50 := mkPtrBase (Some 1000) 1 0]>
    (<[1016 := mkPtrBase None isRootOfFields 1]>
       (<[1024 := mkPtrBase None isRootOfFields 2]> ∅)).

Definition ex_garbage : World :=
  mkWorld [50; 1016; 1024] [] [1000; 2000] 0 0 RootMarking
    (ex_garbage_handles 1) ex_metas ex_classes 0 [].

Definition ex_garbage_sweep : World :=
  mkWorld [50; 1016; 1024] [] [1000; 2000] 0 0 Sweeping
    (ex_garbage_handles 0)
    (<[1000 := mkObjMeta 100 1016 1 Alive]>
       (<[2000 := mkObjMeta 101 2016 1 Unmarked]> ∅))
    ex_classes 0 [].

(** [o] references [m]: a sub-handle of [o], at a learned offset of its
    class, has meta [m]. *)
Definition references (w : World) (o m : addr) : Prop :=
  exists om subs s h,
    metas w !! o = Some om /\ enumPtrs om w = Done subs /\ s ∈ subs /\
    handles w !! s = Some h /\ meta h = Some m.

(** No [Alive] object references an [Unmarked] object, and the work list
    holds exactly the [Gray] objects. *)
Definition tricolor (w : World) : Prop :=
  (forall o m, markOf w o = Some Alive -> references w o m ->
               markOf w m <> Some Unmarked) /\
  (forall m, m ∈ grayObjs w <-> markOf w m = Some Gray).










(** ** [~Collector] *)



(** ** More vocabulary *)



(** What a call leaves of a meta that survives it: everything but the
    mark. *)
Definition metas_kept (w w' : World) : Prop :=
  forall m o', metas w' !! m = Some o' ->
    exists o, metas w !! m = Some o /\ clsInfo o' = clsInfo o /\
              objPtr o' = objPtr o /\ arrayLength o' = arrayLength o.


(** The pointee of every registered handle is null or a live meta. *)
Definition pointees_live (w : World) : Prop :=
  forall p h m, p ∈ pointers w -> handles w !! p = Some h ->
                meta h = Some m -> is_Some (metas w !! m).

(** The pointee of the handle at [p]. *)
Definition pointee (w : World) (p : addr) : option addr :=
  h ← handles w !! p; meta h.

(** The payload of [x] overlaps the range [[lo, hi)]. *)
Definition overlaps (w : World) (x : addr) (lo hi : Z) : Prop :=
  exists lx hx, rangeOf w x lx hx /\ lx < hi /\ lo < hx.


(** The chain heap with a third allocation [C] (meta at 3000, payload
    [[1500, 1508)]) that is not yet in the set. *)
Definition ex_before_addObj : World :=
  mkWorld [50; 1016; 1024] [] [1000; 2000] 0 0 RootMarking
    ex_handles (<[3000 := mkObjMeta 101 1500 1 Unmarked]> ex_metas)
    ex_classes 0 [].

(** ** The collector running alone *)



(** The pointee of every root handle the root-marking loop has passed is
    marked. *)
Definition roots_marked_upto (k : nat) (w : World) : Prop :=
  forall i p h m, (i < k)%nat -> pointers w !! i = Some p ->
    handles w !! p = Some h -> isRoot h = 1 -> meta h = Some m ->
    markOf w m <> Some Unmarked.










(** How far the scan of the registry has come: the handles before this
    index have been passed by the root-marking loop of the current
    cycle. *)
Definition scanned (w : World) : nat :=
  match state w with
  | RootMarking => nextRootMarking w
  | ChildMarking => length (pointers w)
  | Sweeping => 0
  end.




End Tgc.

Module GcPtr.

(** ** Data model (namespace [gc], files [gcptr.h] and [gcptr.cpp]) *)

Inductive MarkColor := White | Gray | Black.
Inductive State := Idle | Marking | Sweeping.

#[global] Instance MarkColor_eq_dec : EqDecision MarkColor.
Proof. solve_decision. Defined.
#[global] Instance State_eq_dec : EqDecision State.
Proof. solve_decision. Defined.

(** [struct ClassInfo]; [dctor] is null or a destructor thunk. *)
Record ClassInfo := mkClassInfo {
  dctor : bool;
  size : Z;
  memPtrOffsets : list Z;
}.

(** [struct ObjInfo]. *)
Record ObjInfo := mkObjInfo {
  obj : addr;
  clsInfo : addr;
  color : MarkColor;
}.

(** The field [PointerBase::owner]: the marker [kInvalidObjInfo] until the
    owner has been looked up, then the owner or null. *)
Inductive Owner :=
| kInvalidObjInfo
| OwnerIs (o : option addr).

(** [gc_ptr<T>]: the two fields of [PointerBase] and the field [ptr];
    the null pointer [T*] is 0. *)
Record gc_ptr := mk_gc_ptr {
  owner : Owner;
  objInfo : option addr;
  ptr : addr;
}.

(** [struct GC] and the memory it works on.  [objInfoSet] is the
    [std::set] as the sequence of its elements in the order of
    [ObjInfo::Less]; the head of [grayObjs] is [grayObjs.back()];
    [pointerUpdates] records the calls of [PointerBase::onPointerUpdate] in
    order. *)
Record GC := mkGC {
  pointers : list addr;
  objInfoSet : list addr;
  grayObjs : list addr;
  state : State;
  handles : gmap Z gc_ptr;
  infos : gmap Z ObjInfo;
  classes : gmap Z ClassInfo;
  pointerUpdates : list addr;
}.

Definition set_grayObjs (v : list addr) (g : GC) : GC :=
  mkGC (pointers g) (objInfoSet g) v (state g) (handles g) (infos g)
    (classes g) (pointerUpdates g).
Definition set_handles (v : gmap Z gc_ptr) (g : GC) : GC :=
  mkGC (pointers g) (objInfoSet g) (grayObjs g) (state g) v (infos g)
    (classes g) (pointerUpdates g).
Definition set_infos (v : gmap Z ObjInfo) (g : GC) : GC :=
  mkGC (pointers g) (objInfoSet g) (grayObjs g) (state g) (handles g) v
    (classes g) (pointerUpdates g).
Definition set_classes (v : gmap Z ClassInfo) (g : GC) : GC :=
  mkGC (pointers g) (objInfoSet g) (grayObjs g) (state g) (handles g)
    (infos g) v (pointerUpdates g).
Definition set_pointerUpdates (v : list addr) (g : GC) : GC :=
  mkGC (pointers g) (objInfoSet g) (grayObjs g) (state g) (handles g)
    (infos g) (classes g) v.

Definition with_owner (o : Owner) (h : gc_ptr) : gc_ptr :=
  mk_gc_ptr o (objInfo h) (ptr h).
Definition with_objInfo (n : option addr) (h : gc_ptr) : gc_ptr :=
  mk_gc_ptr (owner h) n (ptr h).
Definition with_ptr (o : addr) (h : gc_ptr) : gc_ptr :=
  mk_gc_ptr (owner h) (objInfo h) o.
Definition with_color (c : MarkColor) (i : ObjInfo) : ObjInfo :=
  mkObjInfo (obj i) (clsInfo i) c.
Definition with_memPtrOffsets (l : list Z) (ci : ClassInfo) : ClassInfo :=
  mkClassInfo (dctor ci) (size ci) l.

Definition getHandle (p : addr) (g : GC) : Run gc_ptr :=
  deref (handles g !! p).
Definition getInfo (i : addr) (g : GC) : Run ObjInfo :=
  deref (infos g !! i).
Definition getClass (k : addr) (g : GC) : Run ClassInfo :=
  deref (classes g !! k).

(** ** Owner lookup and the write barrier *)

(** [ObjInfo::Less] against the temporary [ObjInfo temp(obj, &clsInfo)]. *)
Definition lessThanTemp (g : GC) (x : ObjInfo) (temp_obj : addr) : Run bool :=
  ci ← getClass (clsInfo x) g;
  mret (obj x + size ci <=? temp_obj).

Definition containsPointer (g : GC) (x : ObjInfo) (p : addr) : Run bool :=
  ci ← getClass (clsInfo x) g;
  mret ((obj x <=? p) && (p <? obj x + size ci)).

Fixpoint lower_bound (g : GC) (l : list addr) (temp_obj : addr) : Run nat :=
  match l with
  | [] => mret 0%nat
  | i :: l' =>
      x ← getInfo i g;
      b ← lessThanTemp g x temp_obj;
      if b : bool then k ← lower_bound g l' temp_obj; mret (S k)
      else mret 0%nat
  end.

Definition findOwnerObjInfo (o : addr) (g : GC) : Run (option addr) :=
  k ← lower_bound g (objInfoSet g) o;
  match objInfoSet g !! k with
  | None => mret None
  | Some i =>
      x ← getInfo i g;
      c ← containsPointer g x o;
      mret (if c : bool then Some i else None)
  end.

(** [GC::isRoot]: the first call looks the owner up, stores it in the
    handle and records the offset of the handle in the owner's class. *)
Definition isRoot (p : addr) (g : GC) : Run (bool * GC) :=
  h ← getHandle p g;
  match owner h with
  | kInvalidObjInfo =>
      o ← findOwnerObjInfo p g;
      let g1 := set_handles (<[p := with_owner (OwnerIs o) h]> (handles g)) g in
      match o with
      | Some ow =>
          x ← getInfo ow g1;
          ci ← getClass (clsInfo x) g1;
          let offset := p - obj x in
          if decide (offset ∈ memPtrOffsets ci) then mret (false, g1)
          else
            mret (false,
                  set_classes
                    (<[clsInfo x :=
                         with_memPtrOffsets (memPtrOffsets ci ++ [offset]) ci]>
                       (classes g1)) g1)
      | None => mret (true, g1)
      end
  | OwnerIs o => mret (bool_decide (o = None), g)
  end.

Definition markAsRoot (p : addr) (g : GC) : Run GC :=
  h ← getHandle p g;
  match objInfo h with
  | None => mret g
  | Some i =>
      '(root, g1) ← isRoot p g;
      if root : bool then
        x ← getInfo i g1;
        if decide (color x = White) then
          mret (set_grayObjs (i :: grayObjs g1)
                  (set_infos (<[i := with_color Gray x]> (infos g1)) g1))
        else mret g1
      else mret g1
  end.

(** [GC::onPointerUpdate] *)
Definition GC_onPointerUpdate (p : addr) (g : GC) : Run GC :=
  if decide (state g = Marking) then markAsRoot p g else mret g.

(** [PointerBase::onPointerUpdate] *)
Definition onPointerUpdate (p : addr) (g : GC) : Run GC :=
  GC_onPointerUpdate p
    (set_pointerUpdates (pointerUpdates g ++ [p]) g).

(** [for (auto memPtrOffset : objInfo->clsInfo->memPtrOffsets)] in
    [case State::Marking] of [GC::collect]: the color is read through
    [mp->objInfo] without a test for null. *)
Fixpoint pushMembers (offsets : list Z) (o : addr) (g : GC) : Run GC :=
  match offsets with
  | [] => mret g
  | memPtrOffset :: offsets' =>
      mp ← getHandle (o + memPtrOffset) g;
      i ← deref (objInfo mp);
      x ← getInfo i g;
      if decide (color x = White) then
        pushMembers offsets' o (set_grayObjs (i :: grayObjs g) g)
      else pushMembers offsets' o g
  end.

(** Body of [while (grayObjs.size() && stepCnt--)]: [i] is
    [grayObjs.back()] and [rest] the vector after [pop_back]. *)
Definition markingBody (i : addr) (rest : list addr) (g : GC) : Run GC :=
  x ← getInfo i g;
  let g1 := set_grayObjs rest
              (set_infos (<[i := with_color Black x]> (infos g)) g) in
  ci ← getClass (clsInfo x) g1;
  pushMembers (memPtrOffsets ci) (obj x) g1.

(** ** [gc_ptr] *)

(** [void reset(T* o, ObjInfo* n) { ptr = o; objInfo = n;
    onPointerUpdate(); }] *)
Definition reset (this : addr) (o : addr) (n : option addr) (g : GC) : Run GC :=
  h ← getHandle this g;
  onPointerUpdate this
    (set_handles (<[this := with_objInfo n (with_ptr o h)]> (handles g)) g).

(** [gc_ptr& operator=(gc_ptr&& r) { reset(r.ptr, r.objInfo);
    r.objInfo = 0; return *this; }] *)
Definition move_assign (this r : addr) (g : GC) : Run GC :=
  hr ← getHandle r g;
  g1 ← reset this (ptr hr) (objInfo hr) g;
  hr1 ← getHandle r g1;
  mret (set_handles (<[r := with_objInfo None hr1]> (handles g1)) g1).

(** [gc_ptr& operator=(const gc_ptr& r) { reset(r.ptr, r.objInfo);
    return *this; }] *)
Definition copy_assign (this r : addr) (g : GC) : Run GC :=
  hr ← getHandle r g;
  reset this (ptr hr) (objInfo hr) g.

(** [explicit operator bool() const { return ptr != 0; }] *)
Definition operator_bool (h : gc_ptr) : bool := negb (ptr h =? 0).

(** [bool operator==(const gc_ptr& r) const
    { return objInfo == r.objInfo; }] *)
Definition operator_eq (h r : gc_ptr) : bool :=
  bool_decide (objInfo h = objInfo r).

(** [gc_ptr() : ptr(0) { }] with [PointerBase() : objInfo(0),
    owner(kInvalidObjInfo)]: the null handle. *)
Definition null_gc_ptr : gc_ptr := mk_gc_ptr kInvalidObjInfo None 0.

(** A collector in state [Marking] with one allocation (info at 2000,
    payload [[2016, 2024)]), a handle at 20 that points to it and a null
    handle at 10. *)
Definition ex_gc : GC :=
  mkGC [10; 20] [2000] [] Marking
    (<[10 := null_gc_ptr]>
       (<[20 := mk_gc_ptr kInvalidObjInfo (Some 2000) 2016]> ∅))
    (<[2000 := mkObjInfo 2016 101 White]> ∅)
    (<[101 := mkClassInfo true 8 []]> ∅)
    [].

(** A collector in state [Marking] whose gray object (info at 1000, payload
    at 1016) has one member handle, at offset 0, which is null. *)
Definition ex_gc_null_member : GC :=
  mkGC [1016] [1000] [1000] Marking
    (<[1016 := mk_gc_ptr (OwnerIs (Some 1000)) None 0]> ∅)
    (<[1000 := mkObjInfo 1016 100 Gray]> ∅)
    (<[100 := mkClassInfo true 8 [0]]> ∅)
    [].

(** ** [GC::collect] *)

Definition set_pointers (v : list addr) (g : GC) : GC :=
  mkGC v (objInfoSet g) (grayObjs g) (state g) (handles g) (infos g)
    (classes g) (pointerUpdates g).
Definition set_objInfoSet (v : list addr) (g : GC) : GC :=
  mkGC (pointers g) v (grayObjs g) (state g) (handles g) (infos g)
    (classes g) (pointerUpdates g).
Definition set_state (v : State) (g : GC) : GC :=
  mkGC (pointers g) (objInfoSet g) (grayObjs g) v (handles g) (infos g)
    (classes g) (pointerUpdates g).

(** [for (auto i : pointers) markAsRoot(i);]  The iteration order of the
    [std::unordered_set] is unspecified: [pointers] lists the handles in
    the order of the iteration. *)
Fixpoint markRoots (ps : list addr) (g : GC) : Run GC :=
  match ps with
  | [] => mret g
  | p :: ps' => g1 ← markAsRoot p g; markRoots ps' g1
  end.

(** [while (grayObjs.size() && stepCnt--)]: the loop goes on while the work
    list is not empty and [stepCnt] is not zero, so a negative [stepCnt]
    sets no bound (short of the overflow of the [int]); [fuel] bounds the
    iterations of the model. *)
Fixpoint markingLoop (fuel : nat) (stepCnt : Z) (g : GC) : Run GC :=
  match grayObjs g with
  | [] => mret g
  | i :: rest =>
      if stepCnt =? 0 then mret g
      else
        match fuel with
        | O => OutOfFuel
        | S fuel' =>
            g1 ← markingBody i rest g;
            markingLoop fuel' (stepCnt - 1) g1
        end
  end.

(** [for (auto i = objInfoSet.begin(); i != objInfoSet.end();)] in
    [case State::Sweeping]: [pos] is the iterator, [sweptCnt] the counter,
    and [dctors] the payloads the destructor thunk was called on, in order
    ([delete obj] runs [~ObjInfo], which calls [clsInfo->dctor(obj)] when
    the thunk is not null).  What the thunk of a user type does besides
    (such as destroying the handles embedded in the payload) is code of the
    application and has no counterpart here. *)
Fixpoint sweepLoop (fuel : nat) (pos : nat) (sweptCnt : Z)
  (dctors : list addr) (g : GC) : Run (Z * list addr * GC) :=
  match objInfoSet g !! pos with
  | None => mret (sweptCnt, dctors, g)
  | Some i =>
      match fuel with
      | O => OutOfFuel
      | S fuel' =>
          x ← getInfo i g;
          if decide (color x = White) then
            ci ← getClass (clsInfo x) g;
            sweepLoop fuel' pos (sweptCnt + 1)
              (if dctor ci then dctors ++ [obj x] else dctors)
              (set_infos (delete i (infos g))
                 (set_objInfoSet (delete pos (objInfoSet g)) g))
          else
            sweepLoop fuel' (S pos) sweptCnt dctors
              (set_infos (<[i := with_color White x]> (infos g)) g)
      end
  end.

(** [int GC::collect(int stepCnt)]: the result is [sweptCnt], the payloads
    the destructor thunk was called on, and the collector. *)
Definition collect (fuel : nat) (stepCnt : Z) (g : GC)
  : Run (Z * list addr * GC) :=
  match state g with
  | Idle =>
      g1 ← markRoots (pointers g) (set_state Marking g);
      mret (0, [], g1)
  | Marking =>
      g1 ← markingLoop fuel stepCnt g;
      mret (0, [],
            match grayObjs g1 with
            | [] => set_state Sweeping g1
            | _ :: _ => g1
            end)
  | Sweeping =>
      sweepLoop (length (objInfoSet g)) 0 0 [] (set_state Idle g)
  end.

(** ** Construction and destruction of handles *)

(** [pointers.insert(this)] and [pointers.erase(this)] on the
    [std::unordered_set]; where a new element lands in the iteration order
    is unspecified, the model puts it last. *)
Definition pointers_insert (p : addr) (g : GC) : GC :=
  if decide (p ∈ pointers g) then g
  else set_pointers (pointers g ++ [p]) g.

Definition pointers_erase (p : addr) (g : GC) : GC :=
  set_pointers (filter (fun q => q <> p) (pointers g)) g.

(** [gc_ptr() : ptr(0) { }] on top of
    [PointerBase() : objInfo(0), owner(kInvalidObjInfo)]. *)
Definition gc_ptr_ctor (this : addr) (g : GC) : GC :=
  pointers_insert this
    (set_handles (<[this := null_gc_ptr]> (handles g)) g).

(** [explicit gc_ptr(T* obj) : PointerBase(obj), ptr(obj) { }] with
    [PointerBase(void* obj) : owner(kInvalidObjInfo),
    objInfo(findOwnerObjInfo(obj))]. *)
Definition gc_ptr_ctor_raw (this o : addr) (g : GC) : Run GC :=
  n ← findOwnerObjInfo o g;
  mret (pointers_insert this
          (set_handles (<[this := mk_gc_ptr kInvalidObjInfo n o]> (handles g))
             g)).

(** [~PointerBase() { getGC()->pointers.erase(this); }] *)
Definition gc_ptr_dtor (this : addr) (g : GC) : GC :=
  set_handles (delete this (handles g)) (pointers_erase this g).

(** [gc_from_this(T* t) { return gc_ptr<T>(t); }] *)
Definition gc_from_this (res t : addr) (g : GC) : Run GC :=
  gc_ptr_ctor_raw res t g.

(** ** More operations of [gc_ptr] *)

(** [void swap(gc_ptr& r) { T* temp = ptr; ObjInfo* tinfo = objInfo;
    reset(r.ptr, r.objInfo); r.reset(temp, tinfo); }] *)
Definition swap (this r : addr) (g : GC) : Run GC :=
  ht ← getHandle this g;
  hr ← getHandle r g;
  g1 ← reset this (ptr hr) (objInfo hr) g;
  reset r (ptr ht) (objInfo ht) g1.

(** [void reset(T* o) { gc_ptr(o).swap( *this ); }]; [tmp] is the address of
    the temporary. *)
Definition reset_raw (tmp this o : addr) (g : GC) : Run GC :=
  g1 ← gc_ptr_ctor_raw tmp o g;
  g2 ← swap tmp this g1;
  mret (gc_ptr_dtor tmp g2).

(** [gc_ptr& operator=(decltype(nullptr)) { return *this = gc_ptr(); }];
    [tmp] is the address of the temporary, which is moved from. *)
Definition assign_nullptr (tmp this : addr) (g : GC) : Run GC :=
  g1 ← move_assign this tmp (gc_ptr_ctor tmp g);
  mret (gc_ptr_dtor tmp g1).

(** ** Vocabulary of the properties *)






(** The payload of the info [i] contains the address [p]. *)
Definition contains (g : GC) (i : addr) (p : addr) : Prop :=
  exists x ci, infos g !! i = Some x /\ classes g !! clsInfo x = Some ci /\
               obj x <= p < obj x + size ci.


(** The same collector in state [Marking], before the first marking step:
    the info at 1000 is [Gray] and on the work list. *)
Definition ex_gc_marking : GC :=
  mkGC [10; 1016] [1000; 2000] [1000] Marking
    (<[10 := mk_gc_ptr (OwnerIs None) (Some 1000) 1016]>
       (<[1016 := mk_gc_ptr (OwnerIs (Some 1000)) (Some 2000) 2016]> ∅))
    (<[1000 := mkObjInfo 1016 100 Gray]>
       (<[2000 := mkObjInfo 2016 101 White]> ∅))
    (<[100 := mkClassInfo true 8 [0]]> (<[101 := mkClassInfo true 8 []]> ∅))
    [].

(** The info [i] is live and not [White]. *)
Definition colored (g : GC) (i : addr) : Prop :=
  exists x, infos g !! i = Some x /\ color x <> White.

(** The handle at [p], if it has a pointee, had its owner looked up, and
    if it is a root (the owner is null) the pointee is colored. *)
Definition root_colored (g : GC) (p : addr) : Prop :=
  forall h i, handles g !! p = Some h -> objInfo h = Some i ->
              exists o, owner h = OwnerIs o /\ (o = None -> colored g i).

(** A collector in state [Idle] with the two allocations, both [White],
    and handles whose owner has not been looked up yet. *)
Definition ex_gc_idle : GC :=
  mkGC [10; 1016] [1000; 2000] [] Idle
    (<[10 := mk_gc_ptr kInvalidObjInfo (Some 1000) 1016]>
       (<[1016 := mk_gc_ptr kInvalidObjInfo (Some 2000) 2016]> ∅))
    (<[1000 := mkObjInfo 1016 100 White]>
       (<[2000 := mkObjInfo 2016 101 White]> ∅))
    (<[100 := mkClassInfo true 8 []]> (<[101 := mkClassInfo true 8 []]> ∅))
    [].

(** ** What marking leaves unchanged *)

(** The registry, the set, the state and the payload and class of every
    info are the same; only colors may differ. *)
Definition marking_keeps (g g' : GC) : Prop :=
  pointers g' = pointers g /\ objInfoSet g' = objInfoSet g /\
  state g' = state g /\
  forall i, option_Forall2
              (fun x x' => obj x' = obj x /\ clsInfo x' = clsInfo x)
              (infos g !! i) (infos g' !! i).

End GcPtr.

(** * Properties *)

(** ** Outcomes *)

Lemma run_bind_done {A B} (m : Run A) (f : A -> Run B) (b : B) :
  m ≫= f = Done b -> exists a, m = Done a /\ f a = Done b.
Proof. destruct m; simpl; intros H; try discriminate; eauto. Qed.

Lemma deref_done {A} (o : option A) (a : A) : deref o = Done a -> o = Some a.
Proof. destruct o; simpl; congruence. Qed.

Ltac run_inv :=
  repeat match goal with
  | H : Done _ = Done _ |- _ => injection H as H; try subst
  | H : Fault = Done _ |- _ => discriminate H
  | H : OutOfFuel = Done _ |- _ => discriminate H
  | H : mret _ = Done _ |- _ => injection H as H; try subst
  | H : deref _ = Done _ |- _ => apply deref_done in H
  | H : _ ≫= _ = Done _ |- _ =>
      let a := fresh "a" in
      let Ha := fresh "Hrun" in
      apply run_bind_done in H; destruct H as (a & Ha & H)
  end.

Module TgcTheory.
Import Tgc.

(** ** Learned offsets of a class *)

Lemma strictly_increasing_snoc (l : list Z) (x back : Z) :
  strictly_increasing l -> last l = Some back -> back < x ->
  strictly_increasing (l ++ [x]).
Proof.
  unfold strictly_increasing. induction l as [|a l IH]; intros Hs Hl Hx.
  - discriminate.
  - apply StronglySorted_inv in Hs as [Hs Ha].
    destruct l as [|b l].
    + simpl in Hl. injection Hl as ->. simpl.
      repeat constructor. exact Hx.
    + simpl. constructor.
      * apply IH; auto.
      * rewrite Forall_forall in Ha. apply Forall_forall.
        intros y Hy. change (b :: l ++ [x]) with ((b :: l) ++ [x]) in Hy.
        apply elem_of_app in Hy as [Hy|Hy]; [auto|].
        apply list_elem_of_singleton in Hy as ->.
        assert (Hb : a < back) by (apply Ha; eapply last_Some_elem_of, Hl).
        lia.
Qed.

Lemma registerSubPtr_cases (ci : ClassInfo) (owner : ObjMeta) (p : addr) :
  registerSubPtr ci owner p = ci \/
  (regState ci <> Registered /\
   registerSubPtr ci owner p =
     with_subPtrOffsets (subPtrOffsets ci ++ [to_short (p - objPtr owner)]) ci /\
   forall back, last (subPtrOffsets ci) = Some back ->
                back < to_short (p - objPtr owner)).
Proof.
  unfold registerSubPtr. destruct (decide (regState ci = Registered)); [auto|].
  destruct (last (subPtrOffsets ci)) as [back|] eqn:Hl.
  - destruct (Z.leb_spec (to_short (p - objPtr owner)) back); [auto|].
    right. repeat split; auto. intros b [= <-]. lia.
  - right. repeat split; auto. discriminate.
Qed.

Lemma registerSubPtr_increasing (ci : ClassInfo) (owner : ObjMeta) (p : addr) :
  strictly_increasing (subPtrOffsets ci) ->
  strictly_increasing (subPtrOffsets (registerSubPtr ci owner p)).
Proof.
  intros Hs. destruct (registerSubPtr_cases ci owner p) as [->|(_ & -> & Hb)];
    [exact Hs|].
  simpl. destruct (last (subPtrOffsets ci)) as [back|] eqn:Hl.
  - eapply strictly_increasing_snoc; eauto.
  - apply last_None in Hl. rewrite Hl. repeat constructor.
Qed.

Lemma registerSubPtr_regState (ci : ClassInfo) (owner : ObjMeta) (p : addr) :
  regState (registerSubPtr ci owner p) = regState ci.
Proof.
  destruct (registerSubPtr_cases ci owner p) as [->|(_ & -> & _)]; reflexivity.
Qed.

Lemma registerSubPtr_frozen (ci : ClassInfo) (owner : ObjMeta) (p : addr) :
  regState ci = Registered -> registerSubPtr ci owner p = ci.
Proof.
  intros H. unfold registerSubPtr. rewrite decide_True by exact H. reflexivity.
Qed.

(** C8. For every class descriptor and every series of calls of
    [registerSubPtr] on it: the offsets before the calls are a prefix of the
    offsets after them (the sequence is only appended to); when the sequence
    was strictly increasing before (as the empty sequence of a fresh class
    is), it is strictly increasing after every call; and once the descriptor
    is [Registered] the calls leave it unchanged. *)
Theorem registerSubPtr_append_only_increasing_frozen
  (ci : ClassInfo) (calls : list (ObjMeta * addr)) :
  strictly_increasing (subPtrOffsets ci) ->
  (exists appended,
      subPtrOffsets (registerSubPtrs ci calls)
      = subPtrOffsets ci ++ appended) /\
  strictly_increasing (subPtrOffsets (registerSubPtrs ci calls)) /\
  (regState ci = Registered -> registerSubPtrs ci calls = ci).
Proof.
  revert ci. induction calls as [|[owner p] calls IH]; intros ci Hs.
  - simpl. split; [exists []; symmetry; apply app_nil_r|]. auto.
  - change (registerSubPtrs ci ((owner, p) :: calls))
      with (registerSubPtrs (registerSubPtr ci owner p) calls).
    destruct (IH (registerSubPtr ci owner p)) as ((tl & Htl) & Hinc & Hfrozen).
    { apply registerSubPtr_increasing, Hs. }
    split; [|split].
    + destruct (registerSubPtr_cases ci owner p) as [Heq|(_ & Heq & _)].
      * exists tl. rewrite Htl, Heq. reflexivity.
      * exists (to_short (p - objPtr owner) :: tl).
        rewrite Htl, Heq. simpl. rewrite <- app_assoc. reflexivity.
    + exact Hinc.
    + intros Hreg.
      rewrite (registerSubPtr_frozen ci owner p Hreg) in *. auto.
Qed.

Lemma registerSubPtr_append_only_increasing_frozen_witness :
  let ci := mkClassInfo 24 [] Registering in
  let o := mkObjMeta 100 1016 1 Unmarked in
  subPtrOffsets (registerSubPtrs ci [(o, 1016); (o, 1024); (o, 1016); (o, 1032)])
  = [0; 8; 16] /\
  strictly_increasing
    (subPtrOffsets
       (registerSubPtrs ci [(o, 1016); (o, 1024); (o, 1016); (o, 1032)])).
Proof.
  split; [reflexivity|].
  apply (registerSubPtr_append_only_increasing_frozen
           (mkClassInfo 24 [] Registering)
           [(mkObjMeta 100 1016 1 Unmarked, 1016);
            (mkObjMeta 100 1016 1 Unmarked, 1024);
            (mkObjMeta 100 1016 1 Unmarked, 1016);
            (mkObjMeta 100 1016 1 Unmarked, 1032)]).
  simpl. constructor.
Defined.

(** ** Owner lookup *)

Lemma rangeOf_fun w m lo hi lo' hi' :
  rangeOf w m lo hi -> rangeOf w m lo' hi' -> lo = lo' /\ hi = hi'.
Proof.
  intros (o & ci & Ho & Hc & -> & ->) (o' & ci' & Ho' & Hc' & -> & ->).
  rewrite Ho in Ho'. injection Ho' as <-. rewrite Hc in Hc'.
  injection Hc' as <-. auto.
Qed.

Lemma metaLess_dummy w m o lo hi obj :
  metas w !! m = Some o -> rangeOf w m lo hi ->
  metaLess w o (DummyMetaInfo obj) = Done (hi <=? obj).
Proof.
  intros Ho (o' & ci & Ho' & Hc & -> & ->).
  rewrite Ho in Ho'. injection Ho' as <-.
  unfold metaLess, payloadEnd, getClass. rewrite Hc. reflexivity.
Qed.

Lemma containsPtr_range w m o lo hi obj :
  metas w !! m = Some o -> rangeOf w m lo hi ->
  containsPtr w o obj = Done ((lo <=? obj) && (obj <? hi)).
Proof.
  intros Ho (o' & ci & Ho' & Hc & -> & ->).
  rewrite Ho in Ho'. injection Ho' as <-.
  unfold containsPtr, payloadEnd, getClass. rewrite Hc. reflexivity.
Qed.

(** The lower bound splits a sorted sequence: the payloads before it end at
    or below [obj], the payload at it (when there is one) ends above. *)
Lemma lower_bound_split w l obj :
  (forall m, m ∈ l -> exists lo hi, rangeOf w m lo hi) ->
  exists i,
    lower_bound w l (DummyMetaInfo obj) = Done i /\
    (i <= length l)%nat /\
    (forall j m lo hi, (j < i)%nat -> l !! j = Some m -> rangeOf w m lo hi ->
                       hi <= obj) /\
    (forall m lo hi, l !! i = Some m -> rangeOf w m lo hi -> obj < hi).
Proof.
  induction l as [|m l IH]; intros Hv.
  - exists 0%nat. simpl. repeat split; auto; intros; try lia; discriminate.
  - destruct (Hv m) as (lo & hi & Hr); [left|].
    destruct IH as (i & Hi & Hlen & Hbefore & Hat).
    { intros m' Hm'. apply Hv. right. exact Hm'. }
    pose proof Hr as (o & ci & Ho & Hc & -> & ->).
    cbn [lower_bound]. unfold getMeta. rewrite Ho. cbn [deref mbind Run_bind].
    rewrite (metaLess_dummy w m o _ _ obj Ho Hr). cbn [mbind Run_bind].
    destruct (Z.leb_spec (objPtr o + size ci) obj) as [Hle|Hgt].
    + exists (S i). rewrite Hi. cbn. repeat split.
      * lia.
      * intros [|j] m' lo' hi' Hj Hl Hr'.
        -- injection Hl as <-.
           destruct (rangeOf_fun _ _ _ _ _ _ Hr Hr') as [_ <-]. exact Hle.
        -- eapply Hbefore; eauto. lia.
      * intros m' lo' hi' Hl Hr'. eapply Hat; eauto.
    + exists 0%nat. repeat split.
      * simpl. lia.
      * intros; lia.
      * intros m' lo' hi' [= <-] Hr'.
        destruct (rangeOf_fun _ _ _ _ _ _ Hr Hr') as [_ <-]. exact Hgt.
Qed.

Lemma sorted_lookup_ordered w (l : list addr) i j x y :
  StronglySorted (ordered_before w) l -> (i < j)%nat ->
  l !! i = Some x -> l !! j = Some y -> ordered_before w x y.
Proof.
  intros Hs. revert i j. induction Hs as [|a l Hs IH Ha]; intros i j Hij Hi Hj.
  - discriminate.
  - destruct j as [|j]; [lia|]. destruct i as [|i].
    + injection Hi as <-. rewrite Forall_forall in Ha. apply Ha.
      eapply list_elem_of_lookup_2, Hj.
    + eapply (IH i j); eauto. lia.
Qed.

(** C3. For every address and every set of metas kept in the order of the
    comparator (so that the payload ranges do not overlap), [findOwnerMeta]
    returns the meta of the set whose payload range contains the address,
    which is the only such meta, and returns null when no meta of the set
    contains the address, also when the lower bound is the end of the
    set. *)
Theorem findOwnerMeta_unique_owner (obj : addr) (w : World) :
  metaSet_valid w -> metaSet_sorted w ->
  exists r,
    findOwnerMeta obj w = Done r /\
    match r with
    | Some m =>
        m ∈ metaSet w /\ owns w m obj /\
        forall m', m' ∈ metaSet w -> owns w m' obj -> m' = m
    | None => forall m', m' ∈ metaSet w -> ~ owns w m' obj
    end.
Proof.
  intros Hv Hs.
  destruct (lower_bound_split w (metaSet w) obj Hv)
    as (i & Hi & Hlen & Hbefore & Hat).
  (* an owner can only sit at the lower bound *)
  assert (Honly : forall j m', metaSet w !! j = Some m' -> owns w m' obj ->
                               j = i).
  { intros j m' Hj (lo & hi & Hr & Hlo & Hhi).
    destruct (lt_eq_lt_dec j i) as [[Hlt|Heq]|Hgt]; [|exact Heq|].
    - specialize (Hbefore j m' lo hi Hlt Hj Hr). lia.
    - destruct (metaSet w !! i) as [m|] eqn:Hmi.
      + destruct (sorted_lookup_ordered w _ i j m m' Hs Hgt Hmi Hj)
          as (lx & hx & ly & hy & Hrx & Hry & Hxy).
        destruct (rangeOf_fun _ _ _ _ _ _ Hr Hry) as [<- <-].
        specialize (Hat m lx hx eq_refl Hrx). lia.
      + apply lookup_ge_None in Hmi. apply lookup_lt_Some in Hj. lia. }
  unfold findOwnerMeta. rewrite Hi. cbn [mbind Run_bind].
  destruct (metaSet w !! i) as [m|] eqn:Hmi.
  - destruct (Hv m) as (lo & hi & Hr); [eapply list_elem_of_lookup_2, Hmi|].
    pose proof Hr as (o & ci & Ho & Hc & Hlo & Hhi).
    unfold getMeta. rewrite Ho. cbn [deref mbind Run_bind].
    rewrite (containsPtr_range w m o lo hi obj Ho Hr). cbn [mbind Run_bind].
    destruct ((lo <=? obj) && (obj <? hi)) eqn:Hc'.
    + exists (Some m). split; [reflexivity|].
      apply andb_prop in Hc' as [H1 H2].
      apply Z.leb_le in H1. apply Z.ltb_lt in H2.
      split; [eapply list_elem_of_lookup_2, Hmi|].
      split; [exists lo, hi; auto|].
      intros m' Hm' Hown. apply list_elem_of_lookup_1 in Hm' as [j Hj].
      rewrite (Honly j m' Hj Hown) in Hj. congruence.
    + exists None. split; [reflexivity|].
      intros m' Hm' Hown. apply list_elem_of_lookup_1 in Hm' as [j Hj].
      rewrite (Honly j m' Hj Hown) in Hj. rewrite Hmi in Hj.
      injection Hj as <-. destruct Hown as (lo' & hi' & Hr' & H1 & H2).
      destruct (rangeOf_fun _ _ _ _ _ _ Hr Hr') as [<- <-].
      apply andb_false_iff in Hc' as [Hc'|Hc'];
        [apply Z.leb_gt in Hc'|apply Z.ltb_ge in Hc']; lia.
  - exists None. split; [reflexivity|].
    intros m' Hm' Hown. apply list_elem_of_lookup_1 in Hm' as [j Hj].
    rewrite (Honly j m' Hj Hown) in Hj. congruence.
Qed.

Lemma ex_chain_valid : metaSet_valid ex_chain.
Proof.
  intros m Hm. simpl in Hm.
  apply elem_of_cons in Hm as [->|Hm];
    [|apply elem_of_cons in Hm as [->|Hm]; [|inversion Hm]].
  - exists 1016, 1032. eexists _, _. repeat split; reflexivity.
  - exists 2016, 2024. eexists _, _. repeat split; reflexivity.
Defined.

Lemma ex_chain_sorted : metaSet_sorted ex_chain.
Proof.
  unfold metaSet_sorted. simpl. repeat constructor.
  exists 1016, 1032, 2016, 2024. repeat split.
  - eexists _, _. repeat split; reflexivity.
  - eexists _, _. repeat split; reflexivity.
  - lia.
Defined.

Lemma findOwnerMeta_unique_owner_witness :
  findOwnerMeta 1020 ex_chain = Done (Some 1000) /\
  findOwnerMeta 1032 ex_chain = Done None /\
  exists r,
    findOwnerMeta 2023 ex_chain = Done r /\
    match r with
    | Some m =>
        m ∈ metaSet ex_chain /\ owns ex_chain m 2023 /\
        forall m', m' ∈ metaSet ex_chain -> owns ex_chain m' 2023 -> m' = m
    | None => forall m', m' ∈ metaSet ex_chain -> ~ owns ex_chain m' 2023
    end.
Proof.
  split; [reflexivity|]. split; [reflexivity|].
  exact (findOwnerMeta_unique_owner 2023 ex_chain ex_chain_valid ex_chain_sorted).
Defined.

(** ** Write barrier during the sweep *)

Lemma metaLess_range w x ox lx hx y oy ly hy :
  metas w !! x = Some ox -> rangeOf w x lx hx ->
  metas w !! y = Some oy -> rangeOf w y ly hy ->
  metaLess w ox oy = Done (hx <=? ly).
Proof.
  intros Hx (ox' & cx & Hx' & Hcx & -> & ->) Hy (oy' & cy & Hy' & Hcy & -> & ->).
  rewrite Hx in Hx'. injection Hx' as <-.
  rewrite Hy in Hy'. injection Hy' as <-.
  unfold metaLess, payloadEnd, getClass. rewrite Hcx. reflexivity.
Qed.




(** ** One unit of child marking *)

Lemma pushChildren_spec (subs : list addr) (stepCnt : Z) (w : World) :
  Forall (scannable w) subs ->
  pushChildren subs stepCnt w =
    Done (set_grayObjs (rev (omap (childToPush w) subs) ++ grayObjs w) w,
          stepCnt - Z.of_nat (length subs)).
Proof.
  revert stepCnt w. induction subs as [|ptr subs IH]; intros n w Hsc.
  - simpl. destruct w; unfold set_grayObjs; simpl. do 3 f_equal. lia.
  - apply Forall_cons in Hsc as [(h & Hh & Hm) Hsc].
    cbn [pushChildren]. unfold getHandle. rewrite Hh.
    cbn [deref mbind Run_bind].
    change (omap (childToPush w) (ptr :: subs))
      with (match childToPush w ptr with
            | Some m => m :: omap (childToPush w) subs
            | None => omap (childToPush w) subs
            end).
    unfold childToPush at 1. rewrite Hh.
    destruct (meta h) as [m|] eqn:Hmeta.
    + destruct (Hm m eq_refl) as [o Ho]. unfold getMeta. rewrite Ho.
      cbn [deref mbind Run_bind].
      destruct (decide (markState o = Unmarked)).
      * rewrite IH by exact Hsc.
        change (childToPush (set_grayObjs (m :: grayObjs w) w))
          with (childToPush w).
        cbn [rev length]. rewrite <- app_assoc. cbn [app].
        unfold set_grayObjs; cbn. do 2 f_equal. lia.
      * rewrite IH by exact Hsc. cbn [length]. do 2 f_equal. lia.
    + rewrite IH by exact Hsc. cbn [length]. do 2 f_equal. lia.
Qed.

(** C7. One unit of child marking pops the gray object [o]: its mark is set
    to [Alive], the sub-handles at the offsets of its class are visited in
    order, and the metas pushed onto [grayObjs] are exactly those of the
    sub-handles whose meta is not null and [Unmarked].  A sub-handle with a
    null meta only has to be a handle: nothing is read through its meta, and
    the unit completes without a fault.  Every sub-handle takes one unit of
    [stepCnt]. *)
Theorem childMarkingBody_pushes_unmarked_children
  (o : addr) (rest : list addr) (stepCnt : Z) (w : World)
  (om : ObjMeta) (ci : ClassInfo) :
  metas w !! o = Some om ->
  classes w !! clsInfo om = Some ci ->
  let w1 := set_metas (<[o := with_markState Alive om]> (metas w))
              (set_grayObjs rest w) in
  let subs := map (fun off => objPtr om + off) (subPtrOffsets ci) in
  Forall (scannable w1) subs ->
  childMarkingBody o rest stepCnt w =
    Done (set_grayObjs (rev (omap (childToPush w1) subs) ++ rest) w1,
          stepCnt - Z.of_nat (length subs)).
Proof.
  intros Ho Hc w1 subs Hsc.
  unfold childMarkingBody, setMark, getMeta. cbn [metas set_grayObjs].
  rewrite Ho. cbn [deref mbind Run_bind mret Run_ret].
  cbn [metas set_metas]. rewrite lookup_insert_eq.
  cbn [deref mbind Run_bind]. unfold enumPtrs, getClass.
  cbn [clsInfo with_markState classes set_metas set_grayObjs].
  rewrite Hc. cbn [deref mbind Run_bind mret Run_ret objPtr].
  exact (pushChildren_spec subs stepCnt w1 Hsc).
Qed.

Lemma ex_marking_reached : collect 3 ex_chain = Done ex_marking.
Proof. vm_compute. reflexivity. Qed.

Lemma childMarkingBody_pushes_unmarked_children_witness :
  exists w', childMarkingBody 1000 [] 0 ex_marking = Done (w', -2) /\
             grayObjs w' = [2000] /\
             metas w' !! 1000 = Some (mkObjMeta 100 1016 1 Alive).
Proof.
  eexists. split.
  - apply (childMarkingBody_pushes_unmarked_children
             1000 [] 0 ex_marking (mkObjMeta 100 1016 1 Gray)
             (mkClassInfo 16 [0; 8] Registered) eq_refl eq_refl).
    repeat constructor.
    + exists (mkPtrBase (Some 2000) 0 1). split; [reflexivity|].
      intros m [= <-]. eexists. reflexivity.
    + exists (mkPtrBase None 0 2). split; [reflexivity|]. discriminate.
  - split; reflexivity.
Defined.

(** ** The registry of handles *)

Lemma registry_inv_inj w i j p :
  registry_inv w -> pointers w !! i = Some p -> pointers w !! j = Some p ->
  i = j.
Proof.
  intros Hinv Hi Hj. destruct (Hinv i p Hi) as (h & Hh & <-).
  destruct (Hinv j p Hj) as (h' & Hh' & <-). congruence.
Qed.

Lemma tryMarkRoot_registry p w w' :
  tryMarkRoot p w = Done w' ->
  pointers w' = pointers w /\ handles w' = handles w.
Proof.
  unfold tryMarkRoot, setMark. intros H. run_inv.
  destruct (decide (isRoot a = 1)); run_inv; [|auto].
  destruct (decide (markState a1 = Unmarked)); run_inv; auto.
Qed.

Lemma registerPtr_registry_inv p w w' :
  registry_inv w -> p ∉ pointers w -> registerPtr p w = Done w' ->
  registry_inv w'.
Proof.
  intros Hinv Hfresh H. unfold registerPtr, getHandle in H. run_inv.
  set (hs1 := <[p := with_index (length (pointers w)) a]> (handles w)) in *.
  assert (Hbase : forall hs2 : gmap Z PtrBase,
             (forall q, q <> p -> hs2 !! q = hs1 !! q) ->
             (exists h, hs2 !! p = Some h /\ index h = length (pointers w)) ->
             forall i q, (pointers w ++ [p]) !! i = Some q ->
                         exists h, hs2 !! q = Some h /\ index h = i).
  { intros hs2 Hother Hp i q Hi.
    apply lookup_app_Some in Hi as [Hi|[Hlen Hi]].
    - assert (q <> p) by (intros ->; apply Hfresh; eapply list_elem_of_lookup_2, Hi).
      rewrite Hother by assumption. unfold hs1.
      rewrite lookup_insert_ne by congruence. apply Hinv, Hi.
    - apply list_lookup_singleton_Some in Hi as [Hi <-].
      replace i with (length (pointers w)) by lia. exact Hp. }
  assert (Hw2 : forall i q, (pointers w ++ [p]) !! i = Some q ->
                            exists h, hs1 !! q = Some h /\ index h = i).
  { apply Hbase; [auto|]. unfold hs1. rewrite lookup_insert_eq. eauto. }
  cbn [isCreatingObj set_pointers set_handles pointers] in H.
  destruct (0 <? isCreatingObj w); run_inv; [|exact Hw2].
  destruct a0 as [owner|]; run_inv; [|exact Hw2].
  unfold getHandle, getMeta, getClass in *. run_inv.
  intros i q Hi. cbn [pointers handles set_classes set_handles set_pointers] in *.
  eapply Hbase; [| |exact Hi].
  - intros q' Hq'. rewrite lookup_insert_ne by congruence. reflexivity.
  - rewrite lookup_insert_eq.
    match goal with Hp : hs1 !! p = Some _ |- _ =>
      unfold hs1 in Hp; rewrite lookup_insert_eq in Hp; injection Hp as <-
    end.
    eauto.
Qed.

Lemma pop_back_lookup {A} (l : list A) (i : nat) :
  pop_back l !! i = if decide (i < length l - 1)%nat then l !! i else None.
Proof.
  unfold pop_back. destruct (decide (i < length l - 1)%nat).
  - apply lookup_take_lt. lia.
  - apply lookup_take_ge. lia.
Qed.

Lemma unregisterPtr_registry_inv p w w' :
  registry_inv w -> unregisterPtr p w = Done w' ->
  registry_inv w' /\ p ∉ pointers w'.
Proof.
  intros Hinv H. unfold unregisterPtr, getHandle in H. run_inv.
  rename a into back. rewrite last_lookup in Hrun.
  assert (Hlen : (0 < length (pointers w))%nat).
  { apply lookup_lt_Some in Hrun. lia. }
  replace (pred (length (pointers w))) with (length (pointers w) - 1)%nat
    in Hrun by lia.
  destruct (decide (p = back)) as [->|Hne]; run_inv.
  - split.
    + intros i q Hi. cbn [pointers handles set_pointers] in *.
      rewrite pop_back_lookup in Hi. case_decide; [|discriminate]. auto.
    + cbn [pointers set_pointers]. intros Hin.
      apply list_elem_of_lookup_1 in Hin as [i Hi].
      rewrite pop_back_lookup in Hi. case_decide; [|discriminate].
      pose proof (registry_inv_inj w _ _ _ Hinv Hi Hrun). lia.
  - rename a into h, a0 into slot, a1 into pointer, a2 into hp.
    assert (Hidx : (index h < length (pointers w))%nat)
      by (eapply lookup_lt_Some, Hrun1).
    assert (Hpointer : pointer = back).
    { destruct (decide (index h = length (pointers w) - 1)%nat) as [He|He].
      - rewrite He in *. rewrite list_lookup_insert_eq in Hrun2
          by (rewrite length_insert; lia).
        congruence.
      - rewrite list_lookup_insert_ne in Hrun2 by lia.
        rewrite list_lookup_insert_eq in Hrun2 by lia. congruence. }
    subst pointer.
    set (w1 := set_pointers _ _) in H.
    assert (Hw1 : registry_inv w1 /\ p ∉ pointers w1).
    { subst w1. split.
      - intros i q Hi. cbn [pointers handles set_pointers set_handles] in *.
        rewrite pop_back_lookup in Hi.
        rewrite !length_insert in Hi. case_decide; [|discriminate].
        rewrite list_lookup_insert_ne in Hi by lia.
        destruct (decide (i = index h)) as [->|Hi'].
        + rewrite list_lookup_insert_eq in Hi by lia. injection Hi as <-.
          rewrite lookup_insert_eq. eauto.
        + rewrite list_lookup_insert_ne in Hi by lia.
          assert (q <> back).
          { intros ->. pose proof (registry_inv_inj w _ _ _ Hinv Hi Hrun). lia. }
          rewrite lookup_insert_ne by congruence. apply Hinv, Hi.
      - intros Hin. cbn [pointers handles set_pointers set_handles] in *.
        apply list_elem_of_lookup_1 in Hin as [i Hi].
        rewrite pop_back_lookup in Hi.
        rewrite !length_insert in Hi. case_decide; [|discriminate].
        rewrite list_lookup_insert_ne in Hi by lia.
        destruct (decide (i = index h)) as [->|Hi'].
        + rewrite list_lookup_insert_eq in Hi by lia. congruence.
        + rewrite list_lookup_insert_ne in Hi by lia.
          destruct (Hinv i p Hi) as (h' & Hh' & Hidx'). congruence. }
    destruct (meta hp); run_inv; [|exact Hw1].
    destruct (decide (state w1 = RootMarking)); run_inv; [|exact Hw1].
    destruct (index h <? nextRootMarking w1)%nat; run_inv; [|exact Hw1].
    apply tryMarkRoot_registry in H as [Hp Hh].
    destruct Hw1 as [Hw1 Hnot]. split.
    + intros i q. rewrite Hp, Hh. apply Hw1.
    + rewrite Hp. exact Hnot.
Qed.

Lemma applyHandleOp_registry_inv op w w' :
  registry_inv w ->
  match op with
  | Construct p | ConstructFrom p _ => p ∉ pointers w
  | Destroy _ => True
  end ->
  applyHandleOp op w = Done w' -> registry_inv w'.
Proof.
  intros Hinv Hfresh H. destruct op as [p|p obj|p]; simpl in H.
  - unfold PtrBase_ctor in H.
    eapply registerPtr_registry_inv; [| |exact H].
    + intros i q Hi. cbn [pointers handles set_handles] in *.
      assert (q <> p) by (intros ->; apply Hfresh; eapply list_elem_of_lookup_2, Hi).
      rewrite lookup_insert_ne by congruence. apply Hinv, Hi.
    + exact Hfresh.
  - unfold PtrBase_ctor_obj, getHandle in H. run_inv.
    assert (Hinv1 : registry_inv a).
    { eapply registerPtr_registry_inv; [| |exact Hrun].
      - intros i q Hi. cbn [pointers handles set_handles] in *.
        assert (q <> p) by (intros ->; apply Hfresh; eapply list_elem_of_lookup_2, Hi).
        rewrite lookup_insert_ne by congruence. apply Hinv, Hi.
      - exact Hfresh. }
    intros i q Hi. cbn [pointers handles set_handles] in *.
    destruct (Hinv1 i q Hi) as (h & Hh & Hidx).
    destruct (decide (q = p)) as [->|Hq].
    + rewrite lookup_insert_eq. rewrite Hh in Hrun1. injection Hrun1 as <-.
      eauto.
    + rewrite lookup_insert_ne by congruence. eauto.
  - unfold PtrBase_dtor in H. run_inv.
    destruct (unregisterPtr_registry_inv p w a Hinv Hrun) as [Hinv1 Hnot].
    intros i q Hi. cbn [pointers handles set_handles] in *.
    assert (q <> p) by (intros ->; apply Hnot; eapply list_elem_of_lookup_2, Hi).
    rewrite lookup_delete_ne by congruence. apply Hinv1, Hi.
Qed.

(** C4. The registry of a fresh collector satisfies
    [pointers[i]->index == i], and from a registry that satisfies it every
    sequence of handle constructions (each at an address where no
    registered handle lives; registration appends with
    [index = pointers.size()]) and handle destructions (swap with the last
    entry, fix the index of the displaced handle, truncate) leads to a
    registry that satisfies it for every valid index. *)
Theorem registry_index_invariant (ops : list HandleOp) (w w' : World) :
  registry_inv w -> constructs_fresh ops w ->
  applyHandleOps ops w = Done w' ->
  registry_inv initial /\ registry_inv w'.
Proof.
  intros Hinv Hfresh Hrun. split; [intros i p Hi; discriminate|].
  revert w Hinv Hfresh Hrun.
  induction ops as [|op ops IH]; intros w Hinv Hfresh Hrun.
  - simpl in Hrun. run_inv. exact Hinv.
  - simpl in Hrun. destruct Hfresh as [Hf Hrest].
    apply run_bind_done in Hrun as (w1 & Hop & Hrun).
    eapply IH; [|apply Hrest, Hop|exact Hrun].
    eapply applyHandleOp_registry_inv; eauto.
Qed.

Lemma registry_index_invariant_witness :
  exists w',
    applyHandleOps
      [Construct 10; Construct 20; Construct 30; Destroy 10; Construct 40;
       Destroy 40; Destroy 30] initial = Done w' /\
    pointers w' = [20] /\
    registry_inv w'.
Proof.
  eexists. split; [vm_compute; reflexivity|]. split; [reflexivity|].
  refine (proj2 (registry_index_invariant
           [Construct 10; Construct 20; Construct 30; Destroy 10; Construct 40;
            Destroy 40; Destroy 30] initial _ _ _ _)).
  - intros i p Hi. discriminate.
  - repeat (cbn [constructs_fresh];
            split;
            [ first [ exact I
                    | let Hin := fresh in
                      intros Hin; cbn in Hin;
                      repeat (apply elem_of_cons in Hin as [Hin|Hin];
                              [discriminate Hin|]);
                      inversion Hin ]
            | let Hw := fresh in
              intros ? Hw; vm_compute in Hw; injection Hw as <- ]).
    exact I.
  - vm_compute. reflexivity.
Defined.

(** ** What the loop bodies leave unchanged *)

Lemma run_bind_assoc {A B C} (m : Run A) (f : A -> Run B) (g : B -> Run C) :
  (m ≫= f) ≫= g = m ≫= (fun a => f a ≫= g).
Proof. destruct m; reflexivity. Qed.

Lemma run_bind_ext {A B} (m : Run A) (f g : A -> Run B) :
  (forall a, m = Done a -> f a = g a) -> m ≫= f = m ≫= g.
Proof. intros H. destruct m; simpl; auto. Qed.

Lemma setMark_frame m c w w' :
  setMark m c w = Done w' ->
  exists o, metas w !! m = Some o /\
            w' = set_metas (<[m := with_markState c o]> (metas w)) w.
Proof. unfold setMark, getMeta. intros H. run_inv. eauto. Qed.

Lemma tryMarkRoot_frame p w w' :
  tryMarkRoot p w = Done w' ->
  pointers w' = pointers w /\ metaSet w' = metaSet w /\
  nextSweeping w' = nextSweeping w /\
  nextRootMarking w' = nextRootMarking w /\ state w' = state w /\
  handles w' = handles w /\ classes w' = classes w /\
  isCreatingObj w' = isCreatingObj w /\ events w' = events w.
Proof.
  unfold tryMarkRoot. intros H. run_inv.
  case_decide; run_inv; [|repeat split].
  case_decide; run_inv; [|repeat split].
  match goal with Hs : setMark _ _ _ = Done _ |- _ =>
    apply setMark_frame in Hs as (o & _ & ->) end.
  repeat split.
Qed.

Lemma clearRoots_frame subs w w' :
  clearRoots subs w = Done w' ->
  pointers w' = pointers w /\ grayObjs w' = grayObjs w /\
  metaSet w' = metaSet w /\ nextSweeping w' = nextSweeping w /\
  nextRootMarking w' = nextRootMarking w /\ state w' = state w /\
  metas w' = metas w /\ classes w' = classes w /\
  isCreatingObj w' = isCreatingObj w /\ events w' = events w.
Proof.
  revert w. induction subs as [|s subs IH]; intros w H; simpl in H; run_inv.
  - repeat split.
  - apply IH in H. exact H.
Qed.

Lemma rootMarkingBody_frame w w' :
  rootMarkingBody w = Done w' ->
  pointers w' = pointers w /\ metaSet w' = metaSet w /\
  nextSweeping w' = nextSweeping w /\
  nextRootMarking w' = nextRootMarking w /\ state w' = state w /\
  classes w' = classes w /\ isCreatingObj w' = isCreatingObj w /\
  events w' = events w.
Proof.
  unfold rootMarkingBody. intros H. run_inv.
  match goal with Hm : context [meta ?h] |- _ => destruct (meta h) end;
    run_inv; [|repeat split].
  apply tryMarkRoot_frame in H as (-> & -> & -> & -> & -> & _ & -> & -> & ->).
  match goal with Hc : clearRoots _ _ = Done _ |- _ =>
    apply clearRoots_frame in Hc
      as (-> & _ & -> & -> & -> & -> & _ & -> & -> & ->) end.
  repeat split.
Qed.

Lemma pushChildren_frame subs n w w' n' :
  pushChildren subs n w = Done (w', n') ->
  n' = n - Z.of_nat (length subs) /\
  pointers w' = pointers w /\ metaSet w' = metaSet w /\
  nextSweeping w' = nextSweeping w /\
  nextRootMarking w' = nextRootMarking w /\ state w' = state w /\
  handles w' = handles w /\ metas w' = metas w /\ classes w' = classes w /\
  isCreatingObj w' = isCreatingObj w /\ events w' = events w.
Proof.
  revert n w. induction subs as [|s subs IH]; intros n w H; cbn [pushChildren] in H.
  - run_inv. cbn [length]. repeat split. lia.
  - run_inv. match goal with Hm : context [meta ?h] |- _ => destruct (meta h) end.
    + run_inv. case_decide;
        apply IH in H as (-> & H); cbn [length]; (split; [lia|exact H]).
    + apply IH in H as (-> & H). cbn [length]. split; [lia|exact H].
Qed.

Lemma childMarkingBody_frame o rest n w w' n' :
  childMarkingBody o rest n w = Done (w', n') ->
  n' <= n /\
  pointers w' = pointers w /\ metaSet w' = metaSet w /\
  nextSweeping w' = nextSweeping w /\
  nextRootMarking w' = nextRootMarking w /\ state w' = state w /\
  handles w' = handles w /\ classes w' = classes w /\
  isCreatingObj w' = isCreatingObj w /\ events w' = events w.
Proof.
  unfold childMarkingBody. intros H. run_inv.
  match goal with Hs : setMark _ _ _ = Done _ |- _ =>
    apply setMark_frame in Hs as (om & _ & ->) end.
  apply pushChildren_frame in H
    as (-> & -> & -> & -> & -> & -> & -> & _ & -> & -> & ->).
  repeat split. lia.
Qed.

Lemma sweepingBody_frame w w' :
  sweepingBody w = Done w' ->
  pointers w' = pointers w /\ grayObjs w' = grayObjs w /\
  nextRootMarking w' = nextRootMarking w /\ state w' = state w /\
  handles w' = handles w /\ classes w' = classes w /\
  isCreatingObj w' = isCreatingObj w.
Proof.
  unfold sweepingBody. intros H. run_inv.
  case_decide; run_inv; [repeat split|].
  match goal with Hs : setMark _ _ _ = Done _ |- _ =>
    apply setMark_frame in Hs as (om & _ & ->) end.
  repeat split.
Qed.

(** ** One step of [collect] at a time *)

Lemma rootMarkingLoop_unfold fuel n w :
  rootMarkingLoop fuel n w =
    if (nextRootMarking w <? length (pointers w))%nat then
      if 0 <? n then
        match fuel with
        | O => OutOfFuel
        | S fuel' =>
            w1 ← rootMarkingBody w;
            rootMarkingLoop fuel' (n - 1)
              (set_nextRootMarking (S (nextRootMarking w1)) w1)
        end
      else mret (w, n - 1)
    else mret (w, n).
Proof. destruct fuel; reflexivity. Qed.

Lemma childMarkingLoop_unfold fuel n w :
  childMarkingLoop fuel n w =
    match grayObjs w with
    | [] => mret (w, n)
    | o :: rest =>
        if 0 <? n then
          match fuel with
          | O => OutOfFuel
          | S fuel' =>
              '(w1, n1) ← childMarkingBody o rest (n - 1) w;
              childMarkingLoop fuel' n1 w1
          end
        else mret (w, n - 1)
    end.
Proof. destruct fuel; reflexivity. Qed.

Lemma sweepingLoop_unfold fuel n w :
  sweepingLoop fuel n w =
    if (nextSweeping w <? length (metaSet w))%nat then
      if 0 <? n then
        match fuel with
        | O => OutOfFuel
        | S fuel' => w1 ← sweepingBody w; sweepingLoop fuel' (n - 1) w1
        end
      else mret (w, n - 1)
    else mret (w, n).
Proof. destruct fuel; reflexivity. Qed.

(** The child-marking loop never needs more fuel than [stepCnt]. *)
Lemma childMarkingLoop_fuel fuel n w :
  (Z.to_nat n <= fuel)%nat ->
  childMarkingLoop fuel n w = childMarkingLoop (Z.to_nat n) n w.
Proof.
  revert n w. induction fuel as [fuel IH] using lt_wf_ind. intros n w Hle.
  rewrite (childMarkingLoop_unfold fuel), (childMarkingLoop_unfold (Z.to_nat n)).
  destruct (grayObjs w) as [|o rest]; [reflexivity|].
  destruct (Z.ltb_spec 0 n) as [Hn|Hn]; [|reflexivity].
  destruct fuel as [|fuel']; [lia|].
  destruct (Z.to_nat n) as [|t] eqn:Ht; [lia|].
  apply run_bind_ext. intros [w1 n1] Hbody.
  apply childMarkingBody_frame in Hbody as (Hn1 & _).
  rewrite (IH fuel') by lia. rewrite (IH t) by lia. reflexivity.
Qed.

Section Steps.

Variable again : Z -> World -> Run World.

Lemma dispatch_root_step n w :
  state w = RootMarking ->
  (nextRootMarking w < length (pointers w))%nat -> 0 < n ->
  dispatch again n w =
    w1 ← rootMarkingBody w;
    dispatch again (n - 1) (set_nextRootMarking (S (nextRootMarking w1)) w1).
Proof.
  intros Hst Hcur Hn. unfold dispatch at 1. rewrite Hst.
  unfold rootMarkingLabel. rewrite rootMarkingLoop_unfold.
  apply Nat.ltb_lt in Hcur. rewrite Hcur.
  apply Z.ltb_lt in Hn. rewrite Hn. apply Z.ltb_lt in Hn.
  replace (Z.to_nat n) with (S (Z.to_nat (n - 1))) by lia.
  rewrite run_bind_assoc. apply run_bind_ext. intros w1 Hbody.
  apply rootMarkingBody_frame in Hbody as (_ & _ & _ & _ & Hst1 & _).
  unfold dispatch. cbn [state set_nextRootMarking]. rewrite Hst1, Hst.
  reflexivity.
Qed.

Lemma dispatch_root_pause n w :
  state w = RootMarking ->
  (nextRootMarking w < length (pointers w))%nat -> n <= 0 ->
  dispatch again n w = Done w.
Proof.
  intros Hst Hcur Hn. unfold dispatch. rewrite Hst.
  unfold rootMarkingLabel. rewrite rootMarkingLoop_unfold.
  apply Nat.ltb_lt in Hcur. rewrite Hcur.
  apply Z.ltb_ge in Hn. rewrite Hn. cbn [mbind Run_bind mret Run_ret]. rewrite Hcur. reflexivity.
Qed.

Lemma dispatch_root_done n w :
  state w = RootMarking ->
  (length (pointers w) <= nextRootMarking w)%nat ->
  dispatch again n w =
    dispatch again n (set_nextRootMarking 0 (set_state ChildMarking w)).
Proof.
  intros Hst Hcur. unfold dispatch at 1. rewrite Hst.
  unfold rootMarkingLabel. rewrite rootMarkingLoop_unfold.
  apply Nat.ltb_ge in Hcur. rewrite Hcur. cbn [mbind Run_bind mret Run_ret]. rewrite Hcur. reflexivity.
Qed.

Lemma dispatch_child_step n w o rest :
  state w = ChildMarking -> grayObjs w = o :: rest -> 0 < n ->
  dispatch again n w =
    '(w1, n1) ← childMarkingBody o rest (n - 1) w;
    dispatch again n1 w1.
Proof.
  intros Hst Hgray Hn. unfold dispatch at 1. rewrite Hst.
  unfold childMarkingLabel. rewrite childMarkingLoop_unfold, Hgray.
  apply Z.ltb_lt in Hn. rewrite Hn. apply Z.ltb_lt in Hn.
  replace (Z.to_nat n) with (S (Z.to_nat (n - 1))) by lia.
  rewrite run_bind_assoc. apply run_bind_ext. intros [w1 n1] Hbody.
  apply childMarkingBody_frame in Hbody as (Hn1 & _ & _ & _ & _ & Hst1 & _).
  unfold dispatch. rewrite Hst1, Hst. unfold childMarkingLabel.
  rewrite childMarkingLoop_fuel by lia. reflexivity.
Qed.

Lemma dispatch_child_pause n w o rest :
  state w = ChildMarking -> grayObjs w = o :: rest -> n <= 0 ->
  dispatch again n w = Done w.
Proof.
  intros Hst Hgray Hn. unfold dispatch. rewrite Hst.
  unfold childMarkingLabel. rewrite childMarkingLoop_unfold, Hgray.
  apply Z.ltb_ge in Hn. rewrite Hn. cbn [mbind Run_bind mret Run_ret]. rewrite Hgray. reflexivity.
Qed.

Lemma dispatch_child_done n w :
  state w = ChildMarking -> grayObjs w = [] ->
  dispatch again n w =
    dispatch again n (set_nextSweeping 0 (set_state Sweeping w)).
Proof.
  intros Hst Hgray. unfold dispatch at 1. rewrite Hst.
  unfold childMarkingLabel. rewrite childMarkingLoop_unfold, Hgray.
  cbn [mbind Run_bind mret Run_ret]. rewrite Hgray. reflexivity.
Qed.

Lemma dispatch_sweep_step n w :
  state w = Sweeping ->
  (nextSweeping w < length (metaSet w))%nat -> 0 < n ->
  dispatch again n w = w1 ← sweepingBody w; dispatch again (n - 1) w1.
Proof.
  intros Hst Hcur Hn. unfold dispatch at 1. rewrite Hst.
  unfold sweepingLabel. rewrite sweepingLoop_unfold.
  apply Nat.ltb_lt in Hcur. rewrite Hcur.
  apply Z.ltb_lt in Hn. rewrite Hn. apply Z.ltb_lt in Hn.
  replace (Z.to_nat n) with (S (Z.to_nat (n - 1))) by lia.
  rewrite run_bind_assoc. apply run_bind_ext. intros w1 Hbody.
  apply sweepingBody_frame in Hbody as (_ & _ & _ & Hst1 & _).
  unfold dispatch. rewrite Hst1, Hst. reflexivity.
Qed.

Lemma dispatch_sweep_pause n w :
  state w = Sweeping ->
  (nextSweeping w < length (metaSet w))%nat -> n <= 0 ->
  dispatch again n w = Done w.
Proof.
  intros Hst Hcur Hn. unfold dispatch. rewrite Hst.
  unfold sweepingLabel. rewrite sweepingLoop_unfold.
  apply Nat.ltb_lt in Hcur. rewrite Hcur.
  apply Z.ltb_ge in Hn. rewrite Hn. cbn [mbind Run_bind mret Run_ret]. rewrite Hcur. reflexivity.
Qed.

Lemma dispatch_sweep_done n w :
  state w = Sweeping ->
  (length (metaSet w) <= nextSweeping w)%nat ->
  dispatch again n w =
    match metaSet w with
    | [] => Done (set_state RootMarking w)
    | _ :: _ => again n (set_state RootMarking w)
    end.
Proof.
  intros Hst Hcur. unfold dispatch. rewrite Hst.
  unfold sweepingLabel. rewrite sweepingLoop_unfold.
  apply Nat.ltb_ge in Hcur. rewrite Hcur. cbn [mbind Run_bind mret Run_ret].
  rewrite Hcur. cbn [metaSet set_state]. destruct (metaSet w); reflexivity.
Qed.

End Steps.

(** ** [collect] does not depend on the bound of its rounds *)

Lemma rank_le_3 w : (rank w <= 3)%nat.
Proof.
  unfold rank. destruct (state w); try lia.
  destruct (_ <? _)%nat; [lia|]. destruct (metaSet w); lia.
Qed.

Lemma rank_sweep_start w :
  rank (set_nextSweeping 0 (set_state Sweeping w)) = 0%nat.
Proof.
  unfold rank. cbn [state metaSet nextSweeping set_nextSweeping set_state].
  destruct (metaSet w); reflexivity.
Qed.

Lemma dispatch_ext (m : nat) :
  forall n w, (measure n w < m)%nat ->
  forall k1 k2 : Z -> World -> Run World,
    (forall n' w', (rounds_needed n' w' < rounds_needed n w)%nat ->
                   k1 n' w' = k2 n' w') ->
    dispatch k1 n w = dispatch k2 n w.
Proof.
  induction m as [|m IH]; intros n w Hm k1 k2 Hk; [lia|].
  unfold measure, rounds_needed in *.
  destruct (state w) eqn:Hst.
  - (* _RootMarking *)
    assert (Hrk : rank w = 2%nat) by (unfold rank; rewrite Hst; reflexivity).
    rewrite Hrk in *.
    destruct (Nat.ltb_spec (nextRootMarking w) (length (pointers w))) as [Hc|Hc].
    + destruct (Z.ltb_spec 0 n) as [Hn|Hn].
      * rewrite (dispatch_root_step k1), (dispatch_root_step k2) by assumption.
        apply run_bind_ext. intros w1 Hbody.
        apply rootMarkingBody_frame in Hbody as (_ & _ & _ & _ & Hst1 & _).
        assert (Hrk1 : rank (set_nextRootMarking (S (nextRootMarking w1)) w1)
                       = 2%nat).
        { unfold rank. cbn [state set_nextRootMarking]. rewrite Hst1, Hst.
          reflexivity. }
        apply IH; [unfold measure; rewrite Hrk1; lia|].
        intros n' w' Hlt. apply Hk. unfold rounds_needed in *.
        rewrite Hrk1 in Hlt. simpl in *. lia.
      * rewrite (dispatch_root_pause k1), (dispatch_root_pause k2) by assumption. reflexivity.
    + rewrite (dispatch_root_done k1), (dispatch_root_done k2) by assumption.
      assert (Hrk1 : rank (set_nextRootMarking 0 (set_state ChildMarking w))
                     = 1%nat) by reflexivity.
      apply IH; [unfold measure; rewrite Hrk1; lia|].
      intros n' w' Hlt. apply Hk. unfold rounds_needed in *.
      rewrite Hrk1 in Hlt. simpl in *. lia.
  - (* _ChildMarking *)
    assert (Hrk : rank w = 1%nat) by (unfold rank; rewrite Hst; reflexivity).
    rewrite Hrk in *.
    destruct (grayObjs w) as [|o rest] eqn:Hgray.
    + rewrite (dispatch_child_done k1), (dispatch_child_done k2) by assumption.
      pose proof (rank_sweep_start w) as Hrk1.
      apply IH; [unfold measure; rewrite Hrk1; lia|].
      intros n' w' Hlt. apply Hk. unfold rounds_needed in *.
      rewrite Hrk1 in Hlt. simpl in *. lia.
    + destruct (Z.ltb_spec 0 n) as [Hn|Hn].
      * rewrite (dispatch_child_step k1 n w o rest), (dispatch_child_step k2 n w o rest) by assumption.
        apply run_bind_ext. intros [w1 n1] Hbody.
        apply childMarkingBody_frame in Hbody
          as (Hn1 & _ & _ & _ & _ & Hst1 & _).
        assert (Hrk1 : rank w1 = 1%nat)
          by (unfold rank; rewrite Hst1, Hst; reflexivity).
        apply IH; [unfold measure; rewrite Hrk1; lia|].
        intros n' w' Hlt. apply Hk. unfold rounds_needed in *.
        rewrite Hrk1 in Hlt. simpl in *. lia.
      * rewrite (dispatch_child_pause k1 n w o rest), (dispatch_child_pause k2 n w o rest) by assumption.
        reflexivity.
  - (* _Sweeping *)
    destruct (Nat.ltb_spec (nextSweeping w) (length (metaSet w))) as [Hc|Hc].
    + assert (Hrk : rank w = 0%nat).
      { unfold rank. rewrite Hst. apply Nat.ltb_lt in Hc. rewrite Hc.
        reflexivity. }
      rewrite Hrk in *.
      destruct (Z.ltb_spec 0 n) as [Hn|Hn].
      * rewrite (dispatch_sweep_step k1), (dispatch_sweep_step k2) by assumption.
        apply run_bind_ext. intros w1 Hbody.
        pose proof (rank_le_3 w1).
        apply IH; [unfold measure; lia|].
        intros n' w' Hlt. apply Hk. unfold rounds_needed in *.
        repeat case_decide; lia.
      * rewrite (dispatch_sweep_pause k1), (dispatch_sweep_pause k2) by assumption. reflexivity.
    + rewrite (dispatch_sweep_done k1), (dispatch_sweep_done k2) by assumption.
      destruct (metaSet w) as [|m0 ms] eqn:Hms; [reflexivity|].
      assert (Hrk : rank w = 3%nat).
      { unfold rank. rewrite Hst, Hms. apply Nat.ltb_ge in Hc.
        rewrite Hc. reflexivity. }
      apply Hk. unfold rounds_needed. rewrite Hrk.
      assert (Hrk1 : rank (set_state RootMarking w) = 2%nat) by reflexivity.
      rewrite Hrk1. simpl. lia.
Qed.

Lemma collect_rounds_enough (r1 r2 : nat) (n : Z) (w : World) :
  (rounds_needed n w <= r1)%nat -> (rounds_needed n w <= r2)%nat ->
  collect_rounds r1 n w = collect_rounds r2 n w.
Proof.
  remember (rounds_needed n w) as d eqn:Hd.
  revert r1 r2 n w Hd. induction d as [d IH] using lt_wf_ind.
  intros r1 r2 n w -> H1 H2.
  destruct r1 as [|r1]; [unfold rounds_needed in H1; lia|].
  destruct r2 as [|r2]; [unfold rounds_needed in H2; lia|].
  change (dispatch (collect_rounds r1) n w = dispatch (collect_rounds r2) n w).
  apply (dispatch_ext (S (measure n w))); [lia|].
  intros n' w' Hlt. eapply IH; [exact Hlt|reflexivity|lia|lia].
Qed.

(** [collect] is the [switch] whose jump back to [_RootMarking] is
    [collect] itself. *)
Lemma collect_unfold (n : Z) (w : World) :
  collect n w = dispatch collect n w.
Proof.
  unfold collect at 1.
  change (collect_rounds (S (S (Z.to_nat n))) n w)
    with (dispatch (collect_rounds (S (Z.to_nat n))) n w).
  apply (dispatch_ext (S (measure n w))); [lia|].
  intros n' w' Hlt. unfold collect. apply collect_rounds_enough.
  - unfold rounds_needed in *. repeat case_decide; lia.
  - unfold rounds_needed in *. repeat case_decide; lia.
Qed.

(** ** Induction along the steps of [collect] *)

(** The steps as equations on [collect]. *)
Lemma collect_root_step n w :
  state w = RootMarking ->
  (nextRootMarking w < length (pointers w))%nat -> 0 < n ->
  collect n w = w1 ← rootMarkingBody w; collect (n - 1) (afterRootBody w1).
Proof.
  intros. rewrite collect_unfold, dispatch_root_step by assumption.
  apply run_bind_ext. intros w1 _. symmetry. apply collect_unfold.
Qed.

Lemma collect_root_pause n w :
  state w = RootMarking ->
  (nextRootMarking w < length (pointers w))%nat -> n <= 0 ->
  collect n w = Done w.
Proof. intros. rewrite collect_unfold. apply dispatch_root_pause; auto. Qed.

Lemma collect_root_done n w :
  state w = RootMarking ->
  (length (pointers w) <= nextRootMarking w)%nat ->
  collect n w = collect n (toChildMarking w).
Proof.
  intros. rewrite collect_unfold, dispatch_root_done by assumption.
  symmetry. apply collect_unfold.
Qed.

Lemma collect_child_step n w o rest :
  state w = ChildMarking -> grayObjs w = o :: rest -> 0 < n ->
  collect n w = '(w1, n1) ← childMarkingBody o rest (n - 1) w; collect n1 w1.
Proof.
  intros. rewrite collect_unfold.
  rewrite (dispatch_child_step collect n w o rest) by assumption.
  apply run_bind_ext. intros [w1 n1] _. symmetry. apply collect_unfold.
Qed.

Lemma collect_child_pause n w o rest :
  state w = ChildMarking -> grayObjs w = o :: rest -> n <= 0 ->
  collect n w = Done w.
Proof. intros. rewrite collect_unfold. eapply dispatch_child_pause; eauto. Qed.

Lemma collect_child_done n w :
  state w = ChildMarking -> grayObjs w = [] ->
  collect n w = collect n (toSweeping w).
Proof.
  intros. rewrite collect_unfold, dispatch_child_done by assumption.
  symmetry. apply collect_unfold.
Qed.

Lemma collect_sweep_step n w :
  state w = Sweeping ->
  (nextSweeping w < length (metaSet w))%nat -> 0 < n ->
  collect n w = w1 ← sweepingBody w; collect (n - 1) w1.
Proof.
  intros. rewrite collect_unfold, dispatch_sweep_step by assumption.
  apply run_bind_ext. intros w1 _. symmetry. apply collect_unfold.
Qed.

Lemma collect_sweep_pause n w :
  state w = Sweeping ->
  (nextSweeping w < length (metaSet w))%nat -> n <= 0 ->
  collect n w = Done w.
Proof. intros. rewrite collect_unfold. apply dispatch_sweep_pause; auto. Qed.

Lemma collect_sweep_done n w :
  state w = Sweeping ->
  (length (metaSet w) <= nextSweeping w)%nat ->
  collect n w =
    match metaSet w with
    | [] => Done (set_state RootMarking w)
    | _ :: _ => collect n (set_state RootMarking w)
    end.
Proof.
  intros. rewrite collect_unfold. apply dispatch_sweep_done; auto.
Qed.

Section CollectInduction.

Variable P : Z -> World -> Run World -> Prop.

Hypothesis root_step : forall n w,
  state w = RootMarking ->
  (nextRootMarking w < length (pointers w))%nat -> 0 < n ->
  (forall w1, rootMarkingBody w = Done w1 ->
              P (n - 1) (afterRootBody w1) (collect (n - 1) (afterRootBody w1))) ->
  P n w (w1 ← rootMarkingBody w; collect (n - 1) (afterRootBody w1)).

Hypothesis root_pause : forall n w,
  state w = RootMarking ->
  (nextRootMarking w < length (pointers w))%nat -> n <= 0 ->
  P n w (Done w).

Hypothesis root_done : forall n w,
  state w = RootMarking ->
  (length (pointers w) <= nextRootMarking w)%nat ->
  P n (toChildMarking w) (collect n (toChildMarking w)) ->
  P n w (collect n (toChildMarking w)).

Hypothesis child_step : forall n w o rest,
  state w = ChildMarking -> grayObjs w = o :: rest -> 0 < n ->
  (forall w1 n1, childMarkingBody o rest (n - 1) w = Done (w1, n1) ->
                 P n1 w1 (collect n1 w1)) ->
  P n w ('(w1, n1) ← childMarkingBody o rest (n - 1) w; collect n1 w1).

Hypothesis child_pause : forall n w o rest,
  state w = ChildMarking -> grayObjs w = o :: rest -> n <= 0 ->
  P n w (Done w).

Hypothesis child_done : forall n w,
  state w = ChildMarking -> grayObjs w = [] ->
  P n (toSweeping w) (collect n (toSweeping w)) ->
  P n w (collect n (toSweeping w)).

Hypothesis sweep_step : forall n w,
  state w = Sweeping ->
  (nextSweeping w < length (metaSet w))%nat -> 0 < n ->
  (forall w1, sweepingBody w = Done w1 -> P (n - 1) w1 (collect (n - 1) w1)) ->
  P n w (w1 ← sweepingBody w; collect (n - 1) w1).

Hypothesis sweep_pause : forall n w,
  state w = Sweeping ->
  (nextSweeping w < length (metaSet w))%nat -> n <= 0 ->
  P n w (Done w).

Hypothesis sweep_done_empty : forall n w,
  state w = Sweeping ->
  (length (metaSet w) <= nextSweeping w)%nat -> metaSet w = [] ->
  P n w (Done (set_state RootMarking w)).

Hypothesis sweep_done_again : forall n w,
  state w = Sweeping ->
  (length (metaSet w) <= nextSweeping w)%nat -> metaSet w <> [] ->
  P n (set_state RootMarking w) (collect n (set_state RootMarking w)) ->
  P n w (collect n (set_state RootMarking w)).

Lemma collect_steps_ind : forall n w, P n w (collect n w).
Proof.
  intros n w. remember (measure n w) as m eqn:Hm.
  revert n w Hm. induction m as [m IH] using lt_wf_ind. intros n w ->.
  unfold measure in IH.
  destruct (state w) eqn:Hst.
  - assert (Hrk : rank w = 2%nat) by (unfold rank; rewrite Hst; reflexivity).
    destruct (Nat.ltb_spec (nextRootMarking w) (length (pointers w))) as [Hc|Hc].
    + destruct (Z.ltb_spec 0 n) as [Hn|Hn].
      * rewrite collect_root_step by assumption.
        apply root_step; try assumption. intros w1 Hbody.
        apply rootMarkingBody_frame in Hbody as (_ & _ & _ & _ & Hst1 & _).
        eapply IH; [|reflexivity].
        assert (Hrk1 : rank (afterRootBody w1) = 2%nat).
        { unfold rank, afterRootBody. cbn [state set_nextRootMarking].
          rewrite Hst1, Hst. reflexivity. }
        unfold measure. rewrite Hrk1. lia.
      * rewrite collect_root_pause by assumption. auto.
    + rewrite collect_root_done by assumption.
      apply root_done; try assumption.
      eapply IH; [|reflexivity].
      assert (Hrk1 : rank (toChildMarking w) = 1%nat) by reflexivity.
      unfold measure. rewrite Hrk1. lia.
  - assert (Hrk : rank w = 1%nat) by (unfold rank; rewrite Hst; reflexivity).
    destruct (grayObjs w) as [|o rest] eqn:Hgray.
    + rewrite collect_child_done by assumption.
      apply child_done; try assumption.
      eapply IH; [|reflexivity].
      pose proof (rank_sweep_start w) as Hrk1. fold (toSweeping w) in Hrk1.
      unfold measure. rewrite Hrk1. lia.
    + destruct (Z.ltb_spec 0 n) as [Hn|Hn].
      * rewrite (collect_child_step n w o rest) by assumption.
        apply child_step; try assumption. intros w1 n1 Hbody.
        apply childMarkingBody_frame in Hbody
          as (Hn1 & _ & _ & _ & _ & Hst1 & _).
        eapply IH; [|reflexivity].
        assert (Hrk1 : rank w1 = 1%nat)
          by (unfold rank; rewrite Hst1, Hst; reflexivity).
        unfold measure. rewrite Hrk1. lia.
      * rewrite (collect_child_pause n w o rest) by assumption.
        eauto.
  - destruct (Nat.ltb_spec (nextSweeping w) (length (metaSet w))) as [Hc|Hc].
    + assert (Hrk : rank w = 0%nat).
      { unfold rank. rewrite Hst. apply Nat.ltb_lt in Hc. rewrite Hc.
        reflexivity. }
      destruct (Z.ltb_spec 0 n) as [Hn|Hn].
      * rewrite collect_sweep_step by assumption.
        apply sweep_step; try assumption. intros w1 Hbody.
        eapply IH; [|reflexivity].
        pose proof (rank_le_3 w1). unfold measure. lia.
      * rewrite collect_sweep_pause by assumption. auto.
    + rewrite collect_sweep_done by assumption.
      destruct (metaSet w) as [|m0 ms] eqn:Hms; rewrite <- Hms in Hc.
      * apply sweep_done_empty; assumption.
      * apply sweep_done_again; try assumption; [rewrite Hms; discriminate|].
        eapply IH; [|reflexivity].
        assert (Hrk : rank w = 3%nat).
        { unfold rank. rewrite Hst. apply Nat.ltb_ge in Hc.
          rewrite Hc, Hms. reflexivity. }
        assert (Hrk1 : rank (set_state RootMarking w) = 2%nat) by reflexivity.
        unfold measure. rewrite Hrk1. lia.
Qed.

End CollectInduction.

(** The bounds of the model are never reached: a call of [collect] completes
    or faults. *)
Lemma setMark_fuel m c w : setMark m c w <> OutOfFuel.
Proof. unfold setMark, getMeta. destruct (metas w !! m); discriminate. Qed.

Lemma tryMarkRoot_fuel p w : tryMarkRoot p w <> OutOfFuel.
Proof.
  unfold tryMarkRoot, getHandle, getMeta, setMark, getMeta.
  destruct (handles w !! p) as [h|]; [|discriminate]. cbn.
  case_decide; [|discriminate].
  destruct (meta h) as [m|]; [|discriminate]. cbn.
  destruct (metas w !! m) as [o|]; [|discriminate]. cbn.
  case_decide; discriminate.
Qed.

Lemma clearRoots_fuel subs w : clearRoots subs w <> OutOfFuel.
Proof.
  revert w. induction subs as [|s subs IH]; intros w; [discriminate|].
  cbn [clearRoots]. unfold getHandle.
  destruct (handles w !! s); [apply IH|discriminate].
Qed.

Lemma rootMarkingBody_fuel w : rootMarkingBody w <> OutOfFuel.
Proof.
  unfold rootMarkingBody, getHandle, getMeta, enumPtrs, getClass.
  destruct (pointers w !! nextRootMarking w) as [p|]; [|discriminate]. cbn.
  destruct (handles w !! p) as [h|]; [|discriminate]. cbn.
  destruct (meta h) as [m|]; [|discriminate].
  destruct (metas w !! m) as [o|]; [|discriminate]. cbn.
  destruct (classes w !! clsInfo o) as [ci|]; [|discriminate]. cbn.
  destruct (clearRoots _ w) eqn:Hc; cbn; try discriminate.
  - apply tryMarkRoot_fuel.
  - exfalso. eapply clearRoots_fuel, Hc.
Qed.

Lemma pushChildren_fuel subs n w : pushChildren subs n w <> OutOfFuel.
Proof.
  revert n w. induction subs as [|s subs IH]; intros n w; [discriminate|].
  cbn [pushChildren]. unfold getHandle, getMeta.
  destruct (handles w !! s) as [h|]; [|discriminate]. cbn.
  destruct (meta h) as [m|]; [|apply IH].
  destruct (metas w !! m) as [o|]; [|discriminate]. cbn.
  case_decide; apply IH.
Qed.

Lemma childMarkingBody_fuel o rest n w :
  childMarkingBody o rest n w <> OutOfFuel.
Proof.
  unfold childMarkingBody.
  destruct (setMark o Alive (set_grayObjs rest w)) as [w1| |] eqn:Hs; cbn;
    try discriminate; [|exfalso; eapply setMark_fuel, Hs].
  unfold getMeta, enumPtrs, getClass.
  destruct (metas w1 !! o) as [om|]; [|discriminate]. cbn.
  destruct (classes w1 !! clsInfo om) as [ci|]; [|discriminate]. cbn.
  apply pushChildren_fuel.
Qed.

Lemma sweepingBody_fuel w : sweepingBody w <> OutOfFuel.
Proof.
  unfold sweepingBody, getMeta.
  destruct (metaSet w !! nextSweeping w) as [m|]; [|discriminate]. cbn.
  destruct (metas w !! m) as [o|] eqn:Ho; [|discriminate]. cbn.
  case_decide; [discriminate|].
  unfold setMark, getMeta. rewrite Ho. discriminate.
Qed.

Lemma run_bind_fuel {A B} (m : Run A) (f : A -> Run B) :
  m <> OutOfFuel -> (forall a, m = Done a -> f a <> OutOfFuel) ->
  m ≫= f <> OutOfFuel.
Proof. destruct m; cbn; auto; discriminate. Qed.

(** X1. Every call of [collect] comes to an end: it returns or faults.
    The one backward jump, from the end of the sweep to [_RootMarking], is
    taken with a set that is not empty; a round that goes from there
    through the whole set again uses up a step for each element it
    visits, and a round without steps left stops at a [break].  So the
    step count bounds the number of rounds, and the bound [collect] gives
    [collect_rounds] is never exhausted, for any step count and any
    collector. *)
Theorem collect_never_out_of_fuel (stepCnt : Z) (w : World) :
  collect stepCnt w <> OutOfFuel.
Proof.
  revert stepCnt w.
  apply (collect_steps_ind (fun _ _ r => r <> OutOfFuel));
    intros; try discriminate; try assumption.
  - apply run_bind_fuel; [apply rootMarkingBody_fuel|auto].
  - apply run_bind_fuel; [apply childMarkingBody_fuel|].
    intros [w1 n1]. auto.
  - apply run_bind_fuel; [apply sweepingBody_fuel|auto].
Qed.

(** ** The work list during the sweep *)

Lemma collect_sweeping_gray_empty n w w' :
  sweeping_gray_empty w -> collect n w = Done w' -> sweeping_gray_empty w'.
Proof.
  intros Hinv Hrun. revert w' Hinv Hrun. revert n w.
  apply (collect_steps_ind
           (fun _ w r => forall w', sweeping_gray_empty w -> r = Done w' ->
                                    sweeping_gray_empty w'));
    intros n w.
  - intros Hst _ _ IH w' _ Hrun. run_inv.
    apply (IH a Hrun0 w'); [|exact Hrun].
    apply rootMarkingBody_frame in Hrun0 as (_ & _ & _ & _ & Hst1 & _).
    intros Hs. cbn in Hs. congruence.
  - intros _ _ _ w' Hinv [= <-]. exact Hinv.
  - intros _ _ IH w' _ Hrun. apply (IH w'); [|exact Hrun].
    intros Hs. discriminate Hs.
  - intros o rest Hst _ _ IH w' _ Hrun. run_inv. destruct a as [w1 n1].
    apply (IH w1 n1 Hrun0 w'); [|exact Hrun].
    apply childMarkingBody_frame in Hrun0 as (_ & _ & _ & _ & _ & Hst1 & _).
    intros Hs. congruence.
  - intros o rest _ _ _ w' Hinv [= <-]. exact Hinv.
  - intros _ Hgray IH w' _ Hrun. apply (IH w'); [|exact Hrun].
    intros _. exact Hgray.
  - intros Hst _ _ IH w' Hinv Hrun. run_inv.
    apply (IH a Hrun0 w'); [|exact Hrun].
    apply sweepingBody_frame in Hrun0 as (_ & Hgray & _ & _).
    intros _. rewrite Hgray. apply Hinv, Hst.
  - intros _ _ _ w' Hinv [= <-]. exact Hinv.
  - intros _ _ _ w' _ [= <-]. intros Hs. discriminate Hs.
  - intros _ _ _ IH w' _ Hrun. apply (IH w'); [|exact Hrun].
    intros Hs. discriminate Hs.
Qed.

Lemma onPointeeChanged_sweeping_gray_empty p w w' :
  sweeping_gray_empty w -> onPointeeChanged p w = Done w' ->
  sweeping_gray_empty w'.
Proof.
  intros Hinv H. unfold onPointeeChanged in H. run_inv.
  match goal with H : context [meta ?h] |- _ => destruct (meta h) end;
    run_inv; [|exact Hinv].
  destruct (state w) eqn:Hst.
  - destruct (_ <? _)%nat; run_inv; [|exact Hinv].
    apply tryMarkRoot_frame in H as (_ & _ & _ & _ & Hst' & _).
    intros Hs. congruence.
  - apply tryMarkRoot_frame in H as (_ & _ & _ & _ & Hst' & _).
    intros Hs. congruence.
  - run_inv. case_decide; run_inv; [|exact Hinv].
    match goal with H : (if ?b then _ else _) = Done _ |- _ => destruct b end;
      run_inv; [exact Hinv|].
    apply setMark_frame in H as (o & _ & ->). exact Hinv.
Qed.

Lemma registerPtr_gray_state p w w' :
  registerPtr p w = Done w' ->
  state w' = state w /\ grayObjs w' = grayObjs w.
Proof.
  intros H. unfold registerPtr in H. run_inv.
  match goal with H : (if ?b then _ else _) = Done _ |- _ => destruct b end;
    run_inv; [|auto].
  match goal with H : match ?r with _ => _ end = Done _ |- _ => destruct r end;
    run_inv; auto.
Qed.

Lemma unregisterPtr_sweeping_gray_empty p w w' :
  sweeping_gray_empty w -> unregisterPtr p w = Done w' ->
  sweeping_gray_empty w'.
Proof.
  intros Hinv H. unfold unregisterPtr in H. run_inv.
  case_decide; run_inv; [exact Hinv|].
  match goal with H : context [meta ?h] |- _ => destruct (meta h) end;
    run_inv; [|exact Hinv].
  case_decide; run_inv; [|exact Hinv].
  match goal with H : (if ?b then _ else _) = Done _ |- _ => destruct b end;
    run_inv; [|exact Hinv].
  apply tryMarkRoot_frame in H as (_ & _ & _ & _ & Hst' & _).
  intros Hs. cbn in *. congruence.
Qed.

Lemma addObj_gray_state m w w' :
  addObj m w = Done w' -> state w' = state w /\ grayObjs w' = grayObjs w.
Proof.
  intros H. unfold addObj in H. run_inv.
  match goal with H : match ?r with _ => _ end = Done _ |- _ => destruct r end;
    run_inv; [|auto].
  match goal with |- context [if ?b then _ else _] => destruct b end; auto.
Qed.

Lemma applyOp_sweeping_gray_empty op w w' :
  sweeping_gray_empty w -> applyOp op w = Done w' -> sweeping_gray_empty w'.
Proof.
  intros Hinv H. destruct op as [n|p|p|p|m]; simpl in H.
  - eapply collect_sweeping_gray_empty; eauto.
  - eapply onPointeeChanged_sweeping_gray_empty; eauto.
  - apply registerPtr_gray_state in H as [Hst Hg].
    intros Hs. rewrite Hg. apply Hinv. congruence.
  - eapply unregisterPtr_sweeping_gray_empty; eauto.
  - apply addObj_gray_state in H as [Hst Hg].
    intros Hs. rewrite Hg. apply Hinv. congruence.
Qed.

(** C10. In the incremental collector [grayObjs] is empty whenever the
    state is [Sweeping]: this holds for a fresh collector, and every entry
    point ([collect], which enters [Sweeping] only with an empty work list,
    [onPointeeChanged], [registerPtr], [unregisterPtr], [addObj]) keeps it,
    so it holds after every sequence of calls. *)
Theorem sweeping_keeps_grayObjs_empty
  (ops : list CollectorOp) (w w' : World) :
  sweeping_gray_empty w -> applyOps ops w = Done w' ->
  sweeping_gray_empty initial /\ sweeping_gray_empty w'.
Proof.
  intros Hinv Hrun. split; [intros Hs; discriminate Hs|].
  revert w Hinv Hrun. induction ops as [|op ops IH]; intros w Hinv Hrun.
  - simpl in Hrun. run_inv. exact Hinv.
  - simpl in Hrun. apply run_bind_done in Hrun as (w1 & Hop & Hrun).
    eapply IH; [|exact Hrun]. eapply applyOp_sweeping_gray_empty; eauto.
Qed.

Lemma sweeping_keeps_grayObjs_empty_witness :
  applyOps ex_ops ex_chain = Done ex_after_ops /\
  state ex_after_ops = Sweeping /\ grayObjs ex_after_ops = [].
Proof.
  assert (Hrun : applyOps ex_ops ex_chain = Done ex_after_ops)
    by (vm_compute; reflexivity).
  split; [exact Hrun|]. split; [reflexivity|].
  apply (sweeping_keeps_grayObjs_empty ex_ops ex_chain ex_after_ops);
    [intros Hs; discriminate Hs|exact Hrun|reflexivity].
Defined.

(** ** The sweep *)









Lemma ex_garbage_sweep_reached :
  collect 3 ex_garbage ≫= collect 1 = Done ex_garbage_sweep.
Proof. vm_compute. reflexivity. Qed.


(** ** The tri-color invariant during child marking *)

Lemma ex_marking_markOf (m : addr) :
  markOf ex_marking m =
    if decide (m = 1000) then Some Gray
    else if decide (m = 2000) then Some Unmarked else None.
Proof.
  unfold markOf, ex_marking. cbn [metas].
  repeat case_decide; subst; try reflexivity.
  rewrite !lookup_insert_ne by congruence. reflexivity.
Qed.

Lemma ex_marking_tricolor : tricolor ex_marking.
Proof.
  split.
  - intros o m Ho _. rewrite ex_marking_markOf in Ho.
    repeat case_decide; discriminate.
  - intros m. rewrite ex_marking_markOf. cbn [grayObjs ex_marking]. split.
    + intros Hm. apply list_elem_of_singleton in Hm as ->. reflexivity.
    + intros Hm. repeat case_decide; try discriminate. subst. left.
Qed.

(** C1, evaluated on the chain heap.  After root marking the collector is
    in [ChildMarking], [A] is gray and on the work list, and the tri-color
    invariant holds.  One more unit pops [A] and marks it [Alive]; its field
    points to [B], which is pushed but keeps the mark [Unmarked].  The
    collector is still in [ChildMarking]: an [Alive] object references an
    [Unmarked] one, and the work list holds a meta that is not [Gray]. *)
Theorem childMarking_pushes_without_graying :
  collect 3 ex_chain = Done ex_marking /\
  state ex_marking = ChildMarking /\ tricolor ex_marking /\
  exists w',
    collect 1 ex_marking = Done w' /\
    state w' = ChildMarking /\
    markOf w' 1000 = Some Alive /\ references w' 1000 2000 /\
    markOf w' 2000 = Some Unmarked /\ grayObjs w' = [2000] /\
    ~ tricolor w'.
Proof.
  split; [exact ex_marking_reached|]. split; [reflexivity|].
  split; [exact ex_marking_tricolor|].
  eexists. split; [vm_compute; reflexivity|].
  assert (Href : references
            (mkWorld [50; 1016; 1024] [2000] [1000; 2000] 0 0 ChildMarking
               (handles ex_marking)
               (<[1000 := mkObjMeta 100 1016 1 Alive]>
                  (<[2000 := mkObjMeta 101 2016 1 Unmarked]> ∅))
               ex_classes 0 []) 1000 2000).
  { exists (mkObjMeta 100 1016 1 Alive), [1016; 1024], 1016,
           (mkPtrBase (Some 2000) 0 1).
    repeat split; try reflexivity. left. }
  split; [reflexivity|]. split; [reflexivity|]. split; [exact Href|].
  split; [reflexivity|]. split; [reflexivity|].
  intros [Halive _]. apply (Halive 1000 2000); [reflexivity|exact Href|].
  reflexivity.
Qed.

(** ** Incremental collection *)





















(** ** Invariants and relations along [collect] *)

(** A property [I] of the collector that every loop body and every jump of
    [collect] keeps, and a relation [R] between the collector before and
    after that every one of them establishes, hold for a whole call. *)
Section CollectInvariant.

Variable I : World -> Prop.
Variable R : World -> World -> Prop.

Hypothesis R_refl : forall w, R w w.
Hypothesis R_trans : forall w1 w2 w3, R w1 w2 -> R w2 w3 -> R w1 w3.

Hypothesis root_body : forall w w1,
  I w -> state w = RootMarking ->
  (nextRootMarking w < length (pointers w))%nat ->
  rootMarkingBody w = Done w1 ->
  I (afterRootBody w1) /\ R w (afterRootBody w1).

Hypothesis root_end : forall w,
  I w -> state w = RootMarking ->
  (length (pointers w) <= nextRootMarking w)%nat ->
  I (toChildMarking w) /\ R w (toChildMarking w).

Hypothesis child_body : forall w o rest n w1 n1,
  I w -> state w = ChildMarking -> grayObjs w = o :: rest ->
  childMarkingBody o rest n w = Done (w1, n1) ->
  I w1 /\ R w w1.

Hypothesis child_end : forall w,
  I w -> state w = ChildMarking -> grayObjs w = [] ->
  I (toSweeping w) /\ R w (toSweeping w).

Hypothesis sweep_body : forall w w1,
  I w -> state w = Sweeping ->
  (nextSweeping w < length (metaSet w))%nat ->
  sweepingBody w = Done w1 ->
  I w1 /\ R w w1.

Hypothesis sweep_end : forall w,
  I w -> state w = Sweeping ->
  (length (metaSet w) <= nextSweeping w)%nat ->
  I (set_state RootMarking w) /\ R w (set_state RootMarking w).


End CollectInvariant.

(** ** What a call of [collect] leaves unchanged *)






Lemma metas_kept_refl w : metas_kept w w.
Proof. intros m o Ho. eauto. Qed.



Lemma metas_kept_setMark m c w w' :
  setMark m c w = Done w' -> metas_kept w w'.
Proof.
  intros H. apply setMark_frame in H as (o & Ho & ->).
  intros m' o' Ho'. cbn [metas set_metas] in Ho'.
  destruct (decide (m' = m)) as [->|Hne].
  - rewrite lookup_insert_eq in Ho'. injection Ho' as <-. eauto.
  - rewrite lookup_insert_ne in Ho' by congruence. eauto.
Qed.


Lemma tryMarkRoot_metas_kept p w w' :
  tryMarkRoot p w = Done w' -> metas_kept w w'.
Proof.
  unfold tryMarkRoot. intros H. run_inv.
  case_decide; run_inv; [|apply metas_kept_refl].
  case_decide; run_inv; [|apply metas_kept_refl].
  match goal with Hs : setMark _ _ _ = Done _ |- _ =>
    apply metas_kept_setMark in Hs end.
  assumption.
Qed.










(** ** A call without budget *)

(** X3. With a step count of zero or less [collect] returns without running
    a loop body: it may take the jumps that are due (and so change [state]
    and the two cursors), but no mark, no handle, no set and no work list
    changes and nothing is destroyed. *)
Theorem collect_without_budget_changes_no_object (stepCnt : Z) (w : World) :
  stepCnt <= 0 ->
  exists w',
    collect stepCnt w = Done w' /\
    pointers w' = pointers w /\ grayObjs w' = grayObjs w /\
    metaSet w' = metaSet w /\ handles w' = handles w /\
    metas w' = metas w /\ classes w' = classes w /\ events w' = events w.
Proof.
  revert stepCnt w.
  apply (collect_steps_ind
           (fun n w r => n <= 0 ->
              exists w', r = Done w' /\
                pointers w' = pointers w /\ grayObjs w' = grayObjs w /\
                metaSet w' = metaSet w /\ handles w' = handles w /\
                metas w' = metas w /\ classes w' = classes w /\
                events w' = events w));
    intros n w; intros; try lia; try (eexists; repeat split; reflexivity);
    auto.
Qed.

Lemma collect_without_budget_changes_no_object_witness :
  exists w',
    collect 0 ex_marking = Done w' /\
    pointers w' = pointers ex_marking /\ grayObjs w' = grayObjs ex_marking /\
    metaSet w' = metaSet ex_marking /\ handles w' = handles ex_marking /\
    metas w' = metas ex_marking /\ classes w' = classes ex_marking /\
    events w' = events ex_marking.
Proof.
  apply (collect_without_budget_changes_no_object 0 ex_marking). lia.
Defined.

(** ** Erased metas and their destruction *)










(** ** [~Collector] *)



(** ** The write barrier *)

Lemma tryMarkRoot_cases p w w' :
  tryMarkRoot p w = Done w' ->
  w' = w \/
  exists h m o,
    handles w !! p = Some h /\ isRoot h = 1 /\ meta h = Some m /\
    metas w !! m = Some o /\ markState o = Unmarked /\
    w' = set_grayObjs (m :: grayObjs w)
           (set_metas (<[m := with_markState Gray o]> (metas w)) w).
Proof.
  unfold tryMarkRoot, getHandle, getMeta. intros H. run_inv.
  case_decide; run_inv; [|auto].
  case_decide; run_inv; [|auto].
  match goal with Hs : setMark _ _ _ = Done _ |- _ =>
    apply setMark_frame in Hs as (o & Ho & ->) end.
  right. eexists _, _, _. repeat split; eauto. congruence.
Qed.

Lemma tryMarkRoot_idempotent p w w' :
  tryMarkRoot p w = Done w' -> tryMarkRoot p w' = Done w'.
Proof.
  intros H. pose proof H as Hc.
  apply tryMarkRoot_cases in Hc as [->|(h & m & o & Hh & Hr & Hm & Ho & Hu & ->)];
    [exact H|].
  unfold tryMarkRoot, getHandle, getMeta.
  cbn [handles metas set_grayObjs set_metas]. rewrite Hh.
  cbn [deref mbind Run_bind]. rewrite decide_True by exact Hr.
  rewrite Hm. cbn [deref mbind Run_bind]. rewrite lookup_insert_eq.
  cbn [deref mbind Run_bind]. rewrite decide_False by (cbn; discriminate).
  reflexivity.
Qed.

(** X6. The write barrier is idempotent: running it a second time on the
    same handle, with nothing in between, changes nothing.  The pointee it
    grayed is not pushed a second time, and the pointee it marked [Alive]
    during the sweep stays [Alive]. *)
Theorem onPointeeChanged_idempotent (p : addr) (w w' : World) :
  onPointeeChanged p w = Done w' -> onPointeeChanged p w' = Done w'.
Proof.
  unfold onPointeeChanged, getHandle. intros H. run_inv. rename a into h.
  destruct (meta h) as [m|] eqn:Hm.
  - destruct (state w) eqn:Hst.
    + destruct (index h <? nextRootMarking w)%nat eqn:Hlt; run_inv.
      * pose proof (tryMarkRoot_idempotent _ _ _ H) as Hid.
        apply tryMarkRoot_frame in H
          as (_ & _ & _ & Hn & Hs & Hh & _).
        rewrite Hh, Hrun. cbn [deref mbind Run_bind].
        rewrite Hm, Hs, Hst, Hn, Hlt. exact Hid.
      * rewrite Hrun. cbn [deref mbind Run_bind]. rewrite Hm, Hst, Hlt.
        reflexivity.
    + pose proof (tryMarkRoot_idempotent _ _ _ H) as Hid.
      apply tryMarkRoot_frame in H as (_ & _ & _ & _ & Hs & Hh & _).
      rewrite Hh, Hrun. cbn [deref mbind Run_bind].
      rewrite Hm, Hs, Hst. exact Hid.
    + unfold getMeta in *. run_inv. rename a into o.
      destruct (decide (markState o = Unmarked)) as [Hu|Hu]; run_inv.
      * rename a into cur, a0 into co, a1 into b. destruct b; run_inv.
        -- rewrite Hrun. cbn [deref mbind Run_bind]. rewrite Hm, Hst, Hrun0.
           cbn [deref mbind Run_bind]. rewrite decide_True by exact Hu.
           rewrite Hrun1. cbn [deref mbind Run_bind]. rewrite Hrun2.
           cbn [deref mbind Run_bind]. rewrite Hrun3. reflexivity.
        -- apply setMark_frame in H as (o' & Ho' & ->).
           cbn [handles metas state set_metas]. rewrite Hrun.
           cbn [deref mbind Run_bind]. rewrite Hm, Hst, lookup_insert_eq.
           cbn [deref mbind Run_bind].
           rewrite decide_False by (cbn; discriminate). reflexivity.
      * rewrite Hrun. cbn [deref mbind Run_bind]. rewrite Hm, Hst, Hrun0.
        cbn [deref mbind Run_bind]. rewrite decide_False by exact Hu.
        reflexivity.
  - run_inv. rewrite Hrun. cbn [deref mbind Run_bind]. rewrite Hm.
    reflexivity.
Qed.

Lemma onPointeeChanged_idempotent_witness :
  exists w', onPointeeChanged 1016 ex_midsweep = Done w' /\
             markOf w' 2000 = Some Alive /\
             onPointeeChanged 1016 w' = Done w'.
Proof.
  eexists. split; [vm_compute; reflexivity|]. split; [reflexivity|].
  apply (onPointeeChanged_idempotent 1016 ex_midsweep). vm_compute.
  reflexivity.
Defined.

Lemma onPointeeChanged_spec (p : addr) (w w' : World) :
  onPointeeChanged p w = Done w' ->
  (pointers w' = pointers w /\ metaSet w' = metaSet w /\
   nextSweeping w' = nextSweeping w /\
   nextRootMarking w' = nextRootMarking w /\ state w' = state w /\
   handles w' = handles w /\ classes w' = classes w /\
   events w' = events w) /\
  metas_kept w w' /\
  (forall m, pointee w p <> Some m \/ markOf w m <> Some Unmarked ->
             markOf w' m = markOf w m) /\
  (grayObjs w' = grayObjs w \/
   exists m, pointee w p = Some m /\ markOf w' m = Some Gray /\
             grayObjs w' = m :: grayObjs w).
Proof.
  assert (Htry : forall w0 w1, tryMarkRoot p w0 = Done w1 ->
            (pointers w1 = pointers w0 /\ metaSet w1 = metaSet w0 /\
             nextSweeping w1 = nextSweeping w0 /\
             nextRootMarking w1 = nextRootMarking w0 /\ state w1 = state w0 /\
             handles w1 = handles w0 /\ classes w1 = classes w0 /\
             events w1 = events w0) /\
            metas_kept w0 w1 /\
            (forall m, pointee w0 p <> Some m \/ markOf w0 m <> Some Unmarked ->
                       markOf w1 m = markOf w0 m) /\
            (grayObjs w1 = grayObjs w0 \/
             exists m, pointee w0 p = Some m /\ markOf w1 m = Some Gray /\
                       grayObjs w1 = m :: grayObjs w0)).
  { intros w0 w1 H. pose proof (tryMarkRoot_metas_kept _ _ _ H) as Hk.
    pose proof H as Hf.
    apply tryMarkRoot_frame in Hf as (? & ? & ? & ? & ? & ? & ? & _ & ?).
    split; [auto 10|]. split; [exact Hk|].
    apply tryMarkRoot_cases in H
      as [->|(h & m & o & Hh & Hr & Hm & Ho & Hu & ->)]; [auto|].
    assert (Hpt : pointee w0 p = Some m).
    { unfold pointee. rewrite Hh. exact Hm. }
    split.
    - intros m' Hm'. unfold markOf. cbn [metas set_grayObjs set_metas].
      destruct (decide (m' = m)) as [->|Hne].
      + destruct Hm' as [Hm'|Hm']; [congruence|].
        exfalso. apply Hm'. unfold markOf. rewrite Ho. cbn. congruence.
      + rewrite lookup_insert_ne by congruence. reflexivity.
    - right. exists m. split; [exact Hpt|]. split; [|reflexivity].
      unfold markOf. cbn [metas set_grayObjs set_metas].
      rewrite lookup_insert_eq. reflexivity. }
  assert (Hsame : forall w0,
            (pointers w0 = pointers w0 /\ metaSet w0 = metaSet w0 /\
             nextSweeping w0 = nextSweeping w0 /\
             nextRootMarking w0 = nextRootMarking w0 /\ state w0 = state w0 /\
             handles w0 = handles w0 /\ classes w0 = classes w0 /\
             events w0 = events w0) /\
            metas_kept w0 w0 /\
            (forall m, pointee w0 p <> Some m \/ markOf w0 m <> Some Unmarked ->
                       markOf w0 m = markOf w0 m) /\
            (grayObjs w0 = grayObjs w0 \/
             exists m, pointee w0 p = Some m /\ markOf w0 m = Some Gray /\
                       grayObjs w0 = m :: grayObjs w0)).
  { intros w0. split; [auto 10|]. split; [apply metas_kept_refl|]. auto. }
  unfold onPointeeChanged, getHandle. intros H. run_inv. rename a into h.
  destruct (meta h) as [m|] eqn:Hm; run_inv; [|apply Hsame].
  destruct (state w) eqn:Hst in H.
  - destruct (index h <? nextRootMarking w)%nat; run_inv; [|apply Hsame].
    apply Htry, H.
  - apply Htry, H.
  - unfold getMeta in *. run_inv. rename a into o.
    destruct (decide (markState o = Unmarked)) as [Hu|Hu]; run_inv;
      [|apply Hsame].
    rename a1 into b. destruct b; run_inv; [apply Hsame|].
    pose proof (metas_kept_setMark _ _ _ _ H) as Hk.
    apply setMark_frame in H as (o' & Ho' & ->).
    split; [cbn; auto 10|]. split; [exact Hk|]. split; [|left; reflexivity].
    intros m' Hm'. unfold markOf. cbn [metas set_metas].
    destruct (decide (m' = m)) as [->|Hne].
    + destruct Hm' as [Hm'|Hm'].
      * exfalso. apply Hm'. unfold pointee. rewrite Hrun. exact Hm.
      * exfalso. apply Hm'. unfold markOf. rewrite Hrun0. cbn. congruence.
    + rewrite lookup_insert_ne by congruence. reflexivity.
Qed.

(** X7. The write barrier only ever marks the pointee of the handle it is
    called on: the registry, the set, the cursors, the state, the handles
    and the classes stay as they are and nothing is destroyed; the mark of
    every meta that is not the pointee, and every mark that is not
    [Unmarked], stays as it is; and the work list is unchanged or has the
    pointee, now [Gray], pushed on it. *)
Theorem onPointeeChanged_only_marks_the_pointee (p : addr) (w w' : World) :
  onPointeeChanged p w = Done w' ->
  (pointers w' = pointers w /\ metaSet w' = metaSet w /\
   nextSweeping w' = nextSweeping w /\
   nextRootMarking w' = nextRootMarking w /\ state w' = state w /\
   handles w' = handles w /\ classes w' = classes w /\
   events w' = events w) /\
  metas_kept w w' /\
  (forall m, pointee w p <> Some m \/ markOf w m <> Some Unmarked ->
             markOf w' m = markOf w m) /\
  (grayObjs w' = grayObjs w \/
   exists m, pointee w p = Some m /\ markOf w' m = Some Gray /\
             grayObjs w' = m :: grayObjs w).
Proof. exact (onPointeeChanged_spec p w w'). Qed.

Lemma onPointeeChanged_only_marks_the_pointee_witness :
  exists w',
    onPointeeChanged 50 ex_marking = Done w' /\
    metaSet w' = metaSet ex_marking /\ handles w' = handles ex_marking /\
    markOf w' 2000 = markOf ex_marking 2000.
Proof.
  eexists. split; [vm_compute; reflexivity|].
  destruct (onPointeeChanged_only_marks_the_pointee 50 ex_marking _ eq_refl)
    as ((_ & Hs & _ & _ & _ & Hh & _) & _ & Hm & _).
  split; [exact Hs|]. split; [exact Hh|].
  apply Hm. left. vm_compute. discriminate.
Defined.

(** ** Construction and destruction of a handle *)

Lemma World_eta w :
  mkWorld (pointers w) (grayObjs w) (metaSet w) (nextSweeping w)
    (nextRootMarking w) (state w) (handles w) (metas w) (classes w)
    (isCreatingObj w) (events w) = w.
Proof. destruct w. reflexivity. Qed.

Lemma pop_back_snoc {A} (l : list A) (x : A) : pop_back (l ++ [x]) = l.
Proof.
  unfold pop_back. rewrite length_app. cbn [length].
  replace (length l + 1 - 1)%nat with (length l) by lia.
  apply take_app_length.
Qed.

Lemma lower_bound_frame w w' l key :
  metas w' = metas w -> classes w' = classes w ->
  lower_bound w' l key = lower_bound w l key.
Proof.
  intros Hm Hc. induction l as [|m l IH]; [reflexivity|].
  cbn [lower_bound]. unfold getMeta, metaLess, payloadEnd, getClass.
  rewrite Hm, Hc, IH. reflexivity.
Qed.

Lemma findOwnerMeta_frame obj w w' :
  metaSet w' = metaSet w -> metas w' = metas w -> classes w' = classes w ->
  findOwnerMeta obj w' = findOwnerMeta obj w.
Proof.
  intros Hs Hm Hc. unfold findOwnerMeta.
  rewrite Hs, (lower_bound_frame w w') by assumption.
  unfold getMeta, containsPtr, payloadEnd, getClass. rewrite Hm, Hc.
  reflexivity.
Qed.

(** The owner lookup returns on every valid set. *)
Lemma findOwnerMeta_returns obj w :
  metaSet_valid w -> exists r, findOwnerMeta obj w = Done r.
Proof.
  intros Hv.
  destruct (lower_bound_split w (metaSet w) obj Hv) as (i & Hi & _).
  unfold findOwnerMeta. rewrite Hi. cbn [mbind Run_bind].
  destruct (metaSet w !! i) as [m|] eqn:Hmi; [|eauto].
  destruct (Hv m) as (lo & hi & Hr); [eapply list_elem_of_lookup_2, Hmi|].
  pose proof Hr as (o & ci & Ho & Hc & Hlo & Hhi).
  unfold getMeta. rewrite Ho. cbn [deref mbind Run_bind].
  rewrite (containsPtr_range w m o lo hi obj Ho Hr). cbn [mbind Run_bind].
  eauto.
Qed.

(** X8. Outside the construction of an object, constructing a handle at a
    free address and destroying it again leaves the collector exactly as it
    was: the registry, the handles and every other field.  This holds for
    the default constructor and, on a valid set, for the constructor from a
    raw pointer. *)
Theorem PtrBase_ctor_then_dtor_restores (p : addr) (w : World) :
  handles w !! p = None -> isCreatingObj w <= 0 ->
  (PtrBase_ctor p w ≫= PtrBase_dtor p) = Done w /\
  (metaSet_valid w ->
   forall obj, (PtrBase_ctor_obj p obj w ≫= PtrBase_dtor p) = Done w).
Proof.
  intros Hfree Hcre.
  assert (Hreg : registerPtr p
                   (set_handles (<[p := mkPtrBase None 1 0]> (handles w)) w)
                 = Done (set_pointers (pointers w ++ [p])
                           (set_handles
                              (<[p := mkPtrBase None 1 (length (pointers w))]>
                                 (handles w)) w))).
  { unfold registerPtr, getHandle. cbn [handles set_handles].
    rewrite lookup_insert_eq. cbn [deref mbind Run_bind].
    cbn [isCreatingObj set_pointers set_handles pointers handles].
    replace (0 <? isCreatingObj w) with false
      by (symmetry; apply Z.ltb_ge; lia).
    rewrite insert_insert_eq. reflexivity. }
  assert (Hdtor : forall hp,
            PtrBase_dtor p
              (set_pointers (pointers w ++ [p])
                 (set_handles (<[p := hp]> (handles w)) w)) = Done w).
  { intros hp. unfold PtrBase_dtor, unregisterPtr.
    cbn [pointers set_pointers set_handles]. rewrite last_snoc.
    cbn [deref mbind Run_bind]. rewrite decide_True by reflexivity.
    cbn [mret Run_ret mbind Run_bind]. rewrite pop_back_snoc.
    unfold set_handles, set_pointers. cbn.
    rewrite delete_insert_eq, delete_id by exact Hfree.
    f_equal. apply World_eta. }
  split.
  - unfold PtrBase_ctor. rewrite Hreg. cbn [mbind Run_bind]. apply Hdtor.
  - intros Hv obj. unfold PtrBase_ctor_obj. rewrite Hreg.
    cbn [mbind Run_bind].
    destruct (findOwnerMeta_returns obj w Hv) as [r Hr].
    rewrite (findOwnerMeta_frame obj w) by reflexivity. rewrite Hr.
    cbn [mbind Run_bind]. unfold getHandle.
    cbn [handles set_pointers set_handles]. rewrite lookup_insert_eq.
    cbn [deref mbind Run_bind mret Run_ret].
    unfold set_handles at 1. cbn [pointers grayObjs metaSet nextSweeping
      nextRootMarking state handles metas classes isCreatingObj events
      set_pointers set_handles].
    rewrite insert_insert_eq.
    exact (Hdtor (with_meta r (mkPtrBase None 1 (length (pointers w))))).
Qed.

Lemma PtrBase_ctor_then_dtor_restores_witness :
  (PtrBase_ctor 60 ex_chain ≫= PtrBase_dtor 60) = Done ex_chain /\
  (PtrBase_ctor_obj 60 1020 ex_chain ≫= PtrBase_dtor 60) = Done ex_chain.
Proof.
  destruct (PtrBase_ctor_then_dtor_restores 60 ex_chain) as [H1 H2].
  - reflexivity.
  - vm_compute. discriminate.
  - split; [exact H1|]. apply H2, ex_chain_valid.
Defined.

Lemma tryMarkRoot_returns p w h m :
  handles w !! p = Some h -> meta h = Some m -> is_Some (metas w !! m) ->
  exists w', tryMarkRoot p w = Done w'.
Proof.
  intros Hh Hm [o Ho]. unfold tryMarkRoot, getHandle, getMeta, setMark, getMeta.
  rewrite Hh. cbn [deref mbind Run_bind].
  destruct (decide (isRoot h = 1)); [|eauto].
  rewrite Hm. cbn [deref mbind Run_bind]. rewrite Ho.
  cbn [deref mbind Run_bind].
  destruct (decide (markState o = Unmarked)); [|eauto].
  cbn [mret Run_ret mbind Run_bind]. eauto.
Qed.

Lemma insert_snoc_Permutation {A} (l : list A) (i : nat) (p back : A) :
  l !! i = Some p -> l ++ [back] ≡ₚ p :: <[i := back]> l.
Proof.
  revert i. induction l as [|a l IH]; intros i Hi; [discriminate|].
  destruct i as [|i]; cbn in *.
  - injection Hi as ->. constructor. symmetry. apply Permutation_cons_append.
  - rewrite (IH i Hi). apply perm_swap.
Qed.

Lemma registry_inv_index w p :
  registry_inv w -> p ∈ pointers w ->
  exists h, handles w !! p = Some h /\ pointers w !! index h = Some p.
Proof.
  intros Hinv Hin. apply list_elem_of_lookup_1 in Hin as [i Hi].
  destruct (Hinv i p Hi) as (h & Hh & <-). eauto.
Qed.

(** X9. On a registry whose entries know their index, unregistering a
    registered handle returns (the pointees of the registered handles being
    live) and removes exactly that handle: the registry before the call is
    the registry after it together with the handle, the handle is no longer
    in the registry, and every handle keeps its pointee and its flag
    [isRoot]. *)
Theorem unregisterPtr_removes_exactly_the_handle (p : addr) (w : World) :
  registry_inv w -> pointees_live w -> p ∈ pointers w ->
  exists w',
    unregisterPtr p w = Done w' /\
    pointers w ≡ₚ p :: pointers w' /\ (p ∉ pointers w') /\
    forall q h, handles w !! q = Some h ->
      exists h', handles w' !! q = Some h' /\ meta h' = meta h /\
                 isRoot h' = isRoot h.
Proof.
  intros Hinv Hlive Hin.
  assert (Hnot : forall w', unregisterPtr p w = Done w' -> p ∉ pointers w').
  { intros w' H. eapply unregisterPtr_registry_inv; eauto. }
  destruct (registry_inv_index w p Hinv Hin) as (h & Hh & Hslot).
  destruct (last (pointers w)) as [back|] eqn:Hlast;
    [|apply last_None in Hlast; rewrite Hlast in Hin; inversion Hin].
  pose proof Hlast as Hsplit. apply last_Some in Hsplit as [l0 Hl0].
  assert (Hlen : length (pointers w) = S (length l0)).
  { rewrite Hl0, length_app. cbn. lia. }
  assert (Hback : back ∈ pointers w).
  { rewrite Hl0. apply elem_of_app. right. left. }
  destruct (registry_inv_index w back Hinv Hback) as (hp & Hhp & _).
  unfold unregisterPtr. rewrite Hlast. cbn [deref mbind Run_bind].
  destruct (decide (p = back)) as [->|Hne].
  - eexists. split; [reflexivity|]. cbn [pointers handles set_pointers].
    split; [|split].
    + rewrite Hl0 at 1. rewrite Hl0, pop_back_snoc.
      symmetry. apply Permutation_cons_append.
    + apply (Hnot (set_pointers (pop_back (pointers w)) w)).
      unfold unregisterPtr. rewrite Hlast.
      cbn [deref mbind Run_bind]. rewrite decide_True by reflexivity.
      reflexivity.
    + intros q h' Hq. eauto.
  - assert (Hi : (index h < length l0)%nat).
    { apply lookup_lt_Some in Hslot as Hlt.
      destruct (decide (index h = length l0)) as [He|He]; [|lia].
      exfalso. apply Hne. rewrite Hl0, He in Hslot.
      rewrite lookup_app_r, Nat.sub_diag in Hslot by lia.
      cbn in Hslot. congruence. }
    assert (Hl0i : l0 !! index h = Some p).
    { rewrite Hl0, lookup_app_l in Hslot by lia. exact Hslot. }
    assert (Hswapped :
              <[(length (pointers w) - 1)%nat := p]>
                (<[index h := back]> (pointers w))
              = <[index h := back]> l0 ++ [p]).
    { rewrite Hlen, Hl0. rewrite insert_app_l by lia.
      replace (S (length l0) - 1)%nat
        with (length (<[index h := back]> l0) + 0)%nat
        by (rewrite length_insert; lia).
      rewrite insert_app_r. reflexivity. }
    assert (Hrun : forall w',
              unregisterPtr p w = Done w' ->
              pointers w ≡ₚ p :: pointers w' /\ (p ∉ pointers w') /\
              forall q h0, handles w !! q = Some h0 ->
                exists h', handles w' !! q = Some h' /\ meta h' = meta h0 /\
                           isRoot h' = isRoot h0).
    { intros w' H. split; [|split; [apply Hnot, H|]].
      - unfold unregisterPtr, getHandle in H. rewrite Hlast, Hh in H.
        cbn [deref mbind Run_bind] in H.
        rewrite decide_False in H by exact Hne.
        rewrite Hslot in H. cbn [deref mbind Run_bind] in H.
        rewrite Hswapped in H.
        rewrite lookup_app_l in H by (rewrite length_insert; lia).
        rewrite list_lookup_insert_eq in H by lia.
        cbn [deref mbind Run_bind] in H. rewrite Hhp in H.
        cbn [deref mbind Run_bind] in H. rewrite pop_back_snoc in H.
        assert (Hp : pointers w' = <[index h := back]> l0).
        { destruct (meta hp); run_inv; [|reflexivity].
          case_decide; run_inv; [|reflexivity].
          match goal with H : context [(_ <? _)%nat] |- _ =>
            destruct (_ <? _)%nat in H end; run_inv; [|reflexivity].
          apply tryMarkRoot_frame in H as (-> & _). reflexivity. }
        rewrite Hp, Hl0. apply insert_snoc_Permutation, Hl0i.
      - unfold unregisterPtr, getHandle in H. rewrite Hlast, Hh in H.
        cbn [deref mbind Run_bind] in H.
        rewrite decide_False in H by exact Hne.
        rewrite Hslot in H. cbn [deref mbind Run_bind] in H.
        rewrite Hswapped in H.
        rewrite lookup_app_l in H by (rewrite length_insert; lia).
        rewrite list_lookup_insert_eq in H by lia.
        cbn [deref mbind Run_bind] in H. rewrite Hhp in H.
        cbn [deref mbind Run_bind] in H.
        assert (Hhs : handles w' = <[back := with_index (index h) hp]> (handles w)).
        { destruct (meta hp); run_inv; [|reflexivity].
          case_decide; run_inv; [|reflexivity].
          match goal with H : context [(_ <? _)%nat] |- _ =>
            destruct (_ <? _)%nat in H end; run_inv; [|reflexivity].
          apply tryMarkRoot_frame in H as (_ & _ & _ & _ & _ & -> & _).
          reflexivity. }
        intros q h0 Hq. rewrite Hhs.
        destruct (decide (q = back)) as [->|Hqb].
        + rewrite lookup_insert_eq.
          pose proof (eq_trans (eq_sym Hq) Hhp) as [= ->]. eauto.
        + rewrite lookup_insert_ne by congruence. eauto. }
    assert (Hret : exists w', unregisterPtr p w = Done w').
    { unfold unregisterPtr, getHandle. rewrite Hlast, Hh.
      cbn [deref mbind Run_bind]. rewrite decide_False by exact Hne.
      rewrite Hslot. cbn [deref mbind Run_bind]. rewrite Hswapped.
      rewrite lookup_app_l by (rewrite length_insert; lia).
      rewrite list_lookup_insert_eq by lia.
      cbn [deref mbind Run_bind]. rewrite Hhp.
      cbn [deref mbind Run_bind].
      destruct (meta hp) as [m|] eqn:Hm; [|eauto].
      case_decide; [|eauto].
      destruct (_ <? _)%nat; [|eauto].
      eapply (tryMarkRoot_returns back _ (with_index (index h) hp) m).
      - cbn [handles set_pointers set_handles]. apply lookup_insert_eq.
      - exact Hm.
      - cbn [metas set_pointers set_handles]. eapply Hlive; eauto. }
    destruct Hret as [w' Hw']. exists w'. split.
    + unfold unregisterPtr in Hw'. rewrite Hlast in Hw'.
      cbn [deref mbind Run_bind] in Hw'.
      rewrite decide_False in Hw' by exact Hne. exact Hw'.
    + apply Hrun, Hw'.
Qed.

Lemma ex_chain_registry : registry_inv ex_chain.
Proof.
  intros i p Hi. cbn in Hi.
  destruct i as [|[|[|i]]]; try discriminate; injection Hi as <-;
    eexists; (split; [reflexivity|reflexivity]).
Defined.

Lemma ex_chain_pointees_live : pointees_live ex_chain.
Proof.
  intros p h m Hp Hh Hm. cbn in Hp.
  repeat (apply elem_of_cons in Hp as [->|Hp]);
    [| |
     |inversion Hp];
    vm_compute in Hh; injection Hh as <-; cbn in Hm;
    try discriminate; injection Hm as <-; eexists; reflexivity.
Defined.

Lemma unregisterPtr_removes_exactly_the_handle_witness :
  exists w',
    unregisterPtr 50 ex_chain = Done w' /\
    pointers ex_chain ≡ₚ 50 :: pointers w' /\ (50 ∉ pointers w') /\
    forall q h, handles ex_chain !! q = Some h ->
      exists h', handles w' !! q = Some h' /\ meta h' = meta h /\
                 isRoot h' = isRoot h.
Proof.
  apply (unregisterPtr_removes_exactly_the_handle 50 ex_chain
           ex_chain_registry ex_chain_pointees_live).
  left.
Defined.

(** ** Sub-handles learned during the construction of an object *)

(** On a valid set in comparator order the owner lookup finds the meta that
    owns the address. *)
Lemma findOwnerMeta_finds obj w m :
  metaSet_valid w -> metaSet_sorted w -> m ∈ metaSet w -> owns w m obj ->
  findOwnerMeta obj w = Done (Some m).
Proof.
  intros Hv Hs Hin (lo & hi & Hr & Hlo & Hhi).
  destruct (lower_bound_split w (metaSet w) obj Hv)
    as (i & Hi & Hlen & Hbefore & Hat).
  apply list_elem_of_lookup_1 in Hin as [j Hj].
  assert (j = i) as ->.
  { destruct (lt_eq_lt_dec j i) as [[Hlt|Heq]|Hgt]; [|exact Heq|].
    - specialize (Hbefore j m lo hi Hlt Hj Hr). lia.
    - destruct (metaSet w !! i) as [x|] eqn:Hxi.
      + destruct (sorted_lookup_ordered w _ i j x m Hs Hgt Hxi Hj)
          as (lx & hx & ly & hy & Hrx & Hry & Hxy).
        destruct (rangeOf_fun _ _ _ _ _ _ Hr Hry) as [<- <-].
        specialize (Hat x lx hx eq_refl Hrx). lia.
      + apply lookup_ge_None in Hxi. apply lookup_lt_Some in Hj. lia. }
  unfold findOwnerMeta. rewrite Hi. cbn [mbind Run_bind]. rewrite Hj.
  pose proof Hr as (o & ci & Ho & Hc & -> & ->).
  unfold getMeta. rewrite Ho. cbn [deref mbind Run_bind].
  rewrite (containsPtr_range w m o _ _ obj Ho Hr). cbn [mbind Run_bind].
  replace (objPtr o <=? obj) with true by (symmetry; apply Z.leb_le; lia).
  replace (obj <? objPtr o + size ci) with true
    by (symmetry; apply Z.ltb_lt; lia).
  reflexivity.
Qed.








(** ** Insertion into the set *)

Lemma lower_bound_key w l k k' :
  objPtr k = objPtr k' -> lower_bound w l k = lower_bound w l k'.
Proof.
  intros Hk. induction l as [|m l IH]; [reflexivity|].
  cbn [lower_bound]. unfold metaLess. rewrite Hk, IH. reflexivity.
Qed.

Lemma ordered_before_frame w w' x y :
  metas w' = metas w -> classes w' = classes w ->
  ordered_before w x y -> ordered_before w' x y.
Proof.
  intros Hm Hc (lx & hx & ly & hy & Hx & Hy & Hle).
  exists lx, hx, ly, hy. unfold rangeOf in *. rewrite Hm, Hc. auto.
Qed.

Lemma elem_of_drop_inv {A} (x : A) (i : nat) (l : list A) :
  x ∈ drop i l -> x ∈ l.
Proof.
  intros Hx. apply list_elem_of_lookup_1 in Hx as [k Hk].
  rewrite lookup_drop in Hk. eapply list_elem_of_lookup_2, Hk.
Qed.

Lemma addObj_spec (m : addr) (lo hi : Z) (w : World) :
  metaSet_valid w -> metaSet_sorted w -> nonempty_ranges w ->
  rangeOf w m lo hi ->
  exists w',
    addObj m w = Done w' /\
    metaSet_valid w' /\ metaSet_sorted w' /\
    metas w' = metas w /\ classes w' = classes w /\
    ((exists x, x ∈ metaSet w /\ overlaps w x lo hi) -> w' = w) /\
    ((forall x, x ∈ metaSet w -> ~ overlaps w x lo hi) ->
     metaSet w' ≡ₚ m :: metaSet w).
Proof.
  intros Hv Hs Hne Hr.
  pose proof Hr as (o & ci & Ho & Hc & Hlo & Hhi).
  destruct (lower_bound_split w (metaSet w) lo Hv)
    as (i & Hi & Hlen & Hbefore & Hat).
  rewrite (lower_bound_key w _ _ o) in Hi by (cbn; congruence).
  set (ins := take i (metaSet w) ++ m :: drop i (metaSet w)).
  set (inserted :=
         set_nextSweeping
           (if (i <=? nextSweeping w)%nat then S (nextSweeping w)
            else nextSweeping w)
           (set_metaSet ins w)).
  (* the elements from the lower bound on, when the meta goes before them *)
  assert (Hafter : forall e le he,
            metaSet w !! i = Some e -> rangeOf w e le he -> hi <= le ->
            forall x, x ∈ drop i (metaSet w) ->
                      exists lx hx, rangeOf w x lx hx /\ hi <= lx).
  { intros e le he He Hre Hle x Hx.
    apply list_elem_of_lookup_1 in Hx as [k Hk]. rewrite lookup_drop in Hk.
    destruct k as [|k].
    - rewrite Nat.add_0_r, He in Hk. injection Hk as <-. eauto.
    - destruct (sorted_lookup_ordered w _ i (i + S k) e x Hs ltac:(lia) He Hk)
        as (l1 & h1 & l2 & h2 & Hr1 & Hr2 & H12).
      destruct (rangeOf_fun _ _ _ _ _ _ Hre Hr1) as [<- <-].
      assert (le < he)
        by (eapply Hne; [eapply list_elem_of_lookup_2, He|exact Hre]).
      exists l2, h2. split; [exact Hr2|lia]. }
  assert (Htake : forall x, x ∈ take i (metaSet w) ->
                            exists lx hx, rangeOf w x lx hx /\ hx <= lo).
  { intros x Hx. apply elem_of_take in Hx as (j & Hj & Hlt).
    destruct (Hv x) as (lx & hx & Hrx); [eapply list_elem_of_lookup_2, Hj|].
    exists lx, hx. split; [exact Hrx|]. eapply Hbefore; eauto. }
  assert (Hins : (forall x, x ∈ drop i (metaSet w) ->
                            exists lx hx, rangeOf w x lx hx /\ hi <= lx) ->
                 metaSet_valid inserted /\ metaSet_sorted inserted /\
                 metas inserted = metas w /\ classes inserted = classes w /\
                 ((exists x, x ∈ metaSet w /\ overlaps w x lo hi) ->
                  inserted = w) /\
                 ((forall x, x ∈ metaSet w -> ~ overlaps w x lo hi) ->
                  metaSet inserted ≡ₚ m :: metaSet w)).
  { intros Hdrop. split; [|split; [|split; [reflexivity|split;
                                   [reflexivity|split]]]].
    - intros x Hx. change (x ∈ ins) in Hx. unfold ins in Hx.
      change (exists lx hx, rangeOf w x lx hx).
      apply elem_of_app in Hx as [Hx|Hx].
      + apply Hv. apply elem_of_take in Hx as (j & Hj & _).
        eapply list_elem_of_lookup_2, Hj.
      + apply elem_of_cons in Hx as [->|Hx]; [eauto|].
        apply Hv. eapply elem_of_drop_inv, Hx.
    - change (StronglySorted (ordered_before w) ins). unfold ins.
      pose proof Hs as Hs'. unfold metaSet_sorted in Hs'.
      rewrite <- (take_drop i (metaSet w)) in Hs'.
      apply StronglySorted_app in Hs' as (Hcross & Hs1 & Hs2).
      apply StronglySorted_app_2; [|exact Hs1|].
      + intros x1 x2 Hx1 Hx2.
        apply elem_of_cons in Hx2 as [->|Hx2]; [|auto].
        destruct (Htake x1 Hx1) as (lx & hx & Hrx & Hle).
        exists lx, hx, lo, hi. auto.
      + apply StronglySorted_cons. split; [|exact Hs2].
        apply Forall_forall. intros x Hx.
        destruct (Hdrop x Hx) as (lx & hx & Hrx & Hle).
        exists lo, hi, lx, hx. auto.
    - intros (x & Hx & lx & hx & Hrx & H1 & H2). exfalso.
      rewrite <- (take_drop i (metaSet w)) in Hx.
      apply elem_of_app in Hx as [Hx|Hx].
      + destruct (Htake x Hx) as (lx' & hx' & Hrx' & Hle).
        destruct (rangeOf_fun _ _ _ _ _ _ Hrx Hrx') as [<- <-]. lia.
      + destruct (Hdrop x Hx) as (lx' & hx' & Hrx' & Hle).
        destruct (rangeOf_fun _ _ _ _ _ _ Hrx Hrx') as [<- <-]. lia.
    - intros _. change (ins ≡ₚ m :: metaSet w). unfold ins.
      rewrite <- Permutation_middle, take_drop. reflexivity. }
  unfold addObj, getMeta. rewrite Ho. cbn [deref mbind Run_bind].
  rewrite Hi. cbn [mbind Run_bind]. fold ins. fold inserted.
  destruct (metaSet w !! i) as [e|] eqn:He.
  - destruct (Hv e) as (le & he & Hre); [eapply list_elem_of_lookup_2, He|].
    pose proof Hre as (eo & ce & Heo & _).
    rewrite Heo. cbn [deref mbind Run_bind].
    rewrite (metaLess_range w m o lo hi e eo le he Ho Hr Heo Hre).
    cbn [mbind Run_bind mret Run_ret].
    destruct (Z.leb_spec hi le) as [Hle|Hgt].
    + exists inserted. split; [reflexivity|]. apply Hins.
      eapply Hafter; eauto.
    + exists w. split; [reflexivity|]. split; [exact Hv|].
      split; [exact Hs|]. split; [reflexivity|]. split; [reflexivity|].
      split; [reflexivity|].
      intros Hno. exfalso. apply (Hno e).
      * eapply list_elem_of_lookup_2, He.
      * exists le, he. split; [exact Hre|]. split; [lia|].
        eapply Hat; eauto.
  - exists inserted. split; [reflexivity|]. apply Hins.
    intros x Hx. apply lookup_ge_None in He.
    rewrite drop_ge in Hx by lia. inversion Hx.
Qed.

(** X12. [addObj] keeps the set in comparator order and inserts the meta
    unless its payload overlaps the payload of an element: on a valid set
    in comparator order whose payloads are not empty, the call returns, the
    set is again valid and in comparator order, and the meta was inserted
    (the new set is the old one together with it) when no element overlaps
    it, while nothing at all changed when some element does. *)
Theorem addObj_inserts_unless_overlapping
  (m : addr) (lo hi : Z) (w : World) :
  metaSet_valid w -> metaSet_sorted w -> nonempty_ranges w ->
  rangeOf w m lo hi ->
  exists w',
    addObj m w = Done w' /\
    metaSet_valid w' /\ metaSet_sorted w' /\
    metas w' = metas w /\ classes w' = classes w /\
    ((exists x, x ∈ metaSet w /\ overlaps w x lo hi) -> w' = w) /\
    ((forall x, x ∈ metaSet w -> ~ overlaps w x lo hi) ->
     metaSet w' ≡ₚ m :: metaSet w).
Proof. exact (addObj_spec m lo hi w). Qed.

Lemma ex_before_addObj_valid : metaSet_valid ex_before_addObj.
Proof.
  intros m Hm. simpl in Hm.
  apply elem_of_cons in Hm as [->|Hm];
    [|apply elem_of_cons in Hm as [->|Hm]; [|inversion Hm]].
  - exists 1016, 1032. eexists _, _. repeat split; reflexivity.
  - exists 2016, 2024. eexists _, _. repeat split; reflexivity.
Defined.

Lemma ex_before_addObj_sorted : metaSet_sorted ex_before_addObj.
Proof.
  unfold metaSet_sorted. simpl. repeat constructor.
  exists 1016, 1032, 2016, 2024. repeat split.
  - eexists _, _. repeat split; reflexivity.
  - eexists _, _. repeat split; reflexivity.
  - lia.
Defined.

Lemma ex_before_addObj_nonempty : nonempty_ranges ex_before_addObj.
Proof.
  intros m lo hi Hm (o & ci & Ho & Hc & -> & ->). simpl in Hm.
  apply elem_of_cons in Hm as [->|Hm];
    [|apply elem_of_cons in Hm as [->|Hm]; [|inversion Hm]].
  - vm_compute in Ho. injection Ho as <-. vm_compute in Hc.
    injection Hc as <-. simpl. lia.
  - vm_compute in Ho. injection Ho as <-. vm_compute in Hc.
    injection Hc as <-. simpl. lia.
Defined.

Lemma ex_before_addObj_range : rangeOf ex_before_addObj 3000 1500 1508.
Proof. eexists _, _. repeat split; reflexivity. Defined.

Lemma ex_before_addObj_free (x : addr) :
  x ∈ metaSet ex_before_addObj -> ~ overlaps ex_before_addObj x 1500 1508.
Proof.
  intros Hx (lx & hx & (o & ci & Ho & Hc & -> & ->) & H1 & H2). simpl in Hx.
  apply elem_of_cons in Hx as [->|Hx];
    [|apply elem_of_cons in Hx as [->|Hx]; [|inversion Hx]].
  - vm_compute in Ho. injection Ho as <-. vm_compute in Hc.
    injection Hc as <-. simpl in *. lia.
  - vm_compute in Ho. injection Ho as <-. vm_compute in Hc.
    injection Hc as <-. simpl in *. lia.
Defined.

Lemma addObj_inserts_unless_overlapping_witness :
  exists w',
    addObj 3000 ex_before_addObj = Done w' /\
    metaSet w' = [1000; 3000; 2000] /\
    metaSet_valid w' /\ metaSet_sorted w'.
Proof.
  destruct (addObj_inserts_unless_overlapping 3000 1500 1508 ex_before_addObj
              ex_before_addObj_valid ex_before_addObj_sorted
              ex_before_addObj_nonempty ex_before_addObj_range)
    as (w' & Hrun & Hv & Hs & _).
  exists w'. split; [exact Hrun|]. split; [|auto].
  vm_compute in Hrun. injection Hrun as <-. reflexivity.
Defined.

Lemma owns_frame w w' x q :
  metas w' = metas w -> classes w' = classes w -> owns w x q -> owns w' x q.
Proof.
  intros Hm Hc (lo & hi & Hr & Hq). exists lo, hi. split; [|exact Hq].
  unfold rangeOf in *. rewrite Hm, Hc. exact Hr.
Qed.

Lemma findOwnerMeta_sound q w x :
  findOwnerMeta q w = Done (Some x) -> x ∈ metaSet w /\ owns w x q.
Proof.
  unfold findOwnerMeta. intros H. run_inv. rename a into i.
  destruct (metaSet w !! i) as [y|] eqn:Hy; run_inv; [|discriminate].
  unfold getMeta, containsPtr, payloadEnd, getClass in *. run_inv.
  match goal with H : (if ?c then _ else _) = Some x |- _ =>
    destruct c eqn:Hc; [injection H as <-|discriminate H] end.
  apply andb_prop in Hc as [H1 H2].
  apply Z.leb_le in H1. apply Z.ltb_lt in H2.
  split; [eapply list_elem_of_lookup_2, Hy|].
  eexists _, _. split; [|split; eassumption].
  eexists _, _. repeat split; eassumption.
Qed.

(** X13. Insertion and owner lookup agree.  After [addObj] has inserted a
    meta whose payload overlaps no payload of the set, [findOwnerMeta]
    returns that meta for every address of its payload, and returns what it
    returned before the insertion for every other address. *)
Theorem addObj_then_findOwnerMeta (m : addr) (lo hi : Z) (w : World) :
  metaSet_valid w -> metaSet_sorted w -> nonempty_ranges w ->
  rangeOf w m lo hi ->
  (forall x, x ∈ metaSet w -> ~ overlaps w x lo hi) ->
  exists w',
    addObj m w = Done w' /\
    (forall q, lo <= q < hi -> findOwnerMeta q w' = Done (Some m)) /\
    (forall q, ~ lo <= q < hi -> findOwnerMeta q w' = findOwnerMeta q w).
Proof.
  intros Hv Hs Hne Hr Hfree.
  destruct (addObj_spec m lo hi w Hv Hs Hne Hr)
    as (w' & Hrun & Hv' & Hs' & Hm & Hc & _ & Hperm).
  specialize (Hperm Hfree). exists w'. split; [exact Hrun|].
  assert (Hr' : rangeOf w' m lo hi).
  { unfold rangeOf in *. rewrite Hm, Hc. exact Hr. }
  split.
  - intros q Hq. apply findOwnerMeta_finds; auto.
    + rewrite Hperm. left.
    + exists lo, hi. auto.
  - intros q Hq.
    destruct (findOwnerMeta_returns q w Hv) as [[x|] Hx].
    + rewrite Hx. apply findOwnerMeta_sound in Hx as [Hin Hown].
      apply findOwnerMeta_finds; auto.
      * rewrite Hperm. right. exact Hin.
      * eapply owns_frame; eauto.
    + rewrite Hx. destruct (findOwnerMeta_returns q w' Hv') as [[y|] Hy];
        [|exact Hy].
      exfalso. apply findOwnerMeta_sound in Hy as [Hin Hown].
      rewrite Hperm in Hin. apply elem_of_cons in Hin as [->|Hin].
      * destruct Hown as (lo' & hi' & Hr'' & Hq').
        destruct (rangeOf_fun _ _ _ _ _ _ Hr' Hr'') as [<- <-]. lia.
      * assert (Hown' : owns w y q)
          by (eapply (owns_frame w' w); eauto).
        rewrite (findOwnerMeta_finds q w y Hv Hs Hin Hown') in Hx.
        discriminate Hx.
Qed.

Lemma addObj_then_findOwnerMeta_witness :
  exists w',
    addObj 3000 ex_before_addObj = Done w' /\
    findOwnerMeta 1504 w' = Done (Some 3000) /\
    findOwnerMeta 1020 w' = findOwnerMeta 1020 ex_before_addObj.
Proof.
  destruct (addObj_then_findOwnerMeta 3000 1500 1508 ex_before_addObj
              ex_before_addObj_valid ex_before_addObj_sorted
              ex_before_addObj_nonempty ex_before_addObj_range
              ex_before_addObj_free)
    as (w' & Hrun & Hin & Hout).
  exists w'. split; [exact Hrun|]. split; [apply Hin; lia|apply Hout; lia].
Defined.

(** ** The collector running alone never erases a reachable meta *)









Lemma tryMarkRoot_marks p w w' :
  tryMarkRoot p w = Done w' ->
  (forall x, x ∈ grayObjs w -> x ∈ grayObjs w') /\
  (forall m, markOf w' m = markOf w m \/
             (markOf w m = Some Unmarked /\ markOf w' m = Some Gray /\
              m ∈ grayObjs w')) /\
  (forall h m, handles w !! p = Some h -> isRoot h = 1 -> meta h = Some m ->
               markOf w' m <> Some Unmarked).
Proof.
  unfold tryMarkRoot, getHandle, getMeta. intros H. run_inv.
  rename a into h. case_decide as Hroot; run_inv.
  - rename a into m, a0 into o. case_decide as Hu; run_inv.
    + match goal with Hs : setMark _ _ _ = Done _ |- _ =>
        apply setMark_frame in Hs as (o' & Ho' & ->) end.
      assert (o' = o) as -> by congruence.
      cbn [grayObjs set_grayObjs set_metas]. split; [|split].
      * intros x Hx. right. exact Hx.
      * intros m'. unfold markOf. cbn [metas set_grayObjs set_metas].
        destruct (decide (m' = m)) as [->|Hne].
        -- right. rewrite lookup_insert_eq, Ho'. cbn.
           split; [congruence|]. split; [reflexivity|left].
        -- left. rewrite lookup_insert_ne by congruence. reflexivity.
      * intros h' m' Hh' _ Hm'. assert (h' = h) as -> by congruence.
        assert (m' = m) as -> by congruence.
        unfold markOf. cbn [metas set_grayObjs set_metas].
        rewrite lookup_insert_eq. cbn. discriminate.
    + split; [auto|]. split; [auto|].
      intros h' m' Hh' _ Hm'. assert (h' = h) as -> by congruence.
      assert (m' = m) as -> by congruence.
      unfold markOf. rewrite Hrun1. cbn. congruence.
  - split; [auto|]. split; [auto|]. intros h' m' Hh'.
    assert (h' = h) as -> by congruence. congruence.
Qed.



























(** ** The marks of a collector that runs alone are exact *)

























(** ** The scanned roots under handle operations *)

(** X16. The write barrier repairs the marking of the roots.  Suppose the
    pointee of every root handle the scan has passed is marked, with the
    possible exception of the handle [p] (whose pointee was just changed),
    and the entries of the registry know their index.  After
    [onPointeeChanged] on [p] the pointee of every root handle the scan has
    passed is marked, [p] included. *)
Theorem onPointeeChanged_restores_the_scanned_roots
  (p : addr) (w w' : World) :
  registry_inv w ->
  (forall i q h m, (i < scanned w)%nat -> pointers w !! i = Some q ->
     q <> p -> handles w !! q = Some h -> isRoot h = 1 -> meta h = Some m ->
     markOf w m <> Some Unmarked) ->
  onPointeeChanged p w = Done w' ->
  roots_marked_upto (scanned w') w'.
Proof.
  intros Hinv Hexcept H.
  destruct (onPointeeChanged_spec p w w' H)
    as ((Hp & _ & _ & Hn & Hst & Hh & _) & _ & Hmarks & _).
  assert (Hmono : forall m, markOf w m <> Some Unmarked ->
                            markOf w' m <> Some Unmarked).
  { intros m Hm. rewrite Hmarks by auto. exact Hm. }
  assert (Hsc : scanned w' = scanned w)
    by (unfold scanned; rewrite Hst, Hn, Hp; reflexivity).
  intros i q h m Hi Hq Hhq Hroot Hmeta.
  rewrite Hsc in Hi. rewrite Hp in Hq. rewrite Hh in Hhq.
  destruct (decide (q = p)) as [->|Hne];
    [|apply Hmono; eapply Hexcept; eauto].
  destruct (Hinv i p Hq) as (h0 & Hh0 & Hidx).
  pose proof (eq_trans (eq_sym Hhq) Hh0) as [= <-].
  unfold onPointeeChanged, getHandle in H. rewrite Hhq in H.
  cbn [deref mbind Run_bind] in H. rewrite Hmeta in H.
  unfold scanned in Hi. destruct (state w) eqn:Hstate.
  - replace (index h <? nextRootMarking w)%nat with true in H
      by (symmetry; apply Nat.ltb_lt; lia).
    apply tryMarkRoot_marks in H as (_ & _ & Hscan). eapply Hscan; eauto.
  - apply tryMarkRoot_marks in H as (_ & _ & Hscan). eapply Hscan; eauto.
  - lia.
Qed.

Lemma onPointeeChanged_restores_the_scanned_roots_witness :
  exists w',
    onPointeeChanged 50 ex_marking = Done w' /\
    roots_marked_upto (scanned w') w'.
Proof.
  eexists. split; [vm_compute; reflexivity|].
  apply (onPointeeChanged_restores_the_scanned_roots 50 ex_marking).
  - intros i p Hi. cbn in Hi.
    destruct i as [|[|[|i]]]; try discriminate; injection Hi as <-;
      eexists; (split; [reflexivity|reflexivity]).
  - intros i q h m _ Hq Hne Hh Hroot Hm. cbn in Hq.
    destruct i as [|[|[|i]]]; try discriminate; injection Hq as <-;
      [congruence| |]; vm_compute in Hh; injection Hh as <-;
      cbn in Hroot; discriminate.
  - vm_compute. reflexivity.
Defined.

Lemma unregisterPtr_cases (p : addr) (w w' : World) :
  registry_inv w -> p ∈ pointers w -> unregisterPtr p w = Done w' ->
  exists l0 back hb,
    pointers w = l0 ++ [back] /\ handles w !! back = Some hb /\
    ((p = back /\ w' = set_pointers l0 w) \/
     (p <> back /\
      exists h,
        handles w !! p = Some h /\ l0 !! index h = Some p /\
        ((w' = set_pointers (<[index h := back]> l0)
                 (set_handles
                    (<[back := with_index (index h) hb]> (handles w)) w) /\
          ~ (is_Some (meta hb) /\ state w = RootMarking /\
             (index h < nextRootMarking w)%nat)) \/
         (is_Some (meta hb) /\ state w = RootMarking /\
          (index h < nextRootMarking w)%nat /\
          tryMarkRoot back
            (set_pointers (<[index h := back]> l0)
               (set_handles
                  (<[back := with_index (index h) hb]> (handles w)) w))
          = Done w')))).
Proof.
  intros Hinv Hin H.
  destruct (registry_inv_index w p Hinv Hin) as (h & Hh & Hslot).
  destruct (last (pointers w)) as [back|] eqn:Hlast;
    [|apply last_None in Hlast; rewrite Hlast in Hin; inversion Hin].
  pose proof Hlast as Hsplit. apply last_Some in Hsplit as [l0 Hl0].
  assert (Hlen : length (pointers w) = S (length l0)).
  { rewrite Hl0, length_app. cbn. lia. }
  assert (Hback : back ∈ pointers w).
  { rewrite Hl0. apply elem_of_app. right. left. }
  destruct (registry_inv_index w back Hinv Hback) as (hb & Hhb & _).
  exists l0, back, hb. split; [exact Hl0|]. split; [exact Hhb|].
  unfold unregisterPtr in H. rewrite Hlast in H.
  cbn [deref mbind Run_bind] in H.
  destruct (decide (p = back)) as [->|Hne].
  - left. split; [reflexivity|]. run_inv. rewrite Hl0, pop_back_snoc.
    reflexivity.
  - right. split; [exact Hne|]. exists h. split; [exact Hh|].
    assert (Hi : (index h < length l0)%nat).
    { apply lookup_lt_Some in Hslot as Hlt.
      destruct (decide (index h = length l0)) as [He|He]; [|lia].
      exfalso. apply Hne. rewrite Hl0, He in Hslot.
      rewrite lookup_app_r, Nat.sub_diag in Hslot by lia.
      cbn in Hslot. congruence. }
    assert (Hl0i : l0 !! index h = Some p).
    { rewrite Hl0, lookup_app_l in Hslot by lia. exact Hslot. }
    split; [exact Hl0i|].
    assert (Hswapped :
              <[(length (pointers w) - 1)%nat := p]>
                (<[index h := back]> (pointers w))
              = <[index h := back]> l0 ++ [p]).
    { rewrite Hlen, Hl0. rewrite insert_app_l by lia.
      replace (S (length l0) - 1)%nat
        with (length (<[index h := back]> l0) + 0)%nat
        by (rewrite length_insert; lia).
      rewrite insert_app_r. reflexivity. }
    unfold getHandle in H. rewrite Hh in H. cbn [deref mbind Run_bind] in H.
    rewrite Hslot in H. cbn [deref mbind Run_bind] in H.
    rewrite Hswapped in H.
    rewrite lookup_app_l in H by (rewrite length_insert; lia).
    rewrite list_lookup_insert_eq in H by lia.
    cbn [deref mbind Run_bind] in H. rewrite Hhb in H.
    cbn [deref mbind Run_bind] in H. rewrite pop_back_snoc in H.
    destruct (meta hb) as [m|] eqn:Hm.
    + cbn [state set_pointers set_handles nextRootMarking] in H.
      destruct (decide (state w = RootMarking)) as [Hst|Hst].
      * destruct (Nat.ltb_spec (index h) (nextRootMarking w)) as [Hlt|Hge].
        -- right. split; [eauto|]. auto.
        -- run_inv. left. split; [reflexivity|]. intros (_ & _ & Hlt). lia.
      * run_inv. left. split; [reflexivity|]. intros (_ & Hst' & _).
        contradiction.
    + run_inv. left. split; [reflexivity|]. intros ([m Hm'] & _).
      discriminate.
Qed.

(** X17. Unregistering a handle keeps the scanned roots marked.  When the
    last entry of the registry takes the slot of the unregistered handle it
    moves from behind the cursor of the root-marking loop to a slot the
    loop may have passed already, and [unregisterPtr] then marks its
    pointee; so if the pointee of every root handle the scan had passed was
    marked before the call, it is after the call. *)
Theorem unregisterPtr_keeps_the_scanned_roots_marked
  (p : addr) (w w' : World) :
  registry_inv w -> p ∈ pointers w ->
  roots_marked_upto (scanned w) w ->
  unregisterPtr p w = Done w' ->
  roots_marked_upto (scanned w') w'.
Proof.
  intros Hinv Hin Hroots H.
  destruct (unregisterPtr_cases p w w' Hinv Hin H)
    as (l0 & back & hb & Hl0 & Hhb &
        [[-> ->]|(Hne & h & Hh & Hl0i & Hcase)]).
  - (* the handle is the last entry *)
    intros i q hq m Hi Hq Hhq Hroot Hmeta.
    cbn [pointers handles set_pointers] in Hq, Hhq.
    assert (Hlt : (i < length l0)%nat) by (eapply lookup_lt_Some, Hq).
    apply (Hroots i q hq m); auto.
    + unfold scanned in *. cbn [state pointers set_pointers] in Hi.
      cbn [nextRootMarking set_pointers] in Hi.
      destruct (state w); auto. rewrite Hl0, length_app. cbn. lia.
    + rewrite Hl0, lookup_app_l by lia. exact Hq.
  - set (w1 := set_pointers (<[index h := back]> l0)
                 (set_handles
                    (<[back := with_index (index h) hb]> (handles w)) w))
      in *.
    assert (Hi0 : (index h < length l0)%nat) by (eapply lookup_lt_Some, Hl0i).
    assert (Hbackidx : pointers w !! length l0 = Some back).
    { rewrite Hl0, lookup_app_r, Nat.sub_diag by lia. reflexivity. }
    (* the entries that did not move *)
    assert (Hold : forall i q hq m,
              (i < scanned w1)%nat -> i <> index h ->
              pointers w1 !! i = Some q -> handles w1 !! q = Some hq ->
              isRoot hq = 1 -> meta hq = Some m ->
              markOf w m <> Some Unmarked).
    { intros i q hq m Hi Hni Hq Hhq Hroot Hmeta. unfold w1 in Hq, Hhq.
      cbn [pointers handles set_pointers set_handles] in Hq, Hhq.
      assert (Hlt : (i < length l0)%nat).
      { apply lookup_lt_Some in Hq. rewrite length_insert in Hq. exact Hq. }
      rewrite list_lookup_insert_ne in Hq by congruence.
      assert (Hqw : pointers w !! i = Some q)
        by (rewrite Hl0, lookup_app_l by lia; exact Hq).
      assert (q <> back).
      { intros ->. pose proof (registry_inv_inj w _ _ _ Hinv Hqw Hbackidx).
        lia. }
      rewrite lookup_insert_ne in Hhq by congruence.
      apply (Hroots i q hq m); auto.
      unfold scanned in *. unfold w1 in Hi.
      cbn [state pointers nextRootMarking set_pointers set_handles] in Hi.
      destruct (state w); auto. rewrite Hl0, length_app. cbn. lia. }
    destruct Hcase as [[-> Hno]|(Hsome & Hst & Hlt & Htry)].
    + intros i q hq m Hi Hq Hhq Hroot Hmeta.
      destruct (decide (i = index h)) as [->|Hni]; [|eapply Hold; eauto].
      unfold w1 in Hq, Hhq.
      cbn [pointers handles set_pointers set_handles] in Hq, Hhq.
      rewrite list_lookup_insert_eq in Hq by lia. injection Hq as <-.
      rewrite lookup_insert_eq in Hhq. injection Hhq as <-.
      cbn [isRoot meta with_index] in Hroot, Hmeta.
      apply (Hroots (length l0) back hb m); auto.
      unfold scanned in *. unfold w1 in Hi.
      cbn [state pointers nextRootMarking set_pointers set_handles] in Hi.
      destruct (state w) eqn:Hst.
      * exfalso. apply Hno. rewrite Hmeta. eauto.
      * rewrite Hl0, length_app. cbn. lia.
      * lia.
    + pose proof (tryMarkRoot_frame _ _ _ Htry)
        as (Hp & _ & _ & Hn & Hs & Hhs & _).
      pose proof (tryMarkRoot_marks _ _ _ Htry) as (_ & Hmarks & Hscan).
      assert (Hsc : scanned w' = scanned w1)
        by (unfold scanned; rewrite Hs, Hn, Hp; reflexivity).
      intros i q hq m Hi Hq Hhq Hroot Hmeta.
      rewrite Hsc in Hi. rewrite Hp in Hq. rewrite Hhs in Hhq.
      destruct (decide (i = index h)) as [->|Hni].
      * unfold w1 in Hq. cbn [pointers set_pointers set_handles] in Hq.
        rewrite list_lookup_insert_eq in Hq by lia. injection Hq as <-.
        eapply Hscan; eauto.
      * assert (Hm : markOf w m <> Some Unmarked) by (eapply Hold; eauto).
        destruct (Hmarks m) as [He|(_ & He & _)].
        -- rewrite He. exact Hm.
        -- rewrite He. discriminate.
Qed.

Lemma unregisterPtr_keeps_the_scanned_roots_marked_witness :
  exists w',
    unregisterPtr 1016 ex_marking = Done w' /\
    roots_marked_upto (scanned w') w'.
Proof.
  eexists. split; [vm_compute; reflexivity|].
  apply (unregisterPtr_keeps_the_scanned_roots_marked 1016 ex_marking).
  - intros i p Hi. cbn in Hi.
    destruct i as [|[|[|i]]]; try discriminate; injection Hi as <-;
      eexists; (split; [reflexivity|reflexivity]).
  - apply list_elem_of_In. cbn. auto.
  - intros i q h m _ Hq Hh Hroot Hm. cbn in Hq.
    destruct i as [|[|[|i]]]; try discriminate; injection Hq as <-;
      vm_compute in Hh; injection Hh as <-; cbn in Hroot, Hm;
      try discriminate.
    injection Hm as <-. vm_compute. discriminate.
  - vm_compute. reflexivity.
Defined.

End TgcTheory.

Module GcPtrTheory.
Import GcPtr.

(** ** Move assignment *)

Lemma isRoot_handles p g b g' :
  isRoot p g = Done (b, g') ->
  pointerUpdates g' = pointerUpdates g /\
  forall (q : addr) h, handles g !! q = Some h ->
    exists h', handles g' !! q = Some h' /\ ptr h' = ptr h /\
               objInfo h' = objInfo h.
Proof.
  unfold isRoot, getHandle. intros H.
  destruct (handles g !! p) as [a|] eqn:Hp; [|discriminate].
  cbn [deref mbind Run_bind] in H.
  destruct (owner a) eqn:Ho; run_inv.
  - assert (Hkeep : forall (q : addr) h, handles g !! q = Some h ->
              exists h', <[p := with_owner (OwnerIs a0) a]> (handles g) !! q
                         = Some h' /\ ptr h' = ptr h /\ objInfo h' = objInfo h).
    { intros q h Hq. destruct (decide (q = p)) as [->|Hne].
      - rewrite lookup_insert_eq.
        pose proof (eq_trans (eq_sym Hp) Hq) as Heq. injection Heq as <-.
        eexists. split; [reflexivity|]. split; reflexivity.
      - rewrite lookup_insert_ne by congruence. eauto. }
    destruct a0 as [ow|]; run_inv.
    + case_decide; run_inv; split; try reflexivity; exact Hkeep.
    + split; [reflexivity|exact Hkeep].
  - split; [reflexivity|]. eauto.
Qed.

Lemma markAsRoot_handles p g g' :
  markAsRoot p g = Done g' ->
  pointerUpdates g' = pointerUpdates g /\
  forall (q : addr) h, handles g !! q = Some h ->
    exists h', handles g' !! q = Some h' /\ ptr h' = ptr h /\
               objInfo h' = objInfo h.
Proof.
  unfold markAsRoot. intros H. run_inv.
  destruct (objInfo a); run_inv; [|split; eauto].
  destruct a1 as [root g1].
  match goal with Hr : isRoot _ _ = Done _ |- _ =>
    apply isRoot_handles in Hr as [Hu Hk] end.
  destruct root; run_inv; [|split; assumption].
  case_decide; run_inv; split; assumption.
Qed.

Lemma onPointerUpdate_handles p g g' :
  onPointerUpdate p g = Done g' ->
  pointerUpdates g' = pointerUpdates g ++ [p] /\
  forall (q : addr) h, handles g !! q = Some h ->
    exists h', handles g' !! q = Some h' /\ ptr h' = ptr h /\
               objInfo h' = objInfo h.
Proof.
  unfold onPointerUpdate, GC_onPointerUpdate. intros H.
  case_decide; run_inv.
  - apply markAsRoot_handles in H as [Hu Hk]. split; assumption.
  - split; [reflexivity|]. eauto.
Qed.

(** What the move assignment does, for a target and a source that are
    different handles: the target takes the pointee and the meta of the
    source, the write barrier runs on the target, the meta of the source
    becomes null, and the field [ptr] of the source is left as it was, so its
    conversion to [bool] does not change. *)
Lemma move_assign_spec (this r : addr) (hr : gc_ptr) (g g' : GC) :
  this <> r -> handles g !! r = Some hr ->
  move_assign this r g = Done g' ->
  (exists ht, handles g' !! this = Some ht /\
              ptr ht = ptr hr /\ objInfo ht = objInfo hr) /\
  pointerUpdates g' = pointerUpdates g ++ [this] /\
  (exists hs, handles g' !! r = Some hs /\
              objInfo hs = None /\ operator_eq hs null_gc_ptr = true /\
              ptr hs = ptr hr /\ operator_bool hs = operator_bool hr).
Proof.
  intros Hne Hr H. unfold move_assign, getHandle in H.
  rewrite Hr in H. cbn [deref mbind Run_bind] in H.
  apply run_bind_done in H as (g1 & Hreset & H).
  unfold reset, getHandle in Hreset.
  destruct (handles g !! this) as [ht0|] eqn:Ht; [|discriminate].
  cbn [deref mbind Run_bind] in Hreset.
  apply onPointerUpdate_handles in Hreset as [Hu Hk].
  cbn [handles set_handles pointerUpdates] in Hu, Hk.
  destruct (Hk r hr) as (hs & Hhs & Hp & Hi);
    [rewrite lookup_insert_ne by congruence; exact Hr|].
  destruct (Hk this (with_objInfo (objInfo hr) (with_ptr (ptr hr) ht0)))
    as (ht & Hht & Hpt & Hit); [apply lookup_insert_eq|].
  rewrite Hhs in H. cbn [deref mbind Run_bind mret Run_ret] in H.
  injection H as <-. cbn [handles set_handles pointerUpdates].
  split; [|split].
  - exists ht. rewrite lookup_insert_ne by congruence. auto.
  - exact Hu.
  - eexists. split; [apply lookup_insert_eq|].
    unfold operator_bool. cbn. rewrite Hp. auto.
Qed.

(** C9, evaluated on [ex_gc] for [handle10 = move(handle20)].  The target
    holds the former pointee and meta of the source and the write barrier
    ran on the target (it grayed the pointee); the meta of the source is
    null and it compares equal to the null handle.  But [ptr] of the source
    still is 2016: its conversion to [bool] is [true]. *)
Theorem move_assign_source_still_converts_to_true :
  exists g' target source,
    move_assign 10 20 ex_gc = Done g' /\
    handles g' !! 10 = Some target /\ handles g' !! 20 = Some source /\
    ptr target = 2016 /\ objInfo target = Some 2000 /\
    pointerUpdates g' = [10] /\ grayObjs g' = [2000] /\
    objInfo source = None /\ operator_eq source null_gc_ptr = true /\
    ptr source = 2016 /\ operator_bool source = true.
Proof.
  eexists _, _, _. split; [vm_compute; reflexivity|].
  split; [vm_compute; reflexivity|]. split; [vm_compute; reflexivity|].
  repeat split.
Qed.

(** The older collector of [gcptr.cpp] has no test for null in its marking
    loop: a gray object with a null member handle makes the step fault. *)
Lemma markingBody_null_member_faults :
  markingBody 1000 [] ex_gc_null_member = Fault.
Proof. vm_compute. reflexivity. Qed.

(** ** The marking step *)

Lemma pushMembers_handles offsets :
  forall o g g', pushMembers offsets o g = Done g' -> handles g' = handles g.
Proof.
  induction offsets as [|off offsets IH]; intros o g g' H;
    cbn [pushMembers] in H; run_inv; [reflexivity|].
  case_decide; apply IH in H; exact H.
Qed.

Lemma pushMembers_null offsets :
  forall (o : addr) (g : GC) (off : Z) (mp : gc_ptr),
    off ∈ offsets -> handles g !! (o + off) = Some mp -> objInfo mp = None ->
    pushMembers offsets o g = Fault.
Proof.
  induction offsets as [|off' offsets IH]; intros o g off mp Hin Hmp Hnull.
  - inversion Hin.
  - cbn [pushMembers]. unfold getHandle, getInfo.
    match goal with |- context [deref ?t] =>
      destruct t as [mp'|] eqn:Hmp'; [|reflexivity] end.
    cbn [deref mbind Run_bind].
    destruct (objInfo mp') as [i|] eqn:Hi; [|reflexivity].
    cbn [deref mbind Run_bind].
    match goal with |- context [deref ?t] =>
      destruct t as [x|]; [|reflexivity] end.
    cbn [deref mbind Run_bind].
    assert (Htail : off ∈ offsets).
    { apply elem_of_cons in Hin as [->|Hin]; [|exact Hin].
      pose proof (eq_trans (eq_sym Hmp) Hmp') as [= ->]. congruence. }
    case_decide; eapply IH; eauto.
Qed.

(** X18. The marking loop of [gcptr.cpp] reads the color through the info
    pointer of every member handle without a test for null.  In state
    [Marking], when the object on top of the work list has, at one of the
    member offsets of its class, a handle whose info pointer is null, a
    call of [GcCollect] with a step count other than zero dereferences a
    null pointer instead of returning. *)
Theorem collect_faults_on_null_member
  (fuel : nat) (stepCnt : Z) (g : GC) (i : addr) (rest : list addr)
  (x : ObjInfo) (ci : ClassInfo) (off : Z) (mp : gc_ptr) :
  state g = Marking -> grayObjs g = i :: rest -> stepCnt <> 0 ->
  infos g !! i = Some x -> classes g !! clsInfo x = Some ci ->
  off ∈ memPtrOffsets ci ->
  handles g !! (obj x + off) = Some mp -> objInfo mp = None ->
  collect (S fuel) stepCnt g = Fault.
Proof.
  intros Hst Hg Hn Hx Hc Hoff Hmp Hnull.
  unfold collect. rewrite Hst. cbn [markingLoop]. rewrite Hg.
  replace (stepCnt =? 0) with false by (symmetry; apply Z.eqb_neq, Hn).
  unfold markingBody, getInfo, getClass. rewrite Hx.
  cbn [deref mbind Run_bind]. cbn [classes set_grayObjs set_infos].
  rewrite Hc. cbn [deref mbind Run_bind].
  rewrite (pushMembers_null _ _ _ off mp Hoff); [reflexivity|exact Hmp|exact Hnull].
Qed.

Lemma collect_faults_on_null_member_witness :
  collect 1 1 ex_gc_null_member = Fault.
Proof.
  apply (collect_faults_on_null_member 0 1 ex_gc_null_member 1000 []
           (mkObjInfo 1016 100 Gray) (mkClassInfo true 8 [0]) 0
           (mk_gc_ptr (OwnerIs (Some 1000)) None 0)).
  - reflexivity.
  - reflexivity.
  - discriminate.
  - reflexivity.
  - reflexivity.
  - left.
  - reflexivity.
  - reflexivity.
Defined.

(** ** What marking leaves unchanged *)

Lemma marking_keeps_refl g : marking_keeps g g.
Proof.
  repeat split; auto. intros i. destruct (infos g !! i); constructor. auto.
Qed.

Lemma marking_keeps_trans g1 g2 g3 :
  marking_keeps g1 g2 -> marking_keeps g2 g3 -> marking_keeps g1 g3.
Proof.
  intros (Hp & Hs & Hst & Hi) (Hp' & Hs' & Hst' & Hi').
  repeat split; try congruence. intros i.
  specialize (Hi i). specialize (Hi' i).
  destruct Hi as [x1 x2 [Ho Hc]|]; inversion Hi' as [? x3 [Ho' Hc']|];
    subst; constructor. split; congruence.
Qed.

Lemma marking_keeps_color g i x c :
  infos g !! i = Some x ->
  marking_keeps g (set_infos (<[i := with_color c x]> (infos g)) g).
Proof.
  intros Hx. repeat split; auto. intros j. cbn [infos set_infos].
  destruct (decide (j = i)) as [->|Hne].
  - rewrite lookup_insert_eq, Hx. constructor. auto.
  - rewrite lookup_insert_ne by congruence.
    destruct (infos g !! j); constructor. auto.
Qed.

Lemma marking_keeps_fields g g' :
  pointers g' = pointers g -> objInfoSet g' = objInfoSet g ->
  state g' = state g -> infos g' = infos g -> marking_keeps g g'.
Proof.
  intros Hp Hs Hst Hi. repeat split; auto. intros i. rewrite Hi.
  destruct (infos g !! i); constructor. auto.
Qed.

Lemma isRoot_keeps p g b g' :
  isRoot p g = Done (b, g') -> marking_keeps g g' /\ grayObjs g' = grayObjs g.
Proof.
  unfold isRoot, getHandle, getInfo, getClass. intros H. run_inv.
  destruct (owner a); run_inv.
  - match goal with H : context [match ?o with Some _ => _ | None => _ end] |- _ =>
      destruct o end; run_inv.
    + case_decide; run_inv;
        (split; [apply marking_keeps_fields; reflexivity|reflexivity]).
    + split; [apply marking_keeps_fields; reflexivity|reflexivity].
  - split; [apply marking_keeps_refl|reflexivity].
Qed.

Lemma markAsRoot_keeps p g g' :
  markAsRoot p g = Done g' -> marking_keeps g g'.
Proof.
  unfold markAsRoot, getInfo. intros H. run_inv.
  destruct (objInfo a); run_inv; [|apply marking_keeps_refl].
  destruct a1 as [root g1].
  match goal with Hr : isRoot _ _ = Done _ |- _ =>
    apply isRoot_keeps in Hr as [Hk _] end.
  destruct root; run_inv; [|exact Hk].
  case_decide; run_inv; [|exact Hk].
  eapply marking_keeps_trans; [exact Hk|].
  eapply marking_keeps_trans; [eapply marking_keeps_color; eassumption|].
  apply marking_keeps_fields; reflexivity.
Qed.

Lemma markRoots_keeps ps :
  forall g g', markRoots ps g = Done g' -> marking_keeps g g'.
Proof.
  induction ps as [|p ps IH]; intros g g' H; cbn [markRoots] in H; run_inv.
  - apply marking_keeps_refl.
  - eapply marking_keeps_trans; [eapply markAsRoot_keeps; eassumption|].
    apply IH, H.
Qed.

Lemma pushMembers_keeps offsets :
  forall o g g', pushMembers offsets o g = Done g' -> marking_keeps g g'.
Proof.
  induction offsets as [|off offsets IH]; intros o g g' H;
    cbn [pushMembers] in H; run_inv; [apply marking_keeps_refl|].
  case_decide.
  - eapply marking_keeps_trans; [|apply (IH _ _ _ H)].
    apply marking_keeps_fields; reflexivity.
  - apply (IH _ _ _ H).
Qed.

Lemma markingBody_keeps i rest g g' :
  markingBody i rest g = Done g' -> marking_keeps g g'.
Proof.
  unfold markingBody, getInfo, getClass. intros H. run_inv.
  eapply marking_keeps_trans; [|eapply pushMembers_keeps; eassumption].
  eapply marking_keeps_trans; [eapply marking_keeps_color; eassumption|].
  apply marking_keeps_fields; reflexivity.
Qed.

Lemma markingLoop_keeps fuel :
  forall n g g', markingLoop fuel n g = Done g' -> marking_keeps g g'.
Proof.
  induction fuel as [|fuel IH]; intros n g g' H; cbn [markingLoop] in H.
  - destruct (grayObjs g); run_inv; [apply marking_keeps_refl|].
    destruct (n =? 0); run_inv. apply marking_keeps_refl.
  - destruct (grayObjs g) as [|i rest]; run_inv; [apply marking_keeps_refl|].
    destruct (n =? 0); run_inv; [apply marking_keeps_refl|].
    eapply marking_keeps_trans; [eapply markingBody_keeps; eassumption|].
    apply (IH _ _ _ H).
Qed.

(** The marking loop stops when the work list is empty or the steps are
    used up. *)
Lemma markingLoop_stops fuel :
  forall n g g', markingLoop fuel n g = Done g' ->
    grayObjs g' = [] \/ 0 <= n.
Proof.
  induction fuel as [|fuel IH]; intros n g g' H; cbn [markingLoop] in H.
  - destruct (grayObjs g) eqn:Hg; run_inv; [auto|].
    destruct (Z.eqb_spec n 0); run_inv. right. lia.
  - destruct (grayObjs g) as [|i rest] eqn:Hg; run_inv; [auto|].
    destruct (Z.eqb_spec n 0); run_inv; [right; lia|].
    destruct (IH _ _ _ H) as [He|Hn]; [auto|right; lia].
Qed.

Lemma deref_fuel {A} (o : option A) : deref o <> OutOfFuel.
Proof. destruct o; discriminate. Qed.

Ltac fuel_step :=
  first [ discriminate
        | apply deref_fuel
        | apply TgcTheory.run_bind_fuel; [|intros ? _] ].

Lemma lower_bound_fuel g l p : lower_bound g l p <> OutOfFuel.
Proof.
  induction l as [|i l IH]; [discriminate|]. cbn [lower_bound].
  unfold getInfo, lessThanTemp, getClass.
  fuel_step; [fuel_step|]. fuel_step; [repeat fuel_step|].
  match goal with |- context [if ?b then _ else _] => destruct b end;
    [|discriminate].
  fuel_step; [exact IH|discriminate].
Qed.

Lemma findOwnerObjInfo_fuel p g : findOwnerObjInfo p g <> OutOfFuel.
Proof.
  unfold findOwnerObjInfo, getInfo, containsPointer, getClass.
  fuel_step; [apply lower_bound_fuel|].
  match goal with |- context [match ?o with Some _ => _ | None => _ end] =>
    destruct o end; [|discriminate].
  repeat fuel_step.
Qed.

Lemma isRoot_fuel p g : isRoot p g <> OutOfFuel.
Proof.
  unfold isRoot, getHandle, getInfo, getClass.
  fuel_step; [fuel_step|].
  match goal with |- context [owner ?h] => destruct (owner h) end;
    [|discriminate].
  fuel_step; [apply findOwnerObjInfo_fuel|].
  match goal with |- context [match ?o with Some _ => _ | None => _ end] =>
    destruct o end; [|discriminate].
  fuel_step; [fuel_step|]. fuel_step; [fuel_step|].
  case_decide; discriminate.
Qed.

Lemma markAsRoot_fuel p g : markAsRoot p g <> OutOfFuel.
Proof.
  unfold markAsRoot, getHandle, getInfo.
  fuel_step; [fuel_step|].
  match goal with |- context [objInfo ?h] => destruct (objInfo h) end;
    [|discriminate].
  fuel_step; [apply isRoot_fuel|].
  match goal with |- context [let '(_, _) := ?a in _] => destruct a as [[|] ?] end;
    [|discriminate].
  fuel_step; [fuel_step|]. case_decide; discriminate.
Qed.

Lemma markRoots_fuel ps : forall g, markRoots ps g <> OutOfFuel.
Proof.
  induction ps as [|p ps IH]; intros g; [discriminate|]. cbn [markRoots].
  fuel_step; [apply markAsRoot_fuel|apply IH].
Qed.

Lemma pushMembers_fuel offsets :
  forall o g, pushMembers offsets o g <> OutOfFuel.
Proof.
  induction offsets as [|off offsets IH]; intros o g; [discriminate|].
  cbn [pushMembers]. unfold getHandle, getInfo.
  fuel_step; [fuel_step|]. fuel_step; [fuel_step|]. fuel_step; [fuel_step|].
  case_decide; apply IH.
Qed.

Lemma markingBody_fuel i rest g : markingBody i rest g <> OutOfFuel.
Proof.
  unfold markingBody, getInfo, getClass.
  fuel_step; [fuel_step|]. fuel_step; [fuel_step|]. apply pushMembers_fuel.
Qed.

Lemma markingLoop_fuel fuel :
  forall n g, 0 <= n -> (Z.to_nat n <= fuel)%nat ->
              markingLoop fuel n g <> OutOfFuel.
Proof.
  induction fuel as [|fuel IH]; intros n g Hn Hf; cbn [markingLoop].
  - destruct (grayObjs g); [discriminate|].
    destruct (Z.eqb_spec n 0); [discriminate|lia].
  - destruct (grayObjs g) as [|i rest]; [discriminate|].
    destruct (Z.eqb_spec n 0); [discriminate|].
    fuel_step; [apply markingBody_fuel|]. apply IH; lia.
Qed.

(** X19. [GcCollect] destroys objects only in state [Sweeping].  A call in
    state [Idle] or [Marking] returns 0, calls no destructor and leaves the
    registry, the set and the payload and class of every info as they are;
    from [Idle] the collector goes to [Marking], and from [Marking] it stays
    there or goes to [Sweeping] with an empty work list, so a cycle takes at
    least three calls.  With a step count that is zero or more the marking
    loop runs at most that many times. *)
Theorem collect_destroys_only_when_sweeping
  (fuel : nat) (stepCnt : Z) (g : GC) :
  state g <> Sweeping ->
  (forall sweptCnt dctors g',
     collect fuel stepCnt g = Done (sweptCnt, dctors, g') ->
     sweptCnt = 0 /\ dctors = [] /\
     pointers g' = pointers g /\ objInfoSet g' = objInfoSet g /\
     (forall i, option_Forall2
                  (fun x x' => obj x' = obj x /\ clsInfo x' = clsInfo x)
                  (infos g !! i) (infos g' !! i)) /\
     (state g = Idle -> state g' = Marking) /\
     (state g = Marking ->
      state g' = Marking \/ (state g' = Sweeping /\ grayObjs g' = []))) /\
  (0 <= stepCnt -> (Z.to_nat stepCnt <= fuel)%nat ->
   collect fuel stepCnt g <> OutOfFuel).
Proof.
  intros Hst. split.
  - intros n d g' H. unfold collect in H. destruct (state g) eqn:Hs;
      [| |congruence].
    + run_inv. rename g' into g1.
      match goal with Hm : markRoots _ _ = Done g1 |- _ =>
        apply markRoots_keeps in Hm as (Hp & Hset & Hstate & Hi) end.
      repeat split; auto.
    + run_inv. rename a into g1.
      match goal with Hm : markingLoop _ _ _ = Done g1 |- _ =>
        apply markingLoop_keeps in Hm as (Hp & Hset & Hstate & Hi) end.
      split; [reflexivity|]. split; [reflexivity|].
      destruct (grayObjs g1) eqn:Hg.
      * repeat split; auto; try discriminate.
      * repeat split; auto; try discriminate. intros _. left. congruence.
  - intros Hn Hf. unfold collect. destruct (state g) eqn:Hs; [| |congruence].
    + fuel_step; [apply markRoots_fuel|discriminate].
    + fuel_step; [apply markingLoop_fuel; assumption|discriminate].
Qed.

Lemma collect_destroys_only_when_sweeping_witness :
  (exists g', collect 1 1 ex_gc_marking = Done (0, [], g') /\
              objInfoSet g' = objInfoSet ex_gc_marking /\
              state g' = Marking) /\
  collect 1 1 ex_gc_marking <> OutOfFuel.
Proof.
  destruct (collect_destroys_only_when_sweeping 1 1 ex_gc_marking
              ltac:(discriminate)) as [Hdone Hfuel].
  split.
  - eexists. split; [vm_compute; reflexivity|].
    split; [|reflexivity].
    eapply Hdone. vm_compute. reflexivity.
  - apply Hfuel; [lia|cbn; lia].
Defined.

(** X20. The marking loop of [gcptr.cpp] tests [stepCnt--] for zero, not
    for being positive: a negative step count sets no bound (short of the
    overflow of the [int]).  When a call of [GcCollect] with a negative step
    count in state [Marking] returns, the work list is empty and the
    collector is in state [Sweeping]. *)
Theorem collect_negative_step_count_marks_to_the_end
  (fuel : nat) (stepCnt : Z) (g : GC)
  (sweptCnt : Z) (dctors : list addr) (g' : GC) :
  state g = Marking -> stepCnt < 0 ->
  collect fuel stepCnt g = Done (sweptCnt, dctors, g') ->
  state g' = Sweeping /\ grayObjs g' = [].
Proof.
  intros Hst Hn H. unfold collect in H. rewrite Hst in H. run_inv.
  rename a into g1.
  match goal with Hm : markingLoop _ _ _ = Done g1 |- _ =>
    apply markingLoop_stops in Hm as [Hg|Hge] end; [|lia].
  rewrite Hg. split; [reflexivity|exact Hg].
Qed.

Lemma collect_negative_step_count_marks_to_the_end_witness :
  exists g', collect 5 (-1) ex_gc_marking = Done (0, [], g') /\
             state g' = Sweeping /\ grayObjs g' = [].
Proof.
  eexists. split; [vm_compute; reflexivity|].
  eapply (collect_negative_step_count_marks_to_the_end 5 (-1) ex_gc_marking);
    [reflexivity|lia|vm_compute; reflexivity].
Defined.

(** ** The sweep *)








(** ** Handles *)

Lemma reset_spec (this o : addr) (n : option addr) (h0 : gc_ptr) (g g' : GC) :
  handles g !! this = Some h0 -> reset this o n g = Done g' ->
  pointerUpdates g' = pointerUpdates g ++ [this] /\
  (exists h, handles g' !! this = Some h /\ ptr h = o /\ objInfo h = n) /\
  (forall (q : addr) hq, q <> this -> handles g !! q = Some hq ->
     exists h', handles g' !! q = Some h' /\ ptr h' = ptr hq /\
                objInfo h' = objInfo hq).
Proof.
  intros H0 H. unfold reset, getHandle in H. rewrite H0 in H.
  cbn [deref mbind Run_bind] in H.
  apply onPointerUpdate_handles in H as [Hu Hk].
  cbn [handles set_handles pointerUpdates] in Hu, Hk.
  split; [exact Hu|]. split.
  - destruct (Hk this (with_objInfo n (with_ptr o h0)))
      as (h & Hh & Hp & Hi); [apply lookup_insert_eq|].
    exists h. auto.
  - intros q hq Hne Hq. apply Hk.
    rewrite lookup_insert_ne by congruence. exact Hq.
Qed.

Lemma handles_pointers_insert p g :
  handles (pointers_insert p g) = handles g /\
  pointerUpdates (pointers_insert p g) = pointerUpdates g /\
  objInfoSet (pointers_insert p g) = objInfoSet g /\
  infos (pointers_insert p g) = infos g /\
  classes (pointers_insert p g) = classes g /\
  p ∈ pointers (pointers_insert p g).
Proof.
  unfold pointers_insert. case_decide; cbn; repeat split; auto.
  apply elem_of_app. right. left.
Qed.

Lemma swap_spec (this r : addr) (ht hr : gc_ptr) (g g' : GC) :
  handles g !! this = Some ht -> handles g !! r = Some hr ->
  swap this r g = Done g' ->
  (exists h, handles g' !! this = Some h /\ ptr h = ptr hr /\
             objInfo h = objInfo hr) /\
  (exists h, handles g' !! r = Some h /\ ptr h = ptr ht /\
             objInfo h = objInfo ht) /\
  pointerUpdates g' = pointerUpdates g ++ [this; r].
Proof.
  intros Ht Hr H. unfold swap, getHandle in H. rewrite Ht, Hr in H.
  cbn [deref mbind Run_bind] in H.
  apply run_bind_done in H as (g1 & H1 & H2).
  destruct (reset_spec _ _ _ _ _ _ Ht H1) as (Hu1 & (h1 & Hh1 & Hp1 & Hi1) & Hk1).
  assert (Hr1 : exists hr1, handles g1 !! r = Some hr1).
  { destruct (decide (r = this)) as [->|Hne]; [eauto|].
    destruct (Hk1 r hr Hne Hr) as (h' & Hh' & _). eauto. }
  destruct Hr1 as [hr1 Hr1].
  destruct (reset_spec _ _ _ _ _ _ Hr1 H2) as (Hu2 & (h2 & Hh2 & Hp2 & Hi2) & Hk2).
  split; [|split].
  - destruct (decide (this = r)) as [->|Hne].
    + exists h2. pose proof (eq_trans (eq_sym Ht) Hr) as [= ->]. auto.
    + destruct (Hk2 this h1 Hne Hh1) as (h' & Hh' & Hp' & Hi').
      exists h'. split; [exact Hh'|]. split; congruence.
  - exists h2. auto.
  - rewrite Hu2, Hu1, <- app_assoc. reflexivity.
Qed.

(** X22. [swap] exchanges the pointee and the info pointer of the two
    handles and runs the write barrier on the first handle, then on the
    second; the barrier, which may store the owner in a handle, changes
    neither field of any handle. *)
Theorem swap_exchanges_the_handles
  (this r : addr) (ht hr : gc_ptr) (g g' : GC) :
  handles g !! this = Some ht -> handles g !! r = Some hr ->
  swap this r g = Done g' ->
  (exists h, handles g' !! this = Some h /\ ptr h = ptr hr /\
             objInfo h = objInfo hr) /\
  (exists h, handles g' !! r = Some h /\ ptr h = ptr ht /\
             objInfo h = objInfo ht) /\
  pointerUpdates g' = pointerUpdates g ++ [this; r].
Proof. exact (swap_spec this r ht hr g g'). Qed.

Lemma swap_exchanges_the_handles_witness :
  exists g',
    swap 10 20 ex_gc = Done g' /\
    (exists h, handles g' !! 10 = Some h /\ ptr h = 2016 /\
               objInfo h = Some 2000) /\
    (exists h, handles g' !! 20 = Some h /\ ptr h = 0 /\ objInfo h = None) /\
    pointerUpdates g' = [10; 20].
Proof.
  eexists. split; [vm_compute; reflexivity|].
  eapply (swap_exchanges_the_handles 10 20 null_gc_ptr
            (mk_gc_ptr kInvalidObjInfo (Some 2000) 2016) ex_gc);
    [reflexivity|reflexivity|vm_compute; reflexivity].
Defined.

(** X23. What move assignment does, for a target and a source that are
    different handles: the target takes the pointee and the info pointer of
    the source, the write barrier runs once, on the target, and the info
    pointer of the source becomes null, so that the source compares equal
    to a null handle; the field [ptr] of the source is left as it was, so
    the conversion of the source to [bool] gives what it gave before. *)
Theorem move_assign_leaves_ptr_of_the_source
  (this r : addr) (hr : gc_ptr) (g g' : GC) :
  this <> r -> handles g !! r = Some hr ->
  move_assign this r g = Done g' ->
  (exists ht, handles g' !! this = Some ht /\
              ptr ht = ptr hr /\ objInfo ht = objInfo hr) /\
  pointerUpdates g' = pointerUpdates g ++ [this] /\
  (exists hs, handles g' !! r = Some hs /\
              objInfo hs = None /\ operator_eq hs null_gc_ptr = true /\
              ptr hs = ptr hr /\ operator_bool hs = operator_bool hr).
Proof. exact (move_assign_spec this r hr g g'). Qed.

Lemma move_assign_leaves_ptr_of_the_source_witness :
  exists g',
    move_assign 10 20 ex_gc = Done g' /\
    exists hs, handles g' !! 20 = Some hs /\
               objInfo hs = None /\ operator_eq hs null_gc_ptr = true /\
               ptr hs = 2016 /\ operator_bool hs = true.
Proof.
  eexists. split; [vm_compute; reflexivity|].
  eapply (proj2 (proj2 (move_assign_leaves_ptr_of_the_source 10 20
                          (mk_gc_ptr kInvalidObjInfo (Some 2000) 2016)
                          ex_gc _ ltac:(discriminate) eq_refl _))).
  Unshelve. vm_compute. reflexivity.
Defined.

(** X24. Copy assignment makes the target equal to the source: the target
    takes the pointee and the info pointer of the source, the source keeps
    both, the two handles compare equal and convert to the same [bool], and
    the write barrier runs once, on the target. *)
Theorem copy_assign_makes_the_handles_equal
  (this r : addr) (hr : gc_ptr) (g g' : GC) :
  handles g !! r = Some hr -> copy_assign this r g = Done g' ->
  exists ht hs,
    handles g' !! this = Some ht /\ handles g' !! r = Some hs /\
    ptr ht = ptr hr /\ objInfo ht = objInfo hr /\
    ptr hs = ptr hr /\ objInfo hs = objInfo hr /\
    operator_eq ht hs = true /\ operator_bool ht = operator_bool hs /\
    pointerUpdates g' = pointerUpdates g ++ [this].
Proof.
  intros Hr H. unfold copy_assign, getHandle in H. rewrite Hr in H.
  cbn [deref mbind Run_bind] in H.
  assert (Ht : exists ht0, handles g !! this = Some ht0).
  { unfold reset, getHandle in H.
    destruct (handles g !! this) as [ht0|]; [eauto|discriminate]. }
  destruct Ht as [ht0 Ht].
  destruct (reset_spec _ _ _ _ _ _ Ht H) as (Hu & (ht & Hht & Hp & Hi) & Hk).
  assert (Hs : exists hs, handles g' !! r = Some hs /\ ptr hs = ptr hr /\
                          objInfo hs = objInfo hr).
  { destruct (decide (r = this)) as [->|Hne]; [eauto|].
    apply (Hk r hr Hne Hr). }
  destruct Hs as (hs & Hhs & Hps & His).
  exists ht, hs. repeat split; auto.
  - unfold operator_eq. apply bool_decide_eq_true. congruence.
  - unfold operator_bool. congruence.
Qed.

Lemma copy_assign_makes_the_handles_equal_witness :
  exists g' ht hs,
    copy_assign 10 20 ex_gc = Done g' /\
    handles g' !! 10 = Some ht /\ handles g' !! 20 = Some hs /\
    operator_eq ht hs = true /\ operator_bool ht = true /\
    operator_bool hs = true.
Proof.
  destruct (copy_assign 10 20 ex_gc) as [g'| |] eqn:Hrun;
    [|vm_compute in Hrun; discriminate Hrun
     |vm_compute in Hrun; discriminate Hrun].
  destruct (copy_assign_makes_the_handles_equal 10 20
              (mk_gc_ptr kInvalidObjInfo (Some 2000) 2016) ex_gc g'
              eq_refl Hrun)
    as (ht & hs & H10 & H20 & Hp & _ & Hps & _ & Heq & Hb & _).
  exists g', ht, hs. split; [reflexivity|].
  split; [exact H10|]. split; [exact H20|]. split; [exact Heq|].
  unfold operator_bool. rewrite Hp, Hps. split; reflexivity.
Defined.

Lemma isRoot_spec (p : addr) (g : GC) (b : bool) (g1 : GC) :
  isRoot p g = Done (b, g1) ->
  isRoot p g1 = Done (b, g1) /\
  (exists h h1 o,
     handles g !! p = Some h /\ handles g1 !! p = Some h1 /\
     owner h1 = OwnerIs o /\ b = bool_decide (o = None) /\
     objInfo h1 = objInfo h /\ ptr h1 = ptr h /\
     (owner h = kInvalidObjInfo \/ h1 = h)) /\
  (forall q : addr, q <> p -> handles g1 !! q = handles g !! q) /\
  infos g1 = infos g /\ grayObjs g1 = grayObjs g.
Proof.
  unfold isRoot at 1, getHandle. intros H.
  destruct (handles g !! p) as [h|] eqn:Hp; [|discriminate].
  cbn [deref mbind Run_bind] in H.
  assert (Hsecond : forall o (g2 : GC),
            owner h = kInvalidObjInfo ->
            handles g2 = <[p := with_owner (OwnerIs o) h]> (handles g) ->
            infos g2 = infos g -> grayObjs g2 = grayObjs g ->
            isRoot p g2 = Done (bool_decide (o = None), g2) /\
            (exists h0 h1 o',
               Some h = Some h0 /\ handles g2 !! p = Some h1 /\
               owner h1 = OwnerIs o' /\
               bool_decide (o = None) = bool_decide (o' = None) /\
               objInfo h1 = objInfo h0 /\ ptr h1 = ptr h0 /\
               (owner h0 = kInvalidObjInfo \/ h1 = h0)) /\
            (forall q : addr, q <> p -> handles g2 !! q = handles g !! q) /\
            infos g2 = infos g /\ grayObjs g2 = grayObjs g).
  { intros o g2 Hinv Hg2 Hi Hgr.
    assert (Hl : handles g2 !! p = Some (with_owner (OwnerIs o) h))
      by (rewrite Hg2; apply lookup_insert_eq).
    split; [|split; [|split; [|auto]]].
    - unfold isRoot, getHandle. rewrite Hl. reflexivity.
    - eexists h, _, o. split; [reflexivity|]. split; [exact Hl|].
      repeat split; auto.
    - intros q Hq. rewrite Hg2. apply lookup_insert_ne. congruence. }
  destruct (owner h) as [|o] eqn:Ho; run_inv.
  - rename a into o. destruct o as [ow|]; run_inv.
    + unfold getInfo, getClass in *. run_inv.
      case_decide; run_inv; apply (Hsecond (Some ow)); reflexivity.
    + apply (Hsecond None); reflexivity.
  - split; [|split; [|auto]].
    + unfold isRoot, getHandle. rewrite Hp. cbn [deref mbind Run_bind].
      rewrite Ho. reflexivity.
    + exists h, h, o. auto 10.
Qed.

(** X25. [isRoot] looks the owner of a handle up once.  After a call the
    handle holds its owner (or null) instead of the marker
    [kInvalidObjInfo], the result tells whether that owner is null, and a
    second call returns the same result and changes nothing: the owner is
    not looked up again and no offset is added to a class. *)
Theorem isRoot_caches_the_owner (p : addr) (g : GC) (b : bool) (g1 : GC) :
  isRoot p g = Done (b, g1) ->
  isRoot p g1 = Done (b, g1) /\
  exists h1 o, handles g1 !! p = Some h1 /\ owner h1 = OwnerIs o /\
               b = bool_decide (o = None).
Proof.
  intros H. destruct (isRoot_spec p g b g1 H)
    as (Hid & (h & h1 & o & _ & Hh1 & Ho & Hb & _) & _).
  split; [exact Hid|]. exists h1, o. auto.
Qed.

Lemma isRoot_caches_the_owner_witness :
  exists g1,
    isRoot 20 ex_gc = Done (true, g1) /\ isRoot 20 g1 = Done (true, g1).
Proof.
  eexists. split; [vm_compute; reflexivity|].
  apply (isRoot_caches_the_owner 20 ex_gc). vm_compute. reflexivity.
Defined.

Lemma findOwnerObjInfo_sound (o : addr) (g : GC) (i : addr) :
  findOwnerObjInfo o g = Done (Some i) -> i ∈ objInfoSet g /\ contains g i o.
Proof.
  unfold findOwnerObjInfo. intros H. run_inv. rename a into k.
  destruct (objInfoSet g !! k) as [j|] eqn:Hj; run_inv; [|discriminate].
  unfold getInfo, containsPointer, getClass in *. run_inv.
  match goal with H : (if ?c then _ else _) = Some i |- _ =>
    destruct c eqn:Hc; [injection H as <-|discriminate H] end.
  apply andb_prop in Hc as [H1 H2].
  apply Z.leb_le in H1. apply Z.ltb_lt in H2.
  split; [eapply list_elem_of_lookup_2, Hj|].
  eexists _, _. split; [eassumption|]. split; [eassumption|]. lia.
Qed.

Lemma gc_ptr_ctor_raw_spec (res t : addr) (g g' : GC) :
  gc_ptr_ctor_raw res t g = Done g' ->
  exists h,
    handles g' !! res = Some h /\ res ∈ pointers g' /\
    ptr h = t /\ owner h = kInvalidObjInfo /\
    (forall i, objInfo h = Some i -> i ∈ objInfoSet g /\ contains g i t) /\
    ((forall i, i ∈ objInfoSet g -> ~ contains g i t) ->
     objInfo h = None /\ operator_eq h null_gc_ptr = true /\
     operator_bool h = negb (t =? 0)).
Proof.
  unfold gc_ptr_ctor_raw. intros H. run_inv. rename a into n.
  set (g0 := set_handles _ g).
  destruct (handles_pointers_insert res g0) as (Hh & _ & _ & _ & _ & Hin).
  exists (mk_gc_ptr kInvalidObjInfo n t). rewrite Hh.
  split; [apply lookup_insert_eq|]. split; [exact Hin|].
  split; [reflexivity|]. split; [reflexivity|].
  cbn [objInfo]. split.
  - intros i ->. eapply findOwnerObjInfo_sound; eauto.
  - intros Hnone. destruct n as [i|].
    + exfalso. destruct (findOwnerObjInfo_sound _ _ _ Hrun) as [Hi Hc].
      exact (Hnone i Hi Hc).
    + repeat split.
Qed.

(** X26. A handle made from a raw pointer ([gc_from_this], the constructor
    [gc_ptr(T* obj)]) is registered, holds the raw pointer, and its info
    pointer is null or an info of the set whose payload contains the raw
    pointer.  When no payload of the set contains the raw pointer, the info
    pointer is null: the handle compares equal to a null handle although it
    converts to [true] for every raw pointer other than null. *)
Theorem gc_from_this_finds_the_owner_or_null (res t : addr) (g g' : GC) :
  gc_from_this res t g = Done g' ->
  exists h,
    handles g' !! res = Some h /\ res ∈ pointers g' /\
    ptr h = t /\ owner h = kInvalidObjInfo /\
    (forall i, objInfo h = Some i -> i ∈ objInfoSet g /\ contains g i t) /\
    ((forall i, i ∈ objInfoSet g -> ~ contains g i t) ->
     objInfo h = None /\ operator_eq h null_gc_ptr = true /\
     operator_bool h = negb (t =? 0)).
Proof. exact (gc_ptr_ctor_raw_spec res t g g'). Qed.

Lemma gc_from_this_finds_the_owner_or_null_witness :
  exists g' h,
    gc_from_this 30 5000 ex_gc = Done g' /\
    handles g' !! 30 = Some h /\ operator_bool h = true /\
    operator_eq h null_gc_ptr = true.
Proof.
  destruct (gc_from_this 30 5000 ex_gc) as [g'| |] eqn:Hrun;
    [|vm_compute in Hrun; discriminate Hrun
     |vm_compute in Hrun; discriminate Hrun].
  destruct (gc_from_this_finds_the_owner_or_null 30 5000 ex_gc g' Hrun)
    as (h & Hh & _ & _ & _ & _ & Hnone).
  exists g', h. split; [reflexivity|]. split; [exact Hh|].
  destruct Hnone as (_ & Heq & Hb).
  - intros i Hi (x & ci & Hx & Hc & Hr). cbn in Hi.
    apply list_elem_of_singleton in Hi as ->.
    vm_compute in Hx. injection Hx as <-. vm_compute in Hc.
    injection Hc as <-. cbn in Hr. lia.
  - split; [rewrite Hb; reflexivity|exact Heq].
Defined.

(** X27. Assigning [nullptr] makes a handle null: a temporary null handle
    is constructed, moved from and destroyed, after which the handle has a
    null pointee and a null info pointer (it converts to [false] and
    compares equal to a null handle), the write barrier has run once, on the
    handle, and the temporary is neither a live handle nor registered. *)
Theorem assign_nullptr_makes_the_handle_null
  (tmp this : addr) (h0 : gc_ptr) (g g' : GC) :
  tmp <> this -> handles g !! this = Some h0 ->
  assign_nullptr tmp this g = Done g' ->
  (exists h, handles g' !! this = Some h /\ ptr h = 0 /\ objInfo h = None /\
             operator_bool h = false /\ operator_eq h null_gc_ptr = true) /\
  pointerUpdates g' = pointerUpdates g ++ [this] /\
  handles g' !! tmp = None /\ (tmp ∉ pointers g').
Proof.
  intros Hne H0 H. unfold assign_nullptr in H. run_inv. rename a into g1.
  set (g0 := gc_ptr_ctor tmp g) in *.
  assert (Htmp : handles g0 !! tmp = Some null_gc_ptr).
  { unfold g0, gc_ptr_ctor.
    destruct (handles_pointers_insert tmp
                (set_handles (<[tmp := null_gc_ptr]> (handles g)) g))
      as (-> & _).
    apply lookup_insert_eq. }
  assert (Hu0 : pointerUpdates g0 = pointerUpdates g).
  { unfold g0, gc_ptr_ctor.
    destruct (handles_pointers_insert tmp
                (set_handles (<[tmp := null_gc_ptr]> (handles g)) g))
      as (_ & -> & _).
    reflexivity. }
  destruct (move_assign_spec this tmp null_gc_ptr g0 g1
              ltac:(congruence) Htmp Hrun)
    as ((ht & Hht & Hp & Hi) & Hu & _).
  unfold gc_ptr_dtor, pointers_erase.
  cbn [handles pointers pointerUpdates set_handles set_pointers].
  split; [|split; [|split]].
  - exists ht. rewrite lookup_delete_ne by congruence.
    split; [exact Hht|]. cbn in Hp, Hi. split; [exact Hp|].
    split; [exact Hi|]. unfold operator_bool, operator_eq.
    rewrite Hp, Hi. split; reflexivity.
  - rewrite Hu, Hu0. reflexivity.
  - apply lookup_delete_eq.
  - intros Hin. apply list_elem_of_filter in Hin as [Hin _]. congruence.
Qed.

Lemma assign_nullptr_makes_the_handle_null_witness :
  exists g',
    assign_nullptr 30 20 ex_gc = Done g' /\
    (exists h, handles g' !! 20 = Some h /\ ptr h = 0 /\ objInfo h = None /\
               operator_bool h = false /\
               operator_eq h null_gc_ptr = true) /\
    pointerUpdates g' = [20] /\ handles g' !! 30 = None /\
    (30 ∉ pointers g').
Proof.
  eexists. split; [vm_compute; reflexivity|].
  eapply (assign_nullptr_makes_the_handle_null 30 20
            (mk_gc_ptr kInvalidObjInfo (Some 2000) 2016) ex_gc);
    [discriminate|reflexivity|vm_compute; reflexivity].
Defined.

(** ** The first step of a cycle *)

Lemma markAsRoot_spec (p : addr) (g g1 : GC) :
  markAsRoot p g = Done g1 ->
  root_colored g1 p /\
  (forall q : addr, q <> p -> handles g1 !! q = handles g !! q) /\
  (forall i, colored g i -> colored g1 i) /\
  (forall x, x ∈ grayObjs g -> x ∈ grayObjs g1).
Proof.
  unfold markAsRoot, getHandle. intros H.
  destruct (handles g !! p) as [h|] eqn:Hp; [|discriminate].
  cbn [deref mbind Run_bind] in H.
  destruct (objInfo h) as [i|] eqn:Hi; run_inv.
  - destruct a as [root ga].
    destruct (isRoot_spec _ _ _ _ Hrun)
      as (_ & (h0 & ha & o & Hh0 & Hha & Ho & Hb & Hoi & _) & Hother & Hinf
          & Hgr).
    pose proof (eq_trans (eq_sym Hp) Hh0) as [= <-].
    destruct root; run_inv.
    + unfold getInfo in *. run_inv. rename a into x.
      case_decide as Hw; run_inv.
      * cbn [handles infos grayObjs set_grayObjs set_infos].
        split; [|split; [exact Hother|split]].
        -- intros h' i' Hh' Hi'.
           pose proof (eq_trans (eq_sym Hha) Hh') as [= <-].
           assert (i' = i) as -> by congruence.
           exists o. split; [exact Ho|]. intros _.
           eexists. cbn [infos set_grayObjs set_infos].
           split; [apply lookup_insert_eq|]. cbn. discriminate.
        -- intros j (y & Hy & Hc). rewrite Hinf in *.
           destruct (decide (j = i)) as [->|Hne].
           ++ eexists. split; [apply lookup_insert_eq|]. cbn. discriminate.
           ++ exists y. cbn [infos set_grayObjs set_infos].
              rewrite lookup_insert_ne by congruence. auto.
        -- intros y Hy. right. rewrite Hgr. exact Hy.
      * split; [|split; [exact Hother|split]].
        -- intros h' i' Hh' Hi'.
           pose proof (eq_trans (eq_sym Hha) Hh') as [= <-].
           assert (i' = i) as -> by congruence.
           exists o. split; [exact Ho|]. intros _.
           exists x. auto.
        -- intros j. unfold colored. rewrite Hinf. auto.
        -- intros y. rewrite Hgr. auto.
    + split; [|split; [exact Hother|split]].
      * intros h' i' Hh' _.
        pose proof (eq_trans (eq_sym Hha) Hh') as [= <-].
        exists o. split; [exact Ho|]. intros ->.
        rewrite bool_decide_eq_true_2 in Hb by reflexivity. discriminate.
      * intros j. unfold colored. rewrite Hinf. auto.
      * intros y. rewrite Hgr. auto.
  - split; [|auto]. intros h' i' Hh' Hi'.
    pose proof (eq_trans (eq_sym Hp) Hh') as [= <-]. congruence.
Qed.

Lemma markRoots_spec (ps : list addr) :
  forall g g', markRoots ps g = Done g' ->
    (forall p, p ∈ ps -> root_colored g' p) /\
    (forall p, p ∉ ps -> handles g' !! p = handles g !! p) /\
    (forall i, colored g i -> colored g' i).
Proof.
  induction ps as [|q ps IH]; intros g g' H; cbn [markRoots] in H; run_inv.
  - split; [|auto]. intros p Hp. inversion Hp.
  - rename a into g1.
    destruct (markAsRoot_spec _ _ _ Hrun) as (Hq & Hother & Hcol & _).
    destruct (IH _ _ H) as (Hps & Hother' & Hcol').
    split; [|split].
    + intros p Hp. destruct (decide (p ∈ ps)) as [Hin|Hnin]; [auto|].
      apply elem_of_cons in Hp as [->|Hp]; [|contradiction].
      intros h i Hh Hi. rewrite (Hother' q Hnin) in Hh.
      destruct (Hq h i Hh Hi) as (o & Ho & Hc).
      exists o. split; [exact Ho|]. intros He. apply Hcol'. auto.
    + intros p Hp. rewrite Hother'.
      * apply Hother. intros ->. apply Hp. left.
      * intros Hin. apply Hp. right. exact Hin.
    + auto.
Qed.

(** X28. The first step of a cycle marks the roots.  When a call of
    [GcCollect] in state [Idle] returns, every registered handle that has a
    pointee had its owner looked up (it no longer holds the marker
    [kInvalidObjInfo]), and the pointee of every such handle that is a root
    (its owner is null) is a live info that is not [White]. *)
Theorem collect_idle_colors_the_pointees_of_the_roots
  (fuel : nat) (stepCnt : Z) (g : GC)
  (sweptCnt : Z) (dctors : list addr) (g' : GC) :
  state g = Idle ->
  collect fuel stepCnt g = Done (sweptCnt, dctors, g') ->
  forall p, p ∈ pointers g -> root_colored g' p.
Proof.
  intros Hst H. unfold collect in H. rewrite Hst in H. run_inv.
  match goal with Hm : markRoots _ _ = Done _ |- _ =>
    apply markRoots_spec in Hm as (Hroots & _) end.
  exact Hroots.
Qed.

Lemma collect_idle_colors_the_pointees_of_the_roots_witness :
  exists g',
    collect 0 0 ex_gc_idle = Done (0, [], g') /\
    grayObjs g' = [1000] /\ root_colored g' 10.
Proof.
  eexists. split; [vm_compute; reflexivity|]. split; [reflexivity|].
  eapply (collect_idle_colors_the_pointees_of_the_roots 0 0 ex_gc_idle);
    [reflexivity|vm_compute; reflexivity|left].
Defined.

Lemma gc_ptr_ctor_raw_frame (res t : addr) (g g' : GC) :
  gc_ptr_ctor_raw res t g = Done g' ->
  pointerUpdates g' = pointerUpdates g /\
  forall q : addr, q <> res -> handles g' !! q = handles g !! q.
Proof.
  unfold gc_ptr_ctor_raw. intros H. run_inv. rename a into n.
  destruct (handles_pointers_insert res
              (set_handles
                 (<[res := mk_gc_ptr kInvalidObjInfo n t]> (handles g)) g))
    as (-> & -> & _).
  split; [reflexivity|]. intros q Hq. cbn [handles set_handles].
  apply lookup_insert_ne. congruence.
Qed.

(** X29. [reset] to a raw pointer constructs a temporary handle from the
    raw pointer, swaps it with the handle and destroys it.  Afterwards the
    handle holds the raw pointer, its info pointer is null or an info of
    the set whose payload contains the raw pointer, and the temporary is
    neither a live handle nor registered.  The write barrier has run twice:
    first on the temporary, which then held the former pointee of the
    handle, then on the handle. *)
Theorem reset_raw_points_the_handle_to_the_raw_pointer
  (tmp this o : addr) (h0 : gc_ptr) (g g' : GC) :
  tmp <> this -> handles g !! this = Some h0 ->
  reset_raw tmp this o g = Done g' ->
  (exists h, handles g' !! this = Some h /\ ptr h = o /\
             forall i, objInfo h = Some i ->
                       i ∈ objInfoSet g /\ contains g i o) /\
  pointerUpdates g' = pointerUpdates g ++ [tmp; this] /\
  handles g' !! tmp = None /\ (tmp ∉ pointers g').
Proof.
  intros Hne H0 H. unfold reset_raw in H. run_inv.
  rename a into g1, a0 into g2.
  destruct (gc_ptr_ctor_raw_spec _ _ _ _ Hrun)
    as (ht & Hht & _ & Hp & _ & Hown & _).
  destruct (gc_ptr_ctor_raw_frame _ _ _ _ Hrun) as [Hu1 Hother].
  assert (Hthis : handles g1 !! this = Some h0).
  { rewrite Hother by congruence. exact H0. }
  destruct (swap_spec _ _ _ _ _ _ Hht Hthis Hrun0)
    as (_ & (h & Hh & Hph & Hih) & Hu).
  unfold gc_ptr_dtor, pointers_erase.
  cbn [handles pointers pointerUpdates set_handles set_pointers].
  split; [|split; [|split]].
  - exists h. rewrite lookup_delete_ne by congruence.
    split; [exact Hh|]. split; [congruence|].
    intros i Hi. apply Hown. congruence.
  - rewrite Hu, Hu1. reflexivity.
  - apply lookup_delete_eq.
  - intros Hin. apply list_elem_of_filter in Hin as [Hin _]. congruence.
Qed.

Lemma reset_raw_points_the_handle_to_the_raw_pointer_witness :
  exists g',
    reset_raw 30 10 2020 ex_gc = Done g' /\
    (exists h, handles g' !! 10 = Some h /\ ptr h = 2020 /\
               forall i, objInfo h = Some i ->
                         i ∈ objInfoSet ex_gc /\ contains ex_gc i 2020) /\
    pointerUpdates g' = [30; 10] /\ handles g' !! 30 = None /\
    (30 ∉ pointers g').
Proof.
  eexists. split; [vm_compute; reflexivity|].
  eapply (reset_raw_points_the_handle_to_the_raw_pointer 30 10 2020
            null_gc_ptr ex_gc);
    [discriminate|reflexivity|vm_compute; reflexivity].
Defined.

End GcPtrTheory.
